(** * Track-map generator: resampler, width estimator, spline anchors,
      Savitzky-Golay smoothing and the guardrail clamp

    A shallow embedding of the numerical core of the viewer's track-map
    generator ([resampler.js], [smoothing.js], [constraints.js] and the
    spline / width module), followed by the properties the specification
    states about it.

    Numbers.  A JavaScript number is modelled as an exact rational ([Q]):
    finite doubles without rounding.  Values that are not finite numbers are
    modelled where the code can produce or meet them from finite inputs: a
    [num] is [option Q], and [None] stands for [NaN], for [undefined] read
    from a missing array slot, and for the result of a division by zero.
    Arithmetic on [num] propagates [None]; every comparison with [None] is
    false, as in JavaScript.  [Math.atan2], [Math.cos] and [Math.sin] are
    taken as parameters.  Equality of rationals is [Qeq] ([==]).

    Rounding.  The only place where the rounding of doubles decides a
    stated property is the slope clamp, which stores [prev + limit] and
    compares it with [prev] again; its model is therefore written over an
    arithmetic interface and run both on rationals and on binary64
    floats. *)

From Stdlib Require Import String.
From Stdlib Require Import QArith Qabs Qround ZArith List Bool Arith Lia Lqa.
From Stdlib Require Import Permutation.
From Stdlib Require Floats.
Import ListNotations.
Open Scope Q_scope.

Set Implicit Arguments.

(* ================================================================== *)
(** * Numbers *)

Module JsNum.

Definition Qlt_bool (a b : Q) : bool := negb (Qle_bool b a).

(** [Math.max] and [Math.min] on finite numbers. *)
Definition jsMax (a b : Q) : Q := if Qlt_bool a b then b else a.
Definition jsMin (a b : Q) : Q := if Qlt_bool b a then b else a.

(** [Math.round]: the nearest integer, ties towards +infinity. *)
Definition jsRound (a : Q) : Z := Qfloor (a + (1 # 2)).

(** [Math.PI] is the double 884279719003555 / 2^48. *)
Definition PI : Q := 884279719003555 # 281474976710656.

Definition ofNat (n : nat) : Q := inject_Z (Z.of_nat n).

(** Possibly non-finite numbers. *)
Definition num : Type := option Q.

Definition lift2 (f : Q -> Q -> Q) (a b : num) : num :=
  match a, b with
  | Some x, Some y => Some (f x y)
  | _, _ => None
  end.

Definition nadd : num -> num -> num := lift2 Qplus.
Definition nsub : num -> num -> num := lift2 Qminus.
Definition nmul : num -> num -> num := lift2 Qmult.

(** Division: a zero divisor gives [NaN] or an infinity, both [None]. *)
Definition ndiv (a b : num) : num :=
  match a, b with
  | Some x, Some y => if Qeq_bool y 0 then None else Some (x / y)
  | _, _ => None
  end.

Definition nlt (a b : num) : bool :=
  match a, b with
  | Some x, Some y => Qlt_bool x y
  | _, _ => false
  end.

Definition nle (a b : num) : bool :=
  match a, b with
  | Some x, Some y => Qle_bool x y
  | _, _ => false
  end.

Definition isFinite (a : num) : bool :=
  match a with Some _ => true | None => false end.

(** The finite entries of an array of numbers, in order. *)
Fixpoint finites (l : list num) : list Q :=
  match l with
  | [] => []
  | Some q :: r => q :: finites r
  | None :: r => finites r
  end.

End JsNum.
Import JsNum.

(** The arithmetic a model is run on: exact rationals, or the doubles of
    JavaScript (IEEE 754 binary64, round to nearest even). *)
Class Arithmetic (T : Type) : Type := {
  azero : T;
  aadd : T -> T -> T;
  asub : T -> T -> T;
  aopp : T -> T;
  altb : T -> T -> bool
}.

#[export] Instance ArithQ : Arithmetic Q := {|
  azero := 0;
  aadd := Qplus;
  asub := Qminus;
  aopp := Qopp;
  altb := Qlt_bool
|}.

#[export] Instance ArithDouble : Arithmetic PrimFloat.float := {|
  azero := PrimFloat.zero;
  aadd := PrimFloat.add;
  asub := PrimFloat.sub;
  aopp := PrimFloat.opp;
  altb := PrimFloat.ltb
|}.

(* ================================================================== *)
(** * Exceptions and arrays *)

Inductive Exn : Type :=
| InsufficientSpatialData (valid : nat)
| GridSizeMismatch (label : string) (expected got : nat)
| NoEdgeLap
| MatrixSingular
| WindowTooSmall
| TypeError
| OutOfFuel.

Inductive Res (A : Type) : Type :=
| Ok (a : A)
| Throw (e : Exn).
Arguments Ok {A} a.
Arguments Throw {A} e.

Definition bind {A B : Type} (m : Res A) (k : A -> Res B) : Res B :=
  match m with
  | Ok a => k a
  | Throw e => Throw e
  end.

Notation "x <- m ;; k" := (bind m (fun x => k))
  (at level 61, m at next level, right associativity).
Notation "' pat <- m ;; k" := (bind m (fun x => match x with pat => k end))
  (at level 61, pat pattern, m at next level, right associativity).

Fixpoint mapM {A B : Type} (f : A -> Res B) (l : list A) : Res (list B) :=
  match l with
  | [] => Ok []
  | a :: r => b <- f a ;; bs <- mapM f r ;; Ok (b :: bs)
  end.

(** Reading a property of an array element that must exist: a missing
    element is [undefined], and reading a property of it throws. *)
Definition elemAt {A : Type} (l : list A) (i : nat) : Res A :=
  match nth_error l i with
  | Some a => Ok a
  | None => Throw TypeError
  end.

(** In-place write [a[i] = v] on a typed array: ignored out of range. *)
Fixpoint setAt {A : Type} (l : list A) (i : nat) (v : A) : list A :=
  match l, i with
  | [], _ => []
  | _ :: r, O => v :: r
  | a :: r, S j => a :: setAt r j v
  end.

(** [Array.prototype.sort] with a consistent comparator is the stable
    sort; [before y x] says that [y] must come strictly before [x]. *)
Section Sort.
Variable A : Type.
Variable before : A -> A -> bool.

Fixpoint insertSorted (x : A) (l : list A) : list A :=
  match l with
  | [] => [x]
  | y :: r => if before y x then y :: insertSorted x r else x :: y :: r
  end.

Fixpoint sortBy (l : list A) : list A :=
  match l with
  | [] => []
  | x :: r => insertSorted x (sortBy r)
  end.
End Sort.

(** [values.sort((a, b) => a - b)]. *)
Definition sortAscending (l : list Q) : list Q := sortBy Qlt_bool l.

(* ================================================================== *)
(** * resampler.js *)

Module Resampler.

(** A telemetry sample: [null] or missing coordinates are [None]. *)
Record Sample : Type := mkSample {
  distance : Q;
  sample_x : option Q;
  sample_y : option Q;
  sample_z : option Q
}.

(** A point of a progress grid. *)
Record GridPoint : Type := mkGridPoint {
  progress : num;
  gx : num;
  gy : num
}.

Definition Grid : Type := list GridPoint.

Record Lap : Type := mkLap { samples : list Sample }.

Record ClassifiedLap : Type := mkClassifiedLap {
  lapType : string;
  lap : Lap;
  filename : option string
}.

Record Options : Type := mkOptions {
  sampleCount : option nat;
  spacingMeters : Q;
  alignHeading : bool
}.

(** The defaults of the destructured [options]. *)
Definition defaultOptions : Options :=
  {| sampleCount := None; spacingMeters := 1 # 2; alignHeading := true |}.

Definition getPlanarY (sample : Sample) : option Q :=
  match sample_z sample with
  | Some z => Some z
  | None => sample_y sample
  end.

Definition calculateCumulativeDistance (l : list Sample) : list Q :=
  match l with
  | [] => []
  | s0 :: rest => distance s0 :: map distance rest
  end.

Definition normalizeToProgress (cumulativeDistance : list Q) : list Q :=
  match cumulativeDistance with
  | [] => []
  | minDistance :: _ =>
      let maxDistance := last cumulativeDistance minDistance in
      let span := maxDistance - minDistance in
      if Qeq_bool span 0 then repeat 0 (length cumulativeDistance)
      else map (fun d => (d - minDistance) / span) cumulativeDistance
  end.

Definition lerp (a b t : num) : num := nadd a (nmul (nsub b a) t).

(** The [while (left < right)] loop of the binary search; the fuel bounds
    the number of iterations. *)
Fixpoint binarySearchLoop (fuel : nat) (arr : list Q) (target : num)
  (left right : nat) : Res nat :=
  if (left <? right)%nat then
    match fuel with
    | O => Throw OutOfFuel
    | S fuel' =>
        let mid := ((left + right) / 2)%nat in
        if nlt (nth_error arr mid) target
        then binarySearchLoop fuel' arr target (mid + 1)%nat right
        else binarySearchLoop fuel' arr target left mid
    end
  else Ok left.

Definition binarySearchGE (arr : list Q) (target : num) : Res nat :=
  binarySearchLoop (length arr) arr target 0%nat (length arr).

Definition validSample (s : Sample) : bool :=
  match sample_x s, getPlanarY s with
  | Some _, Some _ => true
  | _, _ => false
  end.

(** The body of the grid loop of [resampleOnGrid], for index [i]. *)
Definition resamplePoint (validSamples : list Sample) (progressArr : list Q)
  (gridSize i : nat) : Res GridPoint :=
  let targetProgress := ndiv (Some (ofNat i)) (Some (ofNat gridSize - 1)) in
  rightIdx <- binarySearchGE progressArr targetProgress ;;
  if (rightIdx =? 0)%nat then
    s <- elemAt validSamples 0 ;;
    Ok (mkGridPoint targetProgress (sample_x s) (getPlanarY s))
  else if (length progressArr <=? rightIdx)%nat then
    let lastIdx := (length validSamples - 1)%nat in
    s <- elemAt validSamples lastIdx ;;
    Ok (mkGridPoint targetProgress (sample_x s) (getPlanarY s))
  else
    let leftIdx := (rightIdx - 1)%nat in
    let p0 := nth_error progressArr leftIdx in
    let p1 := nth_error progressArr rightIdx in
    let span := nsub p1 p0 in
    let t := if nlt (Some 0) span then ndiv (nsub targetProgress p0) span
             else Some 0 in
    sl <- elemAt validSamples leftIdx ;;
    sr <- elemAt validSamples rightIdx ;;
    Ok (mkGridPoint targetProgress
          (lerp (sample_x sl) (sample_x sr) t)
          (lerp (getPlanarY sl) (getPlanarY sr) t)).

Definition resampleOnGrid (l : list Sample) (gridSize : nat) : Res Grid :=
  let validSamples := filter validSample l in
  if (length validSamples <? 2)%nat then
    Throw (InsufficientSpatialData (length validSamples))
  else
    let cumulative := calculateCumulativeDistance validSamples in
    let progressArr := normalizeToProgress cumulative in
    mapM (resamplePoint validSamples progressArr gridSize) (seq 0 gridSize).

(** ** Heading alignment *)

Section Trig.
Variable atan2 : Q -> Q -> Q.
Variable cos : Q -> Q.
Variable sin : Q -> Q.

(** [grid[k].x] inside arithmetic: a missing point cannot occur at the
    indices the loops use; it would read as [NaN]. *)
Definition pointX (grid : Grid) (k : nat) : num :=
  match nth_error grid k with Some p => gx p | None => None end.
Definition pointY (grid : Grid) (k : nat) : num :=
  match nth_error grid k with Some p => gy p | None => None end.

Definition computeHeadings (grid : Grid) : list num :=
  let n := length grid in
  map (fun i =>
         let prev := ((i + n - 1) mod n)%nat in
         let next := ((i + 1) mod n)%nat in
         let dx := nsub (pointX grid next) (pointX grid prev) in
         let dy := nsub (pointY grid next) (pointY grid prev) in
         lift2 atan2 dy dx)
      (seq 0 n).

(** The two [while] loops of [wrapAngle]. *)
Fixpoint wrapUp (fuel : nat) (result : Q) : Q :=
  if Qle_bool result (- PI) then
    match fuel with
    | O => result
    | S fuel' => wrapUp fuel' (result + PI * 2)
    end
  else result.

Fixpoint wrapDown (fuel : nat) (result : Q) : Q :=
  if Qlt_bool PI result then
    match fuel with
    | O => result
    | S fuel' => wrapDown fuel' (result - PI * 2)
    end
  else result.

(** Enough iterations for any finite angle: each one moves the value by
    more than 6. *)
Definition wrapFuel (angle : Q) : nat := S (Z.to_nat (Qceiling (Qabs angle))).

Definition wrapAngle (angle : num) : num :=
  match angle with
  | None => None
  | Some a => Some (wrapDown (wrapFuel a) (wrapUp (wrapFuel a) a))
  end.

Definition medianAngle (values : list Q) : Q :=
  match values with
  | [] => 0
  | _ =>
      let sorted := sortAscending values in
      let mid := (length sorted / 2)%nat in
      if (length sorted mod 2 =? 1)%nat then nth mid sorted 0
      else (nth (mid - 1) sorted 0 + nth mid sorted 0) / 2
  end.

Definition sumNum (l : list num) : num := fold_left nadd l (Some 0).

Definition rotateGrid (grid : Grid) (angle : Q) : Grid :=
  if Qlt_bool (Qabs angle) (1 # 1000000) then grid
  else
    let len := Some (ofNat (length grid)) in
    let cx := ndiv (sumNum (map gx grid)) len in
    let cy := ndiv (sumNum (map gy grid)) len in
    let c := Some (cos angle) in
    let s := Some (sin angle) in
    map (fun point =>
           let dx := nsub (gx point) cx in
           let dy := nsub (gy point) cy in
           {| progress := progress point;
              gx := nsub (nadd cx (nmul dx c)) (nmul dy s);
              gy := nadd (nadd cy (nmul dx s)) (nmul dy c) |})
        grid.

(** ** Objects keyed by strings ([grouped], [headingOffsets]) *)

Fixpoint lookupKey {V : Type} (k : string) (m : list (string * V)) : option V :=
  match m with
  | [] => None
  | (k', v) :: r => if String.eqb k k' then Some v else lookupKey k r
  end.

Fixpoint assignKey {V : Type} (k : string) (v : V) (m : list (string * V))
  : list (string * V) :=
  match m with
  | [] => [(k, v)]
  | (k', v') :: r =>
      if String.eqb k k' then (k', v) :: r else (k', v') :: assignKey k v r
  end.

Definition groupOf (grouped : list (string * list Grid)) (k : string)
  : list Grid :=
  match lookupKey k grouped with Some l => l | None => [] end.

(** [grouped[type].push(grid)], after [if (!grouped[type]) grouped[type] = []]. *)
Definition pushGrid (grouped : list (string * list Grid)) (k : string)
  (grid : Grid) : list (string * list Grid) :=
  assignKey k (groupOf grouped k ++ [grid]) grouped.

Record LoopState : Type := mkState {
  grouped : list (string * list Grid);
  referenceHeading : option (list num);
  headingOffsets : list (string * Q)
}.

Definition initialState : LoopState :=
  {| grouped := [("left"%string, []); ("center"%string, []); ("right"%string, [])];
     referenceHeading := None;
     headingOffsets := [] |}.

(** [filename || type]: an absent or empty filename falls back to the type. *)
Definition offsetKey (c : ClassifiedLap) : string :=
  match filename c with
  | Some f => if String.eqb f EmptyString then lapType c else f
  | None => lapType c
  end.

Definition headingDeltas (headings reference : list num) : list num :=
  map (fun '(idx, angle) => wrapAngle (nsub angle (nth idx reference None)))
      (combine (seq 0 (length headings)) headings).

(** One iteration of the main loop of [resampleCalibrationLaps]. *)
Definition lapStep (opts : Options) (gridSize : nat) (st : LoopState)
  (c : ClassifiedLap) : Res LoopState :=
  grid <- resampleOnGrid (samples (lap c)) gridSize ;;
  if alignHeading opts then
    let headings := computeHeadings grid in
    match referenceHeading st with
    | None =>
        Ok {| grouped := pushGrid (grouped st) (lapType c) grid;
              referenceHeading := Some headings;
              headingOffsets := assignKey (offsetKey c) 0 (headingOffsets st) |}
    | Some reference =>
        let deltas := headingDeltas headings reference in
        let normalizedDelta := medianAngle (finites deltas) in
        let offsets := assignKey (offsetKey c) normalizedDelta (headingOffsets st) in
        if Qlt_bool (1 # 10000) (Qabs normalizedDelta) then
          Ok {| grouped := pushGrid (grouped st) (lapType c)
                             (rotateGrid grid (- normalizedDelta));
                referenceHeading := Some reference;
                headingOffsets := offsets |}
        else
          Ok {| grouped := pushGrid (grouped st) (lapType c) grid;
                referenceHeading := Some reference;
                headingOffsets := offsets |}
    end
  else
    Ok {| grouped := pushGrid (grouped st) (lapType c) grid;
          referenceHeading := referenceHeading st;
          headingOffsets := headingOffsets st |}.

Fixpoint lapLoop (opts : Options) (gridSize : nat) (st : LoopState)
  (laps : list ClassifiedLap) : Res LoopState :=
  match laps with
  | [] => Ok st
  | c :: rest =>
      st' <- lapStep opts gridSize st c ;;
      lapLoop opts gridSize st' rest
  end.

(** The first loop: the recorded length of every usable lap. *)
Fixpoint lapLengths (laps : list ClassifiedLap) : list Q :=
  match laps with
  | [] => []
  | c :: rest =>
      let validSamples := filter validSample (samples (lap c)) in
      if (length validSamples <? 2)%nat then lapLengths rest
      else
        let cumulative := calculateCumulativeDistance validSamples in
        let len := last cumulative 0 - hd 0 cumulative in
        if Qlt_bool 0 len then len :: lapLengths rest else lapLengths rest
  end.

Definition averageLength (laps : list ClassifiedLap) : option Q :=
  match lapLengths laps with
  | [] => None
  | ls => Some (fold_left Qplus ls 0 / ofNat (length ls))
  end.

(** [averageLength || 0]. *)
Definition orZero (a : option Q) : Q :=
  match a with Some q => q | None => 0 end.

Definition resolveSampleCount (opts : Options) (avg : option Q) : nat :=
  match sampleCount opts with
  | Some (S k) => S k
  | _ =>
      let r := Z.to_nat (Z.max 200
                 (jsRound (orZero avg / jsMax (spacingMeters opts) (1 # 10)))) in
      if (r =? 0)%nat then 1024%nat else r
  end.

(** [averageGrid]: [None] is the [null] returned for an empty list. *)
Definition averagePoint (gridList : list Grid) (first : Grid) (i : nat)
  : GridPoint :=
  let count := Some (ofNat (length gridList)) in
  {| progress := match nth_error first i with
                 | Some p => progress p
                 | None => None
                 end;
     gx := ndiv (sumNum (map (fun g => pointX g i) gridList)) count;
     gy := ndiv (sumNum (map (fun g => pointY g i) gridList)) count |}.

Fixpoint checkLengths (label : string) (len : nat) (gridList : list Grid)
  : Res unit :=
  match gridList with
  | [] => Ok tt
  | g :: rest =>
      if (length g =? len)%nat then checkLengths label len rest
      else Throw (GridSizeMismatch label len (length g))
  end.

Definition averageGrid (gridList : list Grid) (label : string)
  : Res (option Grid) :=
  match gridList with
  | [] => Ok None
  | first :: others =>
      let len := length first in
      _ <- checkLengths label len gridList ;;
      match others with
      | [] => Ok (Some first)
      | _ => Ok (Some (map (averagePoint gridList first) (seq 0 len)))
      end
  end.

Record Grids : Type := mkGrids {
  leftGrid : option Grid;
  rightGrid : option Grid;
  centerGrid : option Grid
}.

Record Metadata : Type := mkMetadata {
  trackLength : option Q;
  metaSampleCount : nat;
  metaSpacingMeters : Q;
  metaHeadingOffsets : list (string * Q)
}.

Record Resampled : Type := mkResampled {
  grids : Grids;
  rawSamples : list (string * list Grid);
  metadata : Metadata
}.

Definition resampleCalibrationLaps (laps : list ClassifiedLap) (opts : Options)
  : Res Resampled :=
  let avg := averageLength laps in
  let gridSize := resolveSampleCount opts avg in
  st <- lapLoop opts gridSize initialState laps ;;
  leftG <- averageGrid (groupOf (grouped st) "left") "left" ;;
  rightG <- averageGrid (groupOf (grouped st) "right") "right" ;;
  match leftG, rightG with
  | None, None => Throw NoEdgeLap
  | _, _ =>
      centerG <- averageGrid (groupOf (grouped st) "center") "center" ;;
      Ok {| grids := {| leftGrid := leftG; rightGrid := rightG;
                        centerGrid := centerG |};
            rawSamples := grouped st;
            metadata :=
              {| trackLength := avg;
                 metaSampleCount := gridSize;
                 metaSpacingMeters :=
                   match avg with
                   | Some a =>
                       if (1 <? gridSize)%nat then a / (ofNat gridSize - 1)
                       else spacingMeters opts
                   | None => spacingMeters opts
                   end;
                 metaHeadingOffsets := headingOffsets st |} |}
  end.

End Trig.

End Resampler.

(* ================================================================== *)
(** * smoothing.js: the Savitzky-Golay filter *)

Module Smoothing.

Definition Matrix : Type := list (list Q).

(** [m[i][j]] at indices that exist by construction of the matrices. *)
Definition entry (m : Matrix) (i j : nat) : Q := nth j (nth i m []) 0.

Definition transposeMatrix (matrix : Matrix) : Matrix :=
  let rows := length matrix in
  let cols := length (nth 0%nat matrix []) in
  map (fun j => map (fun i => entry matrix i j) (seq 0 rows)) (seq 0 cols).

(** [result[i][j]] accumulates [a[i][k] * b[k][j]] from 0, in the order of [k]. *)
Definition multiplyMatrices (a b : Matrix) : Matrix :=
  let rows := length a in
  let cols := length (nth 0%nat b []) in
  let inner := length b in
  map (fun i =>
         map (fun j =>
                fold_left (fun acc k => acc + entry a i k * entry b k j)
                          (seq 0 inner) 0)
             (seq 0 cols))
      (seq 0 rows).

Definition identityRow (n i : nat) : list Q :=
  map (fun j => if (j =? i)%nat then 1 else 0) (seq 0 n).

Definition pivotTolerance : Q := 1 # 1000000000000.

(** The first lower row whose entry in column [i] is larger in magnitude
    than the pivot. *)
Definition findSwapRow (augmented : Matrix) (n i : nat) (pivot : Q)
  : option nat :=
  find (fun r => Qlt_bool (Qabs pivot) (Qabs (entry augmented r i)))
       (seq (S i) (n - S i)).

Definition swapRows (augmented : Matrix) (i r : nat) : Matrix :=
  let rowI := nth i augmented [] in
  let rowR := nth r augmented [] in
  setAt (setAt augmented i rowR) r rowI.

(** One iteration of the elimination loop of [invertMatrix]; the rows of
    the augmented matrix have [2 * n] entries. *)
Definition eliminateColumn (n : nat) (augmented : Matrix) (i : nat)
  : Res Matrix :=
  let pivot0 := entry augmented i i in
  let augmented1 :=
    if Qlt_bool (Qabs pivot0) pivotTolerance then
      match findSwapRow augmented n i pivot0 with
      | Some r => swapRows augmented i r
      | None => augmented
      end
    else augmented in
  let pivot := entry augmented1 i i in
  if Qlt_bool (Qabs pivot) pivotTolerance then Throw MatrixSingular
  else
    let pivotInv := 1 / pivot in
    let rowI := map (fun v => v * pivotInv) (nth i augmented1 []) in
    let augmented2 := setAt augmented1 i rowI in
    Ok (map (fun '(r, row) =>
               if (r =? i)%nat then row
               else
                 let factor := nth i row 0 in
                 map (fun '(v, p) => v - factor * p) (combine row rowI))
            (combine (seq 0 n) augmented2)).

Fixpoint eliminateAll (n : nat) (augmented : Matrix) (cols : list nat)
  : Res Matrix :=
  match cols with
  | [] => Ok augmented
  | i :: rest =>
      augmented' <- eliminateColumn n augmented i ;;
      eliminateAll n augmented' rest
  end.

Definition invertMatrix (matrix : Matrix) : Res Matrix :=
  let n := length matrix in
  let augmented :=
    map (fun '(i, row) => row ++ identityRow n i) (combine (seq 0 n) matrix) in
  reduced <- eliminateAll n augmented (seq 0 n) ;;
  Ok (map (fun i => map (fun j => entry reduced i (j + n)) (seq 0 n)) (seq 0 n)).

(** The cache key [windowSize|order|spacing.toFixed(4)]: the spacing enters
    as its number of ten-thousandths, rounded to the nearest. *)
Definition Key : Type := (nat * nat * Z)%type.

Definition toFixed4 (spacing : Q) : Z := jsRound (spacing * 10000).

Definition keyEqb (a b : Key) : bool :=
  let '(w1, o1, s1) := a in
  let '(w2, o2, s2) := b in
  (w1 =? w2)%nat && (o1 =? o2)%nat && (s1 =? s2)%Z.

(** [sgKernelCache], the module-level [Map]. *)
Definition Cache : Type := list (Key * list Q).

Fixpoint cacheGet (key : Key) (cache : Cache) : option (list Q) :=
  match cache with
  | [] => None
  | (k, kernel) :: rest =>
      if keyEqb key k then Some kernel else cacheGet key rest
  end.

Definition samplePositions (half : nat) (safeSpacing : Q) : list Q :=
  map (fun k => inject_Z (Z.of_nat k - Z.of_nat half) * safeSpacing)
      (seq 0 (2 * half + 1)).

Definition designMatrix (positions : list Q) (orderPlusOne : nat) : Matrix :=
  map (fun t => map (fun p => Qpower t (Z.of_nat p)) (seq 0 orderPlusOne))
      positions.

Definition getSavitzkyGolayKernel (cache : Cache) (windowSize order : nat)
  (spacing : Q) : Res (list Q * Cache) :=
  let key := (windowSize, order, toFixed4 spacing) in
  match cacheGet key cache with
  | Some kernel => Ok (kernel, cache)
  | None =>
      let half := (windowSize / 2)%nat in
      let safeSpacing := jsMax spacing (1 # 1000) in
      let orderPlusOne := (order + 1)%nat in
      let A := designMatrix (samplePositions half safeSpacing) orderPlusOne in
      let AT := transposeMatrix A in
      let ATA := multiplyMatrices AT A in
      ATAInv <- invertMatrix ATA ;;
      let pseudoInverse := multiplyMatrices ATAInv AT in
      let kernel := nth 0%nat pseudoInverse [] in
      Ok (kernel, cache ++ [(key, kernel)])
  end.

Record SgOptions : Type := mkSgOptions {
  order : nat;
  spacing : Q;
  circular : bool
}.

Definition defaultSgOptions : SgOptions :=
  {| order := 3; spacing := 1; circular := true |}.

(** [values[index]] for an index computed with the remainder [%], which can
    be negative: a slot outside the array is [undefined]. *)
Definition valueAt (values : list Q) (index : Z) : num :=
  if (index <? 0)%Z then None else nth_error values (Z.to_nat index).

(** The inner loop over the window, for output index [i]: the pair
    [(sum, weightSum)]. *)
Definition windowStep (values kernel : list Q) (isCircular : bool)
  (half i : nat) (acc : num * num) (k : nat) : num * num :=
  let '(sum, weightSum) := acc in
  let n := Z.of_nat (length values) in
  let index := (Z.of_nat i + Z.of_nat k - Z.of_nat half)%Z in
  if isCircular then
    let index' := Z.rem (index + n) n in
    (nadd sum (nmul (nth_error kernel k) (valueAt values index')),
     nadd weightSum (nth_error kernel k))
  else if ((index <? 0) || (n <=? index))%Z then acc
  else
    (nadd sum (nmul (nth_error kernel k) (valueAt values index)),
     nadd weightSum (nth_error kernel k)).

Definition smoothAt (values kernel : list Q) (isCircular : bool)
  (windowSize half i : nat) : num :=
  let '(sum, weightSum) :=
    fold_left (windowStep values kernel isCircular half i)
              (seq 0 windowSize) (Some 0, Some 0) in
  match weightSum with
  | Some w => if Qeq_bool w 0 then nth_error values i else ndiv sum weightSum
  | None => None
  end.

Definition savitzkyGolaySmooth (cache : Cache) (values : list Q)
  (windowSize : nat) (options : SgOptions) : Res (list num * Cache) :=
  if (windowSize <? 3)%nat then Throw WindowTooSmall
  else
    let windowSize' :=
      if (windowSize mod 2 =? 0)%nat then (windowSize + 1)%nat
      else windowSize in
    '(kernel, cache') <-
      getSavitzkyGolayKernel cache windowSize' (order options) (spacing options) ;;
    let half := (windowSize' / 2)%nat in
    let n := length values in
    Ok (map (smoothAt values kernel (circular options) windowSize' half)
            (seq 0 n),
        cache').

End Smoothing.

(* ================================================================== *)
(** * The spline builder: anchor budget *)

Module Spline.

Record Point : Type := mkPoint { px : Q; py : Q }.

(** A JavaScript [Set] of indices: distinct values in insertion order. *)
Definition IndexSet : Type := list nat.

Definition setHas (idx : nat) (s : IndexSet) : bool := existsb (Nat.eqb idx) s.

Definition setAdd (idx : nat) (s : IndexSet) : IndexSet :=
  if setHas idx s then s else s ++ [idx].

Definition setDelete (idx : nat) (s : IndexSet) : IndexSet :=
  filter (fun j => negb (idx =? j)%nat) s.

Definition setFromList (l : list nat) : IndexSet :=
  fold_left (fun s idx => setAdd idx s) l [].

Record AnchorOptions : Type := mkAnchorOptions {
  biasIndices : list Z;
  anchorSpacingMeters : Q;
  straightSpacing : Q
}.

Definition defaultAnchorOptions : AnchorOptions :=
  {| biasIndices := []; anchorSpacingMeters := 1; straightSpacing := 80 |}.

(** [((idx % n) + n) % n] with JavaScript's remainder. *)
Definition wrapIndex (n : nat) (index : Z) : nat :=
  Z.to_nat (Z.rem (Z.rem index (Z.of_nat n) + Z.of_nat n) (Z.of_nat n)).

Section Curvature.
Variable atan2 : Q -> Q -> Q.

(** [wrap(points, index)]; the array is never empty where it is used. *)
Definition wrap (points : list Point) (index : Z) : Point :=
  nth (wrapIndex (length points) index) points (mkPoint 0 0).

Definition curvatureScore (points : list Point) (index : nat) : Q :=
  let prev := wrap points (Z.of_nat index - 1) in
  let curr := wrap points (Z.of_nat index) in
  let next := wrap points (Z.of_nat index + 1) in
  let v1x := px curr - px prev in
  let v1y := py curr - py prev in
  let v2x := px next - px curr in
  let v2y := py next - py curr in
  let cross := v1x * v2y - v1y * v2x in
  let dot := v1x * v2x + v1y * v2y in
  Qabs (atan2 cross dot).

(** [for (idx = 0; idx < n && indexSet.size < targetCount; idx += step)];
    with [step >= 1] the loop body runs at most [n] times. *)
Fixpoint straightLoop (fuel n targetCount step idx : nat) (s : IndexSet)
  : IndexSet :=
  match fuel with
  | O => s
  | S fuel' =>
      if ((idx <? n) && (length s <? targetCount))%nat
      then straightLoop fuel' n targetCount step (idx + step)%nat (setAdd idx s)
      else s
  end.

Definition scored (points : list Point) (indices : list nat) : list (nat * Q) :=
  map (fun idx => (idx, curvatureScore points idx)) indices.

(** [sort((a, b) => b.score - a.score)] and [sort((a, b) => a.score - b.score)]. *)
Definition byScoreDescending (l : list (nat * Q)) : list (nat * Q) :=
  sortBy (fun y x => Qlt_bool (snd x) (snd y)) l.
Definition byScoreAscending (l : list (nat * Q)) : list (nat * Q) :=
  sortBy (fun y x => Qlt_bool (snd y) (snd x)) l.

Definition fillByCurvature (targetCount : nat) (sorted : list (nat * Q))
  (s : IndexSet) : IndexSet :=
  fold_left (fun acc '(idx, _) =>
               if (length acc <? targetCount)%nat then setAdd idx acc else acc)
            sorted s.

Definition trimToTarget (points : list Point) (targetCount : nat)
  (s : IndexSet) : IndexSet :=
  if (targetCount <? length s)%nat then
    let sortedByCurvature := byScoreAscending (scored points s) in
    fold_left (fun acc '(idx, _) => setDelete idx acc)
              (firstn (length sortedByCurvature - targetCount) sortedByCurvature)
              s
  else s.

Definition buildAnchorBudget (points : list Point) (targetCount : nat)
  (options : AnchorOptions) : list Point :=
  let n := length points in
  if ((n <=? targetCount) || (targetCount <? 4))%nat then points
  else
    let indexSet0 := setFromList (map (wrapIndex n) (biasIndices options)) in
    let straightSamples :=
      Z.to_nat (Z.max 1 (jsRound (straightSpacing options
                                  / jsMax (anchorSpacingMeters options) (1 # 1000)))) in
    let indexSet1 := straightLoop n n targetCount straightSamples 0 indexSet0 in
    let curvatureScores := scored points (seq 0 n) in
    let indexSet2 :=
      fillByCurvature targetCount (byScoreDescending curvatureScores) indexSet1 in
    let indexSet3 := trimToTarget points targetCount indexSet2 in
    let sortedIndices := sortBy Nat.ltb indexSet3 in
    let selected := map (fun idx => nth idx points (mkPoint 0 0)) sortedIndices in
    if (length selected <? 4)%nat then points else selected.

End Curvature.

End Spline.

(* ================================================================== *)
(** * The width estimator: constant-width envelope and slope clamp *)

Module Width.

Definition nabs (a : num) : num :=
  match a with Some q => Some (Qabs q) | None => None end.

(** [Math.max] with a possibly non-finite argument. *)
Definition nmax : num -> num -> num := lift2 jsMax.

Record Envelope : Type := mkEnvelope {
  envLeft : list num;
  envRight : list num;
  envTargetWidth : Q;
  insideLeftCount : nat;
  insideRightCount : nat
}.

(** The classification of sample [i]: the inside edge is the left one. *)
Definition classify (signedAngles : option (list Q)) (i : nat)
  (lastInsideLeft : bool) : bool :=
  let angle : num :=
    match signedAngles with
    | Some a => nth_error a i
    | None => Some 0
    end in
  if nlt (nabs angle) (Some (1 # 1000)) then lastInsideLeft
  else nle (Some 0) angle.

(** The inside and the outside half-width computed from the raw
    half-width [rawInside] of the inside edge. *)
Definition envelopePair (rawInside : num) (targetWidth minWidth : Q)
  : num * num :=
  let insideHalf := nmax (Some 0) rawInside in
  let scaled := targetWidth * (19 # 20) in
  let desiredTotal :=
    nmax (Some minWidth)
         (if Qeq_bool scaled 0 then nmul insideHalf (Some 2) else Some scaled) in
  let outsideHalf0 := nsub desiredTotal insideHalf in
  let outsideHalf1 :=
    if nlt outsideHalf0 (nmul insideHalf (Some (2 # 5)))
    then nmul insideHalf (Some (2 # 5)) else outsideHalf0 in
  let outsideHalf :=
    if nlt outsideHalf1 (Some (3 # 4)) then Some (3 # 4) else outsideHalf1 in
  (insideHalf, outsideHalf).

(** The inside and the outside half-width of sample [i]. *)
Definition envelopeWidths (halfWidthLeft halfWidthRight : list Q)
  (targetWidth minWidth : Q) (insideLeft : bool) (i : nat) : num * num :=
  envelopePair
    (if insideLeft then nth_error halfWidthLeft i
     else nth_error halfWidthRight i)
    targetWidth minWidth.

Record EnvState : Type := mkEnvState {
  resultLeft : list num;
  resultRight : list num;
  leftCount : nat;
  rightCount : nat;
  lastInsideLeft : bool
}.

Definition envelopeStep (halfWidthLeft halfWidthRight : list Q)
  (signedAngles : option (list Q)) (targetWidth minWidth : Q)
  (st : EnvState) (i : nat) : EnvState :=
  let insideLeft := classify signedAngles i (lastInsideLeft st) in
  let '(insideHalf, outsideHalf) :=
    envelopeWidths halfWidthLeft halfWidthRight targetWidth minWidth insideLeft i in
  if insideLeft then
    {| resultLeft := setAt (resultLeft st) i insideHalf;
       resultRight := setAt (resultRight st) i outsideHalf;
       leftCount := S (leftCount st);
       rightCount := rightCount st;
       lastInsideLeft := insideLeft |}
  else
    {| resultLeft := setAt (resultLeft st) i outsideHalf;
       resultRight := setAt (resultRight st) i insideHalf;
       leftCount := leftCount st;
       rightCount := S (rightCount st);
       lastInsideLeft := insideLeft |}.

Definition buildConstantWidthEnvelope (halfWidthLeft halfWidthRight : list Q)
  (signedAngles : option (list Q)) (targetWidth : Q) : Envelope :=
  let n := length halfWidthLeft in
  let minWidth := if Qlt_bool 0 targetWidth then targetWidth else 6 in
  let st :=
    fold_left (envelopeStep halfWidthLeft halfWidthRight signedAngles
                            targetWidth minWidth)
              (seq 0 n)
              {| resultLeft := repeat (Some 0) n;
                 resultRight := repeat (Some 0) n;
                 leftCount := 0; rightCount := 0;
                 lastInsideLeft := true |} in
  {| envLeft := resultLeft st;
     envRight := resultRight st;
     envTargetWidth := minWidth;
     insideLeftCount := leftCount st;
     insideRightCount := rightCount st |}.

(** ** Slope clamp *)

Section SlopeClamp.
Context {T : Type} {arith : Arithmetic T}.

Record ClampState : Type := mkClampState {
  result : list T;
  flags : list bool;
  changed : bool
}.

(** The body of the [for] loop of [applySlopeClamp] at index [i]. *)
Definition clampStep (perSampleLimit : T) (n : nat) (st : ClampState)
  (i : nat) : ClampState :=
  let prevIndex := ((i + n - 1) mod n)%nat in
  let prevValue := nth prevIndex (result st) azero in
  let current := nth i (result st) azero in
  let delta := asub current prevValue in
  if altb perSampleLimit delta then
    {| result := setAt (result st) i (aadd prevValue perSampleLimit);
       flags := setAt (flags st) i true;
       changed := true |}
  else if altb delta (aopp perSampleLimit) then
    {| result := setAt (result st) i (asub prevValue perSampleLimit);
       flags := setAt (flags st) i true;
       changed := true |}
  else st.

(** One pass of the [while] loop: [changed] is reset, then every index is
    visited in order. *)
Definition clampPass (perSampleLimit : T) (n : nat) (st : ClampState)
  : ClampState :=
  fold_left (clampStep perSampleLimit n) (seq 0 n)
            {| result := result st; flags := flags st; changed := false |}.

(** [while (changed && iterations < n * 2)]: [remaining] counts the passes
    still allowed. *)
Fixpoint clampLoop (remaining : nat) (perSampleLimit : T) (n : nat)
  (st : ClampState) : ClampState :=
  match remaining with
  | O => st
  | S remaining' =>
      if changed st
      then clampLoop remaining' perSampleLimit n (clampPass perSampleLimit n st)
      else st
  end.

Record SlopeClamp : Type := mkSlopeClamp {
  values : list T;
  clampFlags : list bool;
  clampedCount : nat
}.

Definition applySlopeClamp (vals : list T) (perSampleLimit : T) : SlopeClamp :=
  let n := length vals in
  let st := clampLoop (n * 2) perSampleLimit n
              {| result := vals; flags := repeat false n; changed := true |} in
  {| values := result st;
     clampFlags := flags st;
     clampedCount := length (filter (fun b => b) (flags st)) |}.

End SlopeClamp.

Record SectorSummary : Type := mkSectorSummary {
  sector : nat;
  sectorSamples : nat;
  sectorClamped : nat;
  ratio : Q
}.

Definition countFlags (fl : list bool) (start stop : nat) : nat :=
  length (filter (fun b => b) (firstn (stop - start) (skipn start fl))).

Definition summariseClampBySector (fl : list bool) (spacingMeters sectorLength : Q)
  : list SectorSummary :=
  match fl with
  | [] => []
  | _ =>
      let samplesPerSector :=
        Z.to_nat (Z.max 1 (jsRound (sectorLength / jsMax spacingMeters (1 # 1000)))) in
      let sectorCount :=
        ((length fl + samplesPerSector - 1) / samplesPerSector)%nat in
      map (fun s =>
             let start := (s * samplesPerSector)%nat in
             let stop := Nat.min (length fl) (start + samplesPerSector) in
             let clamped := countFlags fl start stop in
             {| sector := s;
                sectorSamples := (stop - start)%nat;
                sectorClamped := clamped;
                ratio := if (0 <? stop - start)%nat
                         then ofNat clamped / ofNat (stop - start) else 0 |})
          (seq 0 sectorCount)
  end.

Record DeltaOptions : Type := mkDeltaOptions {
  spacingMeters : Q;
  maxDeltaPer10m : Q;
  sectorLength : Q
}.

Definition defaultDeltaOptions : DeltaOptions :=
  {| spacingMeters := 1; maxDeltaPer10m := 1 # 4; sectorLength := 100 |}.

Record Diagnostics : Type := mkDiagnostics {
  perSampleLimit : Q;
  diagMaxDeltaPer10m : Q;
  leftClamped : nat;
  rightClamped : nat;
  leftSectors : list SectorSummary;
  rightSectors : list SectorSummary
}.

Record ClampedWidths : Type := mkClampedWidths {
  halfWidthLeft : list Q;
  halfWidthRight : list Q;
  diagnostics : Diagnostics
}.

Definition clampWidthDeltas (left right : list Q) (options : DeltaOptions)
  : ClampedWidths :=
  let limitPerMeter := maxDeltaPer10m options / 10 in
  let limit := limitPerMeter * jsMax (spacingMeters options) (1 # 1000) in
  let leftClamp := applySlopeClamp left limit in
  let rightClamp := applySlopeClamp right limit in
  {| halfWidthLeft := values leftClamp;
     halfWidthRight := values rightClamp;
     diagnostics :=
       {| perSampleLimit := limit;
          diagMaxDeltaPer10m := maxDeltaPer10m options;
          leftClamped := clampedCount leftClamp;
          rightClamped := clampedCount rightClamp;
          leftSectors := summariseClampBySector (clampFlags leftClamp)
                           (spacingMeters options) (sectorLength options);
          rightSectors := summariseClampBySector (clampFlags rightClamp)
                            (spacingMeters options) (sectorLength options) |} |}.

End Width.

(* ================================================================== *)
(** * constraints.js: the guardrail *)

Module Constraints.

(** The [Float64Array]s that exist: an array is known by its address, its
    position in the store.  Arrays are shared by reference, so whether a
    function writes into its arguments is visible in the store. *)
Definition Store : Type := list (list Q).

Definition Addr : Type := nat.

Definition arrayAt (st : Store) (a : Addr) : list Q := nth a st [].

(** [new Float64Array(source)]: a fresh array holding a copy. *)
Definition allocCopy (st : Store) (source : Addr) : Store * Addr :=
  (st ++ [arrayAt st source], length st).

(** [array[i] = v]. *)
Definition writeAt (st : Store) (a : Addr) (i : nat) (v : Q) : Store :=
  setAt st a (setAt (arrayAt st a) i v).

Record LapPoint : Type := mkLapPoint { x : Q; y : Q }.

Record RawSamples : Type := mkRawSamples {
  left : option (list (list LapPoint));
  right : option (list (list LapPoint))
}.

Record Params : Type := mkParams {
  centerline : list (Q * Q);
  normals : list (Q * Q);
  rawSamples : option RawSamples;
  halfWidthLeft : Addr;
  halfWidthRight : Addr;
  clampScale : Q
}.

Record Stats : Type := mkStats {
  statsClampScale : Q;
  leftClamped : nat;
  rightClamped : nat;
  leftIndices : list nat;
  rightIndices : list nat
}.

Record Output : Type := mkOutput {
  outLeft : Addr;
  outRight : Addr;
  stats : Stats
}.

Definition projectOntoNormal (point : LapPoint) (center normal : Q * Q) : Q :=
  let dx := x point - fst center in
  let dy := y point - snd center in
  dx * fst normal + dy * snd normal.

(** The [for (const lap of laps)] loop at sample [i]: the largest positive
    projection, 0 when there is none.  The right side takes the negated
    projection.  A lap without a point at [i] is skipped; a missing normal
    makes the projection throw. *)
Fixpoint lapLimit (laps : list (list LapPoint)) (negate : bool)
  (center : Q * Q) (normal : option (Q * Q)) (i : nat) (limit : Q) : Res Q :=
  match laps with
  | [] => Ok limit
  | lp :: rest =>
      match nth_error lp i with
      | None => lapLimit rest negate center normal i limit
      | Some point =>
          match normal with
          | None => Throw TypeError
          | Some nrm =>
              let p := projectOntoNormal point center nrm in
              let projection := if negate then - p else p in
              lapLimit rest negate center normal i
                       (if Qlt_bool limit projection then projection else limit)
          end
      end
  end.

(** One side at sample [i]: the array at [target], the clamp count and the
    clamped indices. *)
Definition clampSide (laps : list (list LapPoint)) (negate : bool)
  (safeScale : Q) (center : Q * Q) (normal : option (Q * Q)) (i : nat)
  (target : Addr) (acc : Store * nat * list nat) : Res (Store * nat * list nat) :=
  let '(st, count, indices) := acc in
  match laps with
  | [] => Ok acc
  | _ =>
      limit0 <- lapLimit laps negate center normal i 0 ;;
      let limit := limit0 * safeScale in
      if Qlt_bool 0 limit && nlt (Some limit) (nth_error (arrayAt st target) i)
      then Ok (writeAt st target i limit, S count, indices ++ [i])
      else Ok acc
  end.

Record LoopState : Type := mkLoopState {
  store : Store;
  countLeft : nat;
  countRight : nat;
  indicesLeft : list nat;
  indicesRight : list nat
}.

Definition sampleStep (p : Params) (leftLaps rightLaps : list (list LapPoint))
  (safeScale : Q) (leftResult rightResult : Addr) (s : LoopState) (i : nat)
  : Res LoopState :=
  center <- elemAt (centerline p) i ;;
  let normal := nth_error (normals p) i in
  '(st1, cl, il) <-
    clampSide leftLaps false safeScale center normal i leftResult
              (store s, countLeft s, indicesLeft s) ;;
  '(st2, cr, ir) <-
    clampSide rightLaps true safeScale center normal i rightResult
              (st1, countRight s, indicesRight s) ;;
  Ok {| store := st2; countLeft := cl; countRight := cr;
        indicesLeft := il; indicesRight := ir |}.

Fixpoint sampleLoop (p : Params) (leftLaps rightLaps : list (list LapPoint))
  (safeScale : Q) (leftResult rightResult : Addr) (s : LoopState)
  (indices : list nat) : Res LoopState :=
  match indices with
  | [] => Ok s
  | i :: rest =>
      s' <- sampleStep p leftLaps rightLaps safeScale leftResult rightResult s i ;;
      sampleLoop p leftLaps rightLaps safeScale leftResult rightResult s' rest
  end.

(** [rawSamples?.left ?? []]. *)
Definition lapsOf (raw : option RawSamples)
  (side : RawSamples -> option (list (list LapPoint))) : list (list LapPoint) :=
  match raw with
  | Some r => match side r with Some l => l | None => [] end
  | None => []
  end.

Definition enforceWidthConstraints (st : Store) (p : Params)
  : Res (Store * Output) :=
  let n := length (centerline p) in
  let '(st1, leftResult) := allocCopy st (halfWidthLeft p) in
  let '(st2, rightResult) := allocCopy st1 (halfWidthRight p) in
  let leftLaps := lapsOf (rawSamples p) left in
  let rightLaps := lapsOf (rawSamples p) right in
  let safeScale := jsMax (1 # 10) (jsMin (clampScale p) 1) in
  s <- sampleLoop p leftLaps rightLaps safeScale leftResult rightResult
         {| store := st2; countLeft := 0; countRight := 0;
            indicesLeft := []; indicesRight := [] |}
         (seq 0 n) ;;
  Ok (store s,
      {| outLeft := leftResult;
         outRight := rightResult;
         stats := {| statsClampScale := clampScale p;
                     leftClamped := countLeft s;
                     rightClamped := countRight s;
                     leftIndices := indicesLeft s;
                     rightIndices := indicesRight s |} |}).

(** The projections the specification speaks of: those of the raw lap
    points that exist at sample [i], on the given side. *)
Definition projections (laps : list (list LapPoint)) (negate : bool)
  (center normal : Q * Q) (i : nat) : list Q :=
  flat_map (fun lp =>
              match nth_error lp i with
              | Some point =>
                  let p := projectOntoNormal point center normal in
                  [if negate then - p else p]
              | None => []
              end)
           laps.

End Constraints.

(* ================================================================== *)
(** * Vocabulary of the specification *)

Module Vocabulary.

(** The progress values of a uniform grid: [i / (gridSize - 1)]. *)
Definition uniformProgress (gridSize : nat) : list num :=
  map (fun i => ndiv (Some (ofNat i)) (Some (ofNat gridSize - 1)))
      (seq 0 gridSize).

(** A grid of [gridSize] points carrying exactly those progress values. *)
Definition onUniformGrid (gridSize : nat) (g : Resampler.Grid) : Prop :=
  length g = gridSize /\ map Resampler.progress g = uniformProgress gridSize.

(** The side [buildConstantWidthEnvelope] treats as the inside at sample
    [i]: the sign of the turning angle, carried over from the previous
    sample when the angle is within 1e-3 of zero, the left side at first. *)
Fixpoint insideLeftAt (signedAngles : option (list Q)) (i : nat) : bool :=
  Width.classify signedAngles i
    (match i with
     | O => true
     | S j => insideLeftAt signedAngles j
     end).

Definition max3 (a b c : Q) : Q := jsMax (jsMax a b) c.

(** The outside half-width as the specification words it:
    [max(insideHalf * 0.4, desiredTotal - insideHalf, 0.75)] with
    [desiredTotal = max(minWidth, targetWidth * 0.95)]. *)
Definition specMinWidth (targetWidth : Q) : Q :=
  if Qlt_bool 0 targetWidth then targetWidth else 6.

Definition specDesiredTotal (targetWidth : Q) : Q :=
  jsMax (specMinWidth targetWidth) (targetWidth * (19 # 20)).

Definition specOutsideHalf (insideHalf desiredTotal : Q) : Q :=
  max3 (insideHalf * (2 # 5)) (desiredTotal - insideHalf) (3 # 4).

(** Every circular per-sample delta [|r[i] - r[(i - 1 + n) mod n]|] of the
    array is at most [limit]. *)
Definition circularDeltasWithin (limit : Q) (r : list Q) : Prop :=
  forall i, (i < length r)%nat ->
    Qabs (nth i r 0 - nth ((i + length r - 1) mod length r) r 0) <= limit.

(** Every kernel in the cache has the length of the window it was built
    for, as every kernel [getSavitzkyGolayKernel] stores has. *)
Definition cacheWellFormed (cache : Smoothing.Cache) : Prop :=
  forall (w o : nat) (s : Z) (kernel : list Q),
    Smoothing.cacheGet (w, o, s) cache = Some kernel -> length kernel = w.

(** The window size after [if (windowSize % 2 === 0) windowSize += 1]. *)
Definition oddWindow (windowSize : nat) : nat :=
  if (windowSize mod 2 =? 0)%nat then (windowSize + 1)%nat else windowSize.

(** [m] is the maximum of the list [l]. *)
Definition isMaximum (m : Q) (l : list Q) : Prop :=
  In m l /\ forall q, In q l -> q <= m.

(** Every grid stored so far is on the uniform grid. *)
Definition groupedUniform (gridSize : nat)
  (grouped : list (string * list Resampler.Grid)) : Prop :=
  forall key g, In g (Resampler.groupOf grouped key) -> onUniformGrid gridSize g.

(** The value the loop body of [applySlopeClamp] leaves at an index whose
    predecessor holds [prev], for the per-sample limit [L]. *)
Definition clampTo (L prev x : Q) : Q :=
  if Qlt_bool L (x - prev) then prev + L
  else if Qlt_bool (x - prev) (- L) then prev - L
  else x.

(** One pass of the slope clamp, read as a left-to-right sweep. *)
Fixpoint sweep (L prev : Q) (xs : list Q) : list Q :=
  match xs with
  | [] => []
  | x :: t => clampTo L prev x :: sweep L (clampTo L prev x) t
  end.

(** Consecutive entries of [p :: xs] differ by at most [L]. *)
Fixpoint chained (L p : Q) (xs : list Q) : Prop :=
  match xs with
  | [] => True
  | x :: t => (- L <= x - p /\ x - p <= L) /\ chained L x t
  end.

(** [p] lies between [u] and [a]. *)
Definition between (p u a : Q) : Prop :=
  (u <= p /\ p <= a) \/ (a <= p /\ p <= u).

(** [a] is [b] with some entries lowered. *)
Definition lowered (a b : list Q) : Prop := Forall2 Qle a b.

(** The bound a sample the guardrail has processed obeys on one side. *)
Definition bounded (p : Constraints.Params) (safeScale : Q)
  (laps : list (list Constraints.LapPoint)) (negate : bool)
  (target : Constraints.Addr) (st : Constraints.Store) (i : nat) : Prop :=
  forall center limit v,
    nth_error (Constraints.centerline p) i = Some center ->
    laps <> [] ->
    Constraints.lapLimit laps negate center
      (nth_error (Constraints.normals p) i) i 0 = Ok limit ->
    0 < limit * safeScale ->
    nth_error (Constraints.arrayAt st target) i = Some v ->
    v <= limit * safeScale.

(** No raw lap point of the side projects positively at sample [i]: the
    limit the guardrail computes there is not positive. *)
Definition idle (p : Constraints.Params) (safeScale : Q)
  (laps : list (list Constraints.LapPoint)) (negate : bool) (i : nat) : Prop :=
  forall center limit,
    nth_error (Constraints.centerline p) i = Some center ->
    laps <> [] ->
    Constraints.lapLimit laps negate center
      (nth_error (Constraints.normals p) i) i 0 = Ok limit ->
    limit * safeScale <= 0.

(** How the store after some samples relates to the store before: only the
    two result arrays change, and their entries only go down. *)
Definition advances (leftResult rightResult : Constraints.Addr)
  (st st' : Constraints.Store) : Prop :=
  length st' = length st
  /\ (forall a, a <> leftResult -> a <> rightResult ->
                Constraints.arrayAt st' a = Constraints.arrayAt st a)
  /\ lowered (Constraints.arrayAt st' leftResult)
       (Constraints.arrayAt st leftResult)
  /\ lowered (Constraints.arrayAt st' rightResult)
       (Constraints.arrayAt st rightResult).

(** The state of the loop of [buildConstantWidthEnvelope] after the samples
    [0 .. k - 1]. *)
Definition envelopeAfter (hwl hwr : list Q) (angles : option (list Q))
  (targetWidth minWidth : Q) (k : nat) : Width.EnvState :=
  fold_left (Width.envelopeStep hwl hwr angles targetWidth minWidth) (seq 0 k)
    {| Width.resultLeft := repeat (Some 0) (length hwl);
       Width.resultRight := repeat (Some 0) (length hwl);
       Width.leftCount := 0; Width.rightCount := 0;
       Width.lastInsideLeft := true |}.

(** The step [fillByCurvature] folds over the scored indices. *)
Definition fillWith (targetCount : nat) (acc : Spline.IndexSet)
  (p : nat * Q) : Spline.IndexSet :=
  let '(idx, _) := p in
  if (length acc <? targetCount)%nat then Spline.setAdd idx acc else acc.

End Vocabulary.
Import Vocabulary.

(* ================================================================== *)
(** * Example inputs *)

Module Examples.
Import Resampler.

(** Rational stand-ins for [Math.atan2], [Math.cos] and [Math.sin], used
    only to run the model on the examples below. *)
Definition atan2Q (dy dx : Q) : Q := dy - dx.
Definition cosQ (a : Q) : Q := 1 - a * a / 2.
Definition sinQ (a : Q) : Q := a.

Definition sampleAt (d px py : Q) : Sample :=
  {| distance := d; sample_x := Some px; sample_y := Some py;
     sample_z := None |}.

Definition lapA : ClassifiedLap :=
  {| lapType := "left";
     lap := {| samples := [sampleAt 0 0 0; sampleAt 10 10 0; sampleAt 20 10 10] |};
     filename := Some "a.csv"%string |}.

Definition lapB : ClassifiedLap :=
  {| lapType := "left";
     lap := {| samples := [sampleAt 5 0 0; sampleAt 15 10 0; sampleAt 25 10 10] |};
     filename := Some "b.csv"%string |}.

Definition lapC : ClassifiedLap :=
  {| lapType := "right";
     lap := {| samples := [sampleAt 0 0 2; sampleAt 10 8 2; sampleAt 20 8 10] |};
     filename := None |}.

(** A right-edge lap: lap A turned by a quarter turn about the origin. *)
Definition lapD : ClassifiedLap :=
  {| lapType := "right";
     lap := {| samples := [sampleAt 0 0 0; sampleAt 10 0 10;
                           sampleAt 20 (-10) 10] |};
     filename := Some "d.csv"%string |}.

(** Stand-ins that agree with [Math.atan2], [Math.cos] and [Math.sin] where
    the examples with quarter turns use them: [atan2Octant] on the eight
    principal directions, [cosQuarter] and [sinQuarter] at the multiples
    of [PI / 2] (where the doubles [Math.cos(Math.PI / 2)] and
    [Math.sin(Math.PI)] are within 2e-16 of 0). *)
Definition atan2Octant (dy dx : Q) : Q :=
  if Qeq_bool dy 0 then (if Qlt_bool dx 0 then PI else 0)
  else if Qeq_bool dx 0 then (if Qlt_bool 0 dy then PI / 2 else - (PI / 2))
  else if Qeq_bool dy dx
       then (if Qlt_bool 0 dx then PI / 4 else - (PI * 3 / 4))
  else if Qeq_bool dy (- dx)
       then (if Qlt_bool 0 dx then - (PI / 4) else PI * 3 / 4)
  else dy - dx.

Definition cosQuarter (a : Q) : Q :=
  if Qeq_bool a 0 then 1
  else if Qeq_bool (Qabs a) (PI / 2) then 0
  else if Qeq_bool (Qabs a) PI then - 1
  else 1 - a * a / 2.

Definition sinQuarter (a : Q) : Q :=
  if Qeq_bool a (PI / 2) then 1
  else if Qeq_bool a (- (PI / 2)) then - 1
  else if Qeq_bool (Qabs a) PI then 0
  else a.

Definition threePoints : Options :=
  {| sampleCount := Some 3%nat; spacingMeters := 1 # 2; alignHeading := true |}.

Definition triangle : list Spline.Point :=
  [Spline.mkPoint 0 0; Spline.mkPoint 10 0; Spline.mkPoint 0 10].

Definition hexagon : list Spline.Point :=
  [Spline.mkPoint 10 0; Spline.mkPoint 5 8; Spline.mkPoint (-5) 8;
   Spline.mkPoint (-10) 0; Spline.mkPoint (-5) (-8); Spline.mkPoint 5 (-8)].

(** The double nearest to [numerator / denominator]; for the small
    integers used here this is the value of the decimal literal. *)
Definition doubleOf (numerator denominator : Z) : PrimFloat.float :=
  PrimFloat.div (PrimFloat.of_uint63 (Uint63.of_Z numerator))
                (PrimFloat.of_uint63 (Uint63.of_Z denominator)).

(** The alternating 0 / 100 profile, and the per-sample limit of the
    defaults at a spacing of 0.5 m: [(0.25 / 10) * 0.5 = 0.0125]. *)
Definition alternating : list PrimFloat.float :=
  [doubleOf 0 1; doubleOf 100 1; doubleOf 0 1; doubleOf 100 1].

Definition limitAtHalfMetre : PrimFloat.float :=
  PrimFloat.mul (PrimFloat.div (doubleOf 1 4) (doubleOf 10 1)) (doubleOf 1 2).

(** A one-sample guardrail run: the smoothed widths live at addresses 0
    and 1 of the store. *)
Definition smoothedWidths : Constraints.Store := [[5]; [7]].

Definition guardrailParams (leftPoint rightPoint : Constraints.LapPoint)
  : Constraints.Params :=
  {| Constraints.centerline := [(0, 0)];
     Constraints.normals := [(0, 1)];
     Constraints.rawSamples :=
       Some {| Constraints.left := Some [[leftPoint]];
               Constraints.right := Some [[rightPoint]] |};
     Constraints.halfWidthLeft := 0%nat;
     Constraints.halfWidthRight := 1%nat;
     Constraints.clampScale := 1 |}.

End Examples.

(* ================================================================== *)
(** * Notions used by the further properties *)

Module Notions.

(** A list of numbers in non-decreasing, or in strictly increasing, order. *)
Fixpoint nondecreasing (l : list Q) : Prop :=
  match l with
  | a :: (b :: _) as rest => a <= b /\ nondecreasing rest
  | _ => True
  end.

Fixpoint increasing (l : list Q) : Prop :=
  match l with
  | a :: (b :: _) as rest => a < b /\ increasing rest
  | _ => True
  end.

(** The laps classified as [role], in input order. *)
Definition ofType (role : string) (laps : list Resampler.ClassifiedLap)
  : list Resampler.ClassifiedLap :=
  filter (fun c => String.eqb (Resampler.lapType c) role) laps.

(** A lap with at least two samples that carry coordinates. *)
Definition usable (c : Resampler.ClassifiedLap) : Prop :=
  (2 <= length (filter Resampler.validSample
                  (Resampler.samples (Resampler.lap c))))%nat.

(** The indices below [n] at which [after] is strictly below [before]. *)
Definition loweredIndices (before after : list Q) (n : nat) : list nat :=
  filter (fun i => nlt (nth_error after i) (nth_error before i)) (seq 0 n).

(** One side of the guardrail loop after the samples [0 .. k - 1]: the
    recorded indices are those lowered so far, and the samples still to
    come are untouched. *)
Definition sideDone (original current : list Q) (count : nat)
  (indices : list nat) (k : nat) : Prop :=
  indices = loweredIndices original current k
  /\ count = length indices
  /\ (forall j, (k <= j)%nat -> nth_error current j = nth_error original j).

Definition bothDone (leftResult rightResult : Constraints.Addr)
  (originalLeft originalRight : list Q) (s : Constraints.LoopState)
  (k : nat) : Prop :=
  (leftResult < length (Constraints.store s))%nat
  /\ (rightResult < length (Constraints.store s))%nat
  /\ sideDone originalLeft
       (Constraints.arrayAt (Constraints.store s) leftResult)
       (Constraints.countLeft s) (Constraints.indicesLeft s) k
  /\ sideDone originalRight
       (Constraints.arrayAt (Constraints.store s) rightResult)
       (Constraints.countRight s) (Constraints.indicesRight s) k.

(** The parameters of a second guardrail run over the output of a first. *)
Definition again (p : Constraints.Params) (out : Constraints.Output)
  : Constraints.Params :=
  {| Constraints.centerline := Constraints.centerline p;
     Constraints.normals := Constraints.normals p;
     Constraints.rawSamples := Constraints.rawSamples p;
     Constraints.halfWidthLeft := Constraints.outLeft out;
     Constraints.halfWidthRight := Constraints.outRight out;
     Constraints.clampScale := Constraints.clampScale p |}.

(** The flags of the slope clamp account for every change: an entry whose
    flag is still [false] holds the input value. *)
Definition flagsAccount (vals : list Q) (st : @Width.ClampState Q) : Prop :=
  length (Width.result st) = length vals
  /\ length (Width.flags st) = length vals
  /\ (forall i, nth_error (Width.flags st) i = Some false ->
                nth_error (Width.result st) i = nth_error vals i).

(** Indices in strictly increasing order. *)
Fixpoint ascending (l : list nat) : Prop :=
  match l with
  | a :: (b :: _) as rest => (a < b)%nat /\ ascending rest
  | _ => True
  end.

(** The set of indices [buildAnchorBudget] selects, past the early return. *)
Definition selectedIndices (atan2 : Q -> Q -> Q) (points : list Spline.Point)
  (targetCount : nat) (options : Spline.AnchorOptions) : Spline.IndexSet :=
  let n := length points in
  let indexSet0 :=
    Spline.setFromList (map (Spline.wrapIndex n) (Spline.biasIndices options)) in
  let straightSamples :=
    Z.to_nat (Z.max 1 (jsRound (Spline.straightSpacing options
                                / jsMax (Spline.anchorSpacingMeters options)
                                        (1 # 1000)))) in
  let indexSet1 :=
    Spline.straightLoop n n targetCount straightSamples 0 indexSet0 in
  let indexSet2 :=
    Spline.fillByCurvature targetCount
      (Spline.byScoreDescending (Spline.scored atan2 points (seq 0 n)))
      indexSet1 in
  Spline.trimToTarget atan2 points targetCount indexSet2.

End Notions.
Import Notions.

(* ================================================================== *)
(** * Properties *)

(** ** Comparisons and arrays *)

Lemma Qlt_bool_iff (a b : Q) : Qlt_bool a b = true <-> a < b.
Proof.
  unfold Qlt_bool. rewrite negb_true_iff.
  destruct (Qle_bool b a) eqn:E.
  - apply Qle_bool_iff in E. split; [discriminate | intros H; exfalso; lra].
  - split; [intros _ | reflexivity].
    apply Qnot_le_lt. intros H. apply Qle_bool_iff in H. congruence.
Qed.

Lemma Qlt_bool_false (a b : Q) : Qlt_bool a b = false <-> b <= a.
Proof.
  unfold Qlt_bool. rewrite negb_false_iff. apply Qle_bool_iff.
Qed.

Ltac case_lt a b :=
  let E := fresh "E" in
  destruct (Qlt_bool a b) eqn:E;
  [apply Qlt_bool_iff in E | apply Qlt_bool_false in E].

Lemma jsMax_spec (a b : Q) :
  (a < b /\ jsMax a b = b) \/ (b <= a /\ jsMax a b = a).
Proof. unfold jsMax. case_lt a b; auto. Qed.

Lemma jsMin_spec (a b : Q) :
  (b < a /\ jsMin a b = b) \/ (a <= b /\ jsMin a b = a).
Proof. unfold jsMin. case_lt b a; auto. Qed.

Lemma setAt_length {A : Type} (l : list A) (i : nat) (v : A) :
  length (setAt l i v) = length l.
Proof.
  revert i; induction l as [|a l IH]; intros [|i]; simpl; auto.
Qed.

Lemma nth_error_setAt_same {A : Type} (l : list A) (i : nat) (v : A) :
  (i < length l)%nat -> nth_error (setAt l i v) i = Some v.
Proof.
  revert i; induction l as [|a l IH]; intros [|i] H; simpl in *;
    try lia; auto.
  apply IH. lia.
Qed.

Lemma nth_error_setAt_other {A : Type} (l : list A) (i j : nat) (v : A) :
  i <> j -> nth_error (setAt l i v) j = nth_error l j.
Proof.
  revert i j; induction l as [|a l IH]; intros [|i] [|j] H; simpl;
    try congruence; auto.
Qed.

Lemma setAt_out_of_range {A : Type} (l : list A) (i : nat) (v : A) :
  (length l <= i)%nat -> setAt l i v = l.
Proof.
  revert i; induction l as [|a l IH]; intros [|i] H; simpl in *;
    try lia; auto.
  f_equal. apply IH. lia.
Qed.

Lemma last_cons_default {A : Type} (l : list A) (a d d' : A) :
  last (a :: l) d = last (a :: l) d'.
Proof.
  revert a; induction l as [|b l IH]; intros a; [reflexivity|].
  change (last (b :: l) d = last (b :: l) d'). apply IH.
Qed.

Lemma mapM_ok_length {A B : Type} (f : A -> Res B) (l : list A) (r : list B) :
  mapM f l = Ok r -> length r = length l.
Proof.
  revert r; induction l as [|a l IH]; simpl; intros r H.
  - inversion H. reflexivity.
  - destruct (f a); simpl in H; [|discriminate].
    destruct (mapM f l); simpl in H; [|discriminate].
    inversion H. simpl. f_equal. apply IH. reflexivity.
Qed.

Lemma mapM_total {A B : Type} (f : A -> Res B) (l : list A) :
  (forall a, In a l -> exists b, f a = Ok b) ->
  exists r, mapM f l = Ok r.
Proof.
  induction l as [|a l IH]; simpl; intros H.
  - eauto.
  - destruct (H a (or_introl eq_refl)) as [b Hb]. rewrite Hb. simpl.
    destruct IH as [r Hr]; [intros; apply H; auto|].
    rewrite Hr. simpl. eauto.
Qed.

Lemma mapM_map {A B C : Type} (f : A -> Res B) (g : B -> C) (h : A -> C)
  (l : list A) (r : list B) :
  (forall a b, In a l -> f a = Ok b -> g b = h a) ->
  mapM f l = Ok r -> map g r = map h l.
Proof.
  revert r; induction l as [|a l IH]; simpl; intros r Hf H.
  - inversion H. reflexivity.
  - destruct (f a) as [b|] eqn:Eb; simpl in H; [|discriminate].
    destruct (mapM f l) as [bs|] eqn:Ebs; simpl in H; [|discriminate].
    inversion H. simpl. f_equal; [apply Hf; auto | apply IH; auto].
Qed.

(** ** The resampler *)

Section ResamplerFacts.
Import Resampler.

Lemma normalizeToProgress_length (cd : list Q) :
  length (normalizeToProgress cd) = length cd.
Proof.
  unfold normalizeToProgress. destruct cd as [|d cd]; [reflexivity|].
  destruct (Qeq_bool _ _); [apply repeat_length | apply length_map].
Qed.

Lemma calculateCumulativeDistance_length (l : list Sample) :
  length (calculateCumulativeDistance l) = length l.
Proof.
  destruct l; simpl; [reflexivity | now rewrite length_map].
Qed.

(** The binary search always ends within its fuel. *)
Lemma binarySearchLoop_total (arr : list Q) (target : num) :
  forall fuel left right,
    (right - left <= fuel)%nat ->
    exists r, binarySearchLoop fuel arr target left right = Ok r.
Proof.
  induction fuel as [|fuel IH]; intros left right H;
    cbn [binarySearchLoop].
  - destruct (left <? right)%nat eqn:E; [|eauto].
    apply Nat.ltb_lt in E. lia.
  - destruct (left <? right)%nat eqn:E; [|eauto].
    apply Nat.ltb_lt in E.
    pose proof (Nat.div_mod_eq (left + right) 2) as Hd.
    pose proof (Nat.mod_upper_bound (left + right) 2) as Hm.
    destruct (nlt _ _); apply IH; lia.
Qed.

Lemma binarySearchGE_total (arr : list Q) (target : num) :
  exists r, binarySearchGE arr target = Ok r.
Proof. apply binarySearchLoop_total. lia. Qed.

Lemma resamplePoint_total (valid : list Sample) (progressArr : list Q)
  (gridSize i : nat) :
  (2 <= length valid)%nat -> length progressArr = length valid ->
  exists p, resamplePoint valid progressArr gridSize i = Ok p.
Proof.
  intros Hv Hp. unfold resamplePoint.
  destruct (binarySearchGE_total progressArr
              (ndiv (Some (ofNat i)) (Some (ofNat gridSize - 1)))) as [r Hr].
  rewrite Hr. simpl.
  assert (Hin : forall k, (k < length valid)%nat ->
                 exists s, elemAt valid k = Ok s).
  { intros k Hk. unfold elemAt.
    destruct (nth_error valid k) eqn:E; [eauto|].
    apply nth_error_None in E. lia. }
  destruct (r =? 0)%nat eqn:E0.
  - destruct (Hin 0%nat) as [s Hs]; [lia|]. rewrite Hs. simpl. eauto.
  - apply Nat.eqb_neq in E0.
    destruct (length progressArr <=? r)%nat eqn:E1.
    + destruct (Hin (length valid - 1)%nat) as [s Hs]; [lia|].
      rewrite Hs. simpl. eauto.
    + apply Nat.leb_gt in E1.
      destruct (Hin (r - 1)%nat) as [sl Hsl]; [lia|].
      destruct (Hin r) as [sr Hsr]; [lia|].
      rewrite Hsl, Hsr. simpl. eauto.
Qed.

Lemma resamplePoint_progress (valid : list Sample) (progressArr : list Q)
  (gridSize i : nat) (p : GridPoint) :
  resamplePoint valid progressArr gridSize i = Ok p ->
  progress p = ndiv (Some (ofNat i)) (Some (ofNat gridSize - 1)).
Proof.
  unfold resamplePoint. intros H.
  destruct (binarySearchGE _ _) as [r|]; simpl in H; [|discriminate].
  destruct (r =? 0)%nat.
  - destruct (elemAt valid 0); simpl in H; inversion H; reflexivity.
  - destruct (_ <=? r)%nat.
    + destruct (elemAt valid _); simpl in H; inversion H; reflexivity.
    + destruct (elemAt valid (r - 1)); simpl in H; [|discriminate].
      destruct (elemAt valid r); simpl in H; inversion H; reflexivity.
Qed.

End ResamplerFacts.

(** C7. For every cumulative-distance array whose first and last entries
    are equal, [normalizeToProgress] returns an array of the same length
    whose entries are all exactly 0 (finite numbers, none of them [NaN]). *)
Theorem normalizeToProgress_zero_span (cumulativeDistance : list Q) :
  hd 0 cumulativeDistance == last cumulativeDistance 0 ->
  Resampler.normalizeToProgress cumulativeDistance
  = repeat 0 (length cumulativeDistance).
Proof.
  intros H. unfold Resampler.normalizeToProgress.
  destruct cumulativeDistance as [|d cd]; [reflexivity|].
  rewrite (last_cons_default cd d d 0).
  simpl hd in H.
  assert (E : Qeq_bool (last (d :: cd) 0 - d) 0 = true).
  { apply Qeq_bool_iff. rewrite <- H. ring. }
  rewrite E. reflexivity.
Qed.

Lemma normalizeToProgress_zero_span_witness :
  hd 0 [3; 7; 3] == last [3; 7; 3] 0
  /\ Resampler.normalizeToProgress [3; 7; 3] = [0; 0; 0].
Proof.
  split; [reflexivity|].
  apply (normalizeToProgress_zero_span [3; 7; 3]). reflexivity.
Defined.

(** C6. [resampleOnGrid] throws exactly when the trace has fewer than two
    samples with non-null x and planar y; with two or more it returns a
    grid (of [gridSize] points). *)
Theorem resampleOnGrid_throws_iff (l : list Resampler.Sample) (gridSize : nat) :
  ((exists e, Resampler.resampleOnGrid l gridSize = Throw e)
   <-> (length (filter Resampler.validSample l) < 2)%nat)
  /\ ((2 <= length (filter Resampler.validSample l))%nat ->
      exists grid, Resampler.resampleOnGrid l gridSize = Ok grid
                   /\ length grid = gridSize).
Proof.
  assert (Hok : (2 <= length (filter Resampler.validSample l))%nat ->
                exists grid, Resampler.resampleOnGrid l gridSize = Ok grid
                             /\ length grid = gridSize).
  { intros H. unfold Resampler.resampleOnGrid.
    destruct (_ <? 2)%nat eqn:E; [apply Nat.ltb_lt in E; lia|].
    destruct (mapM_total
                (Resampler.resamplePoint (filter Resampler.validSample l)
                   (Resampler.normalizeToProgress
                      (Resampler.calculateCumulativeDistance
                         (filter Resampler.validSample l))) gridSize)
                (seq 0 gridSize)) as [g Hg].
    { intros i _. apply resamplePoint_total; [assumption|].
      rewrite normalizeToProgress_length.
      apply calculateCumulativeDistance_length. }
    exists g. split; [assumption|].
    apply mapM_ok_length in Hg. now rewrite length_seq in Hg. }
  split; [split|assumption].
  - intros [e He].
    destruct (Nat.lt_ge_cases (length (filter Resampler.validSample l)) 2)
      as [Hlt|Hge]; [assumption|].
    destruct (Hok Hge) as [g [Hg _]]. congruence.
  - intros H. unfold Resampler.resampleOnGrid.
    apply Nat.ltb_lt in H. rewrite H. eauto.
Qed.

(** ** Progress grids of one run *)

Section GridFacts.
Import Resampler.
Variable atan2 : Q -> Q -> Q.
Variable cos : Q -> Q.
Variable sin : Q -> Q.

Lemma resampleOnGrid_uniform (l : list Sample) (gridSize : nat) (g : Grid) :
  resampleOnGrid l gridSize = Ok g -> onUniformGrid gridSize g.
Proof.
  unfold resampleOnGrid. destruct (_ <? 2)%nat; [discriminate|].
  intros H. split.
  - apply mapM_ok_length in H. now rewrite length_seq in H.
  - unfold uniformProgress.
    eapply mapM_map; [|exact H].
    intros i p _ Hp. now apply resamplePoint_progress in Hp.
Qed.

Lemma rotateGrid_uniform (gridSize : nat) (g : Grid) (angle : Q) :
  onUniformGrid gridSize g -> onUniformGrid gridSize (rotateGrid cos sin g angle).
Proof.
  unfold rotateGrid. destruct (Qlt_bool _ _); [auto|].
  intros [Hl Hp]. split.
  - now rewrite length_map.
  - rewrite map_map. simpl. exact Hp.
Qed.

Lemma lookupKey_assignKey_same {V : Type} (k : string) (v : V)
  (m : list (string * V)) :
  lookupKey k (assignKey k v m) = Some v.
Proof.
  induction m as [|[k' v'] m IH]; simpl.
  - now rewrite String.eqb_refl.
  - destruct (String.eqb k k') eqn:E; simpl; rewrite E; auto.
Qed.

Lemma lookupKey_assignKey_other {V : Type} (k k0 : string) (v : V)
  (m : list (string * V)) :
  k0 <> k -> lookupKey k0 (assignKey k v m) = lookupKey k0 m.
Proof.
  intros Hne. induction m as [|[k' v'] m IH]; simpl.
  - destruct (String.eqb k0 k) eqn:E; [apply String.eqb_eq in E; congruence|].
    reflexivity.
  - destruct (String.eqb k k') eqn:E; simpl.
    + apply String.eqb_eq in E. subst k'.
      destruct (String.eqb k0 k) eqn:E'; [apply String.eqb_eq in E'; congruence|].
      reflexivity.
    + destruct (String.eqb k0 k'); auto.
Qed.

Lemma groupOf_pushGrid_same (grouped : list (string * list Grid)) (k : string)
  (g : Grid) :
  groupOf (pushGrid grouped k g) k = groupOf grouped k ++ [g].
Proof.
  unfold pushGrid. unfold groupOf at 1.
  now rewrite lookupKey_assignKey_same.
Qed.

Lemma groupOf_pushGrid_other (grouped : list (string * list Grid))
  (k k0 : string) (g : Grid) :
  k0 <> k -> groupOf (pushGrid grouped k g) k0 = groupOf grouped k0.
Proof.
  intros H. unfold pushGrid, groupOf.
  now rewrite lookupKey_assignKey_other.
Qed.

Lemma pushGrid_uniform (gridSize : nat) (grouped : list (string * list Grid))
  (k : string) (g : Grid) :
  groupedUniform gridSize grouped -> onUniformGrid gridSize g ->
  groupedUniform gridSize (pushGrid grouped k g).
Proof.
  intros Hg Hn key g' Hin.
  destruct (string_dec key k) as [->|Hne].
  - rewrite groupOf_pushGrid_same in Hin. apply in_app_or in Hin.
    destruct Hin as [Hin|[<-|[]]]; eauto.
  - rewrite groupOf_pushGrid_other in Hin by assumption. eauto.
Qed.

Lemma lapStep_uniform (opts : Options) (gridSize : nat) (st st' : LoopState)
  (c : ClassifiedLap) :
  groupedUniform gridSize (grouped st) ->
  lapStep atan2 cos sin opts gridSize st c = Ok st' ->
  groupedUniform gridSize (grouped st').
Proof.
  intros Hinv. unfold lapStep.
  destruct (resampleOnGrid _ _) as [g|] eqn:Eg; simpl; [|discriminate].
  apply resampleOnGrid_uniform in Eg.
  destruct (alignHeading opts).
  - destruct (referenceHeading st).
    + destruct (Qlt_bool _ _); intros H; inversion H; simpl;
        apply pushGrid_uniform; auto using rotateGrid_uniform.
    + intros H; inversion H; simpl. now apply pushGrid_uniform.
  - intros H; inversion H; simpl. now apply pushGrid_uniform.
Qed.

Lemma lapLoop_uniform (opts : Options) (gridSize : nat)
  (laps : list ClassifiedLap) :
  forall st st',
    groupedUniform gridSize (grouped st) ->
    lapLoop atan2 cos sin opts gridSize st laps = Ok st' ->
    groupedUniform gridSize (grouped st').
Proof.
  induction laps as [|c laps IH]; simpl; intros st st' Hinv H.
  - inversion H. now subst.
  - destruct (lapStep _ _ _ _ _ _ _) as [st1|] eqn:E1; simpl in H;
      [|discriminate].
    eapply IH; [|exact H]. eapply lapStep_uniform; eauto.
Qed.

Lemma progress_by_index (first : Grid) :
  map (fun i => match nth_error first i with
                | Some p => progress p
                | None => None
                end) (seq 0 (length first))
  = map progress first.
Proof.
  induction first as [|a l IH]; [reflexivity|].
  simpl. f_equal. rewrite <- seq_shift, map_map. exact IH.
Qed.

Lemma averageGrid_uniform (gridSize : nat) (gridList : list Grid)
  (label : string) (g : Grid) :
  (forall g', In g' gridList -> onUniformGrid gridSize g') ->
  averageGrid gridList label = Ok (Some g) -> onUniformGrid gridSize g.
Proof.
  intros Hall. unfold averageGrid.
  destruct gridList as [|first others]; [discriminate|].
  destruct (checkLengths _ _ _); simpl; [|discriminate].
  destruct (Hall first (or_introl eq_refl)) as [Hl Hp].
  destruct others as [|second others].
  - intros H; inversion H; subst. now split.
  - intros H; inversion H; subst. clear H. split.
    + now rewrite length_map, length_seq.
    + rewrite <- Hp, map_map. unfold averagePoint. simpl.
      apply progress_by_index.
Qed.

End GridFacts.

(** C5. Within one run of [resampleCalibrationLaps], every grid produced
    (the grids kept for each role and lap, and the averaged grid of each
    role) has the resolved [gridSize] points and, index for index, the
    progress values [i / (gridSize - 1)]. *)
Theorem grids_share_uniform_progress (atan2 : Q -> Q -> Q) (cos sin : Q -> Q)
  (laps : list Resampler.ClassifiedLap) (opts : Resampler.Options)
  (r : Resampler.Resampled) :
  Resampler.resampleCalibrationLaps atan2 cos sin laps opts = Ok r ->
  let gridSize := Resampler.metaSampleCount (Resampler.metadata r) in
  (forall role g, In g (Resampler.groupOf (Resampler.rawSamples r) role) ->
                  onUniformGrid gridSize g)
  /\ (forall g,
        Resampler.leftGrid (Resampler.grids r) = Some g
        \/ Resampler.rightGrid (Resampler.grids r) = Some g
        \/ Resampler.centerGrid (Resampler.grids r) = Some g ->
        onUniformGrid gridSize g).
Proof.
  unfold Resampler.resampleCalibrationLaps.
  set (gs := Resampler.resolveSampleCount opts (Resampler.averageLength laps)).
  destruct (Resampler.lapLoop _ _ _ _ _ _ _) as [st|] eqn:Eloop; simpl;
    [|discriminate].
  assert (Hinv : groupedUniform gs (Resampler.grouped st)).
  { eapply lapLoop_uniform; [|exact Eloop].
    intros key g Hin. unfold Resampler.groupOf, Resampler.initialState in Hin.
    simpl in Hin.
    repeat match type of Hin with
           | context [String.eqb ?a ?b] => destruct (String.eqb a b)
           end; destruct Hin. }
  destruct (Resampler.averageGrid _ "left") as [leftG|] eqn:El; simpl;
    [|discriminate].
  destruct (Resampler.averageGrid _ "right") as [rightG|] eqn:Er; simpl;
    [|discriminate].
  assert (Hend :
    forall centerG,
      Resampler.averageGrid
        (Resampler.groupOf (Resampler.grouped st) "center") "center"
      = Ok centerG ->
      forall g, leftG = Some g \/ rightG = Some g \/ centerG = Some g ->
                onUniformGrid gs g).
  { intros centerG Ec g [ -> | [ -> | -> ] ];
      eapply averageGrid_uniform; try eassumption; intros g' Hg';
        eapply Hinv; eassumption. }
  destruct leftG as [lg|]; [|destruct rightG as [rg|]; [|discriminate]];
    (destruct (Resampler.averageGrid _ "center") as [centerG|] eqn:Ec; simpl;
     [|discriminate]);
    intros H; inversion H; subst; simpl; split; auto; apply (Hend _ eq_refl).
Qed.

Lemma grids_share_uniform_progress_witness :
  exists r,
    Resampler.resampleCalibrationLaps Examples.atan2Q Examples.cosQ
      Examples.sinQ [Examples.lapA; Examples.lapB; Examples.lapC]
      Examples.threePoints = Ok r
    /\ (forall role g,
          In g (Resampler.groupOf (Resampler.rawSamples r) role) ->
          onUniformGrid 3 g)
    /\ (forall g,
          Resampler.leftGrid (Resampler.grids r) = Some g
          \/ Resampler.rightGrid (Resampler.grids r) = Some g
          \/ Resampler.centerGrid (Resampler.grids r) = Some g ->
          onUniformGrid 3 g).
Proof.
  eexists. split; [vm_compute; reflexivity|].
  apply (grids_share_uniform_progress Examples.atan2Q Examples.cosQ
           Examples.sinQ [Examples.lapA; Examples.lapB; Examples.lapC]
           Examples.threePoints).
  vm_compute. reflexivity.
Defined.

(** ** Heading alignment *)

Section AlignmentFacts.
Import Resampler.
Variable atan2 : Q -> Q -> Q.
Variable cos : Q -> Q.
Variable sin : Q -> Q.

Lemma PI_positive : 0 < PI.
Proof. reflexivity. Qed.

Lemma wrapUp_inside (fuel : nat) (r : Q) : - PI < r -> wrapUp fuel r = r.
Proof.
  intros H. destruct fuel; simpl;
    (destruct (Qle_bool r (- PI)) eqn:E;
     [apply Qle_bool_iff in E; exfalso; lra | reflexivity]).
Qed.

Lemma wrapDown_inside (fuel : nat) (r : Q) : r <= PI -> wrapDown fuel r = r.
Proof.
  intros H. destruct fuel; simpl;
    (case_lt PI r; [exfalso; lra | reflexivity]).
Qed.

Lemma ofNat_S (n : nat) : ofNat (S n) == ofNat n + 1.
Proof.
  unfold ofNat. rewrite Nat2Z.inj_succ. unfold Z.succ.
  rewrite inject_Z_plus. reflexivity.
Qed.

Lemma wrapUp_spec (fuel : nat) :
  forall r,
    - PI - r < ofNat fuel * (PI * 2) ->
    - PI < wrapUp fuel r /\ (wrapUp fuel r = r \/ wrapUp fuel r <= PI).
Proof.
  pose proof PI_positive as Hpi.
  induction fuel as [|fuel IH]; intros r H; cbn [wrapUp];
    destruct (Qle_bool r (- PI)) eqn:E.
  - apply Qle_bool_iff in E. change (ofNat 0) with 0 in H. lra.
  - split; [|now left]. apply Qnot_le_lt. intros C.
    apply Qle_bool_iff in C. congruence.
  - apply Qle_bool_iff in E. rewrite ofNat_S in H.
    destruct (IH (r + PI * 2)) as [H1 H2]; [lra|].
    split; [exact H1|]. right. destruct H2 as [->|H2]; lra.
  - split; [|now left]. apply Qnot_le_lt. intros C.
    apply Qle_bool_iff in C. congruence.
Qed.

Lemma wrapDown_spec (fuel : nat) :
  forall r,
    r - PI < ofNat fuel * (PI * 2) ->
    wrapDown fuel r <= PI /\ (wrapDown fuel r = r \/ - PI < wrapDown fuel r).
Proof.
  pose proof PI_positive as Hpi.
  induction fuel as [|fuel IH]; intros r H; cbn [wrapDown]; case_lt PI r.
  - change (ofNat 0) with 0 in H. lra.
  - split; [assumption | now left].
  - rewrite ofNat_S in H.
    destruct (IH (r - PI * 2)) as [H1 H2]; [lra|].
    split; [exact H1|]. right. destruct H2 as [->|H2]; lra.
  - split; [assumption | now left].
Qed.

Lemma wrapFuel_enough (a : Q) : Qabs a < ofNat (wrapFuel a).
Proof.
  unfold wrapFuel. rewrite ofNat_S. unfold ofNat.
  pose proof (Qle_ceiling (Qabs a)) as Hc.
  pose proof (Qabs_nonneg a) as Hn.
  assert (Hz : (0 <= Qceiling (Qabs a))%Z).
  { rewrite Zle_Qle. change (inject_Z 0) with 0. lra. }
  rewrite Z2Nat.id by exact Hz. lra.
Qed.

(** The fuel of [wrapAngle] is enough: both loops end by their own test,
    and the result lies in (-pi, pi]. *)
Lemma wrapAngle_range (a : Q) :
  exists r, wrapAngle (Some a) = Some r /\ - PI < r /\ r <= PI.
Proof.
  pose proof PI_positive as Hpi.
  assert (Hpi1 : 1 <= PI * 2) by (unfold PI; lra).
  pose proof (wrapFuel_enough a) as Hf.
  assert (Hf0 : 0 <= ofNat (wrapFuel a))
    by (pose proof (Qabs_nonneg a); lra).
  assert (Ha : - ofNat (wrapFuel a) < a /\ a < ofNat (wrapFuel a)).
  { revert Hf. apply Qabs_case; intros; lra. }
  unfold wrapAngle. eexists. split; [reflexivity|].
  destruct (@wrapUp_spec (wrapFuel a) a) as [U1 U2]; [nra|].
  destruct (@wrapDown_spec (wrapFuel a) (wrapUp (wrapFuel a) a)) as [D1 D2].
  - destruct U2 as [->|U2]; nra.
  - split; [|exact D1]. destruct D2 as [->|D2]; assumption.
Qed.

Lemma wrapAngle_zero (q : Q) : q == 0 -> wrapAngle (Some q) = Some q.
Proof.
  intros H. pose proof PI_positive. unfold wrapAngle.
  rewrite wrapUp_inside by lra. rewrite wrapDown_inside by lra. reflexivity.
Qed.

Lemma headingDeltas_shifted (l pre : list num) :
  Forall (fun q => q == 0)
    (finites
       (map (fun '(idx, angle) =>
               wrapAngle (nsub angle (nth idx (pre ++ l) None)))
            (combine (seq (length pre) (length l)) l))).
Proof.
  revert pre; induction l as [|a l IH]; intros pre;
    cbn [length seq combine map]; [constructor|].
  rewrite app_nth2, Nat.sub_diag by lia. cbn [nth].
  specialize (IH (pre ++ [a])).
  rewrite <- app_assoc, length_app, Nat.add_1_r in IH. cbn [app] in IH.
  destruct a as [q|].
  - change (nsub (Some q) (Some q)) with (Some (q - q)).
    rewrite wrapAngle_zero by ring.
    cbn [finites]. constructor; [ring | exact IH].
  - exact IH.
Qed.

Lemma headingDeltas_self (headings : list num) :
  Forall (fun q => q == 0) (finites (headingDeltas headings headings)).
Proof. apply (headingDeltas_shifted headings []). Qed.

Lemma insertSorted_Forall {A : Type} (before : A -> A -> bool)
  (P : A -> Prop) (x : A) (l : list A) :
  P x -> Forall P l -> Forall P (insertSorted before x l).
Proof.
  intros Hx Hl. induction Hl as [|y l Hy Hl IH]; simpl.
  - constructor; auto.
  - destruct (before y x); constructor; auto.
Qed.

Lemma sortBy_Forall {A : Type} (before : A -> A -> bool) (P : A -> Prop)
  (l : list A) :
  Forall P l -> Forall P (sortBy before l).
Proof.
  induction 1; simpl; [constructor | now apply insertSorted_Forall].
Qed.

Lemma nth_Forall {A : Type} (P : A -> Prop) (l : list A) (k : nat) (d : A) :
  Forall P l -> P d -> P (nth k l d).
Proof.
  intros Hl Hd. revert k. induction Hl; intros [|k]; simpl; auto.
Qed.

Lemma medianAngle_zero (values : list Q) :
  Forall (fun q => q == 0) values -> medianAngle values == 0.
Proof.
  intros H. unfold medianAngle. destruct values as [|v values]; [reflexivity|].
  set (sorted := sortAscending (v :: values)).
  assert (Hs : Forall (fun q => q == 0) sorted)
    by (apply sortBy_Forall; exact H).
  assert (Hn : forall k, nth k sorted 0 == 0)
    by (intros k; apply nth_Forall; [exact Hs | reflexivity]).
  destruct (_ =? 1)%nat; [apply Hn|].
  rewrite (Hn (length sorted / 2 - 1)%nat), (Hn (length sorted / 2)%nat).
  reflexivity.
Qed.

(** A lap whose headings equal the reference is stored as resampled. *)
Lemma lapStep_aligned (opts : Options) (gridSize : nat) (st : LoopState)
  (c : ClassifiedLap) (grid : Grid) (reference : list num) :
  alignHeading opts = true ->
  referenceHeading st = Some reference ->
  resampleOnGrid (samples (lap c)) gridSize = Ok grid ->
  computeHeadings atan2 grid = reference ->
  exists off,
    off == 0
    /\ lapStep atan2 cos sin opts gridSize st c
       = Ok {| grouped := pushGrid (grouped st) (lapType c) grid;
               referenceHeading := Some reference;
               headingOffsets :=
                 assignKey (offsetKey c) off (headingOffsets st) |}.
Proof.
  intros Ha Href Hg Hh. unfold lapStep. rewrite Hg. simpl.
  rewrite Ha, Href, Hh.
  set (nd := medianAngle (finites (headingDeltas reference reference))).
  assert (Hnd : nd == 0) by apply medianAngle_zero, headingDeltas_self.
  exists nd. split; [exact Hnd|].
  case_lt (1 # 10000) (Qabs nd); [|reflexivity].
  exfalso. rewrite Hnd in E. revert E. compute. discriminate.
Qed.

(** The reference headings are those of the first lap of the run: once
    set they are never replaced. *)
Lemma lapStep_first (opts : Options) (gridSize : nat) (st : LoopState)
  (c : ClassifiedLap) (grid : Grid) :
  alignHeading opts = true ->
  referenceHeading st = None ->
  resampleOnGrid (samples (lap c)) gridSize = Ok grid ->
  lapStep atan2 cos sin opts gridSize st c
  = Ok {| grouped := pushGrid (grouped st) (lapType c) grid;
          referenceHeading := Some (computeHeadings atan2 grid);
          headingOffsets := assignKey (offsetKey c) 0 (headingOffsets st) |}.
Proof.
  intros Ha Href Hg. unfold lapStep. rewrite Hg. cbn [bind].
  rewrite Ha, Href. reflexivity.
Qed.

Lemma lapStep_keeps_reference (opts : Options) (gridSize : nat)
  (st st' : LoopState) (c : ClassifiedLap) (reference : list num) :
  alignHeading opts = true ->
  referenceHeading st = Some reference ->
  lapStep atan2 cos sin opts gridSize st c = Ok st' ->
  referenceHeading st' = Some reference.
Proof.
  intros Ha Href. unfold lapStep.
  destruct (resampleOnGrid _ _) as [grid|]; cbn [bind]; [|discriminate].
  rewrite Ha, Href.
  destruct (Qlt_bool _ _); intros H; inversion H; reflexivity.
Qed.

Lemma lapLoop_keeps_reference (opts : Options) (gridSize : nat)
  (laps : list ClassifiedLap) (reference : list num) :
  alignHeading opts = true ->
  forall st st',
    referenceHeading st = Some reference ->
    lapLoop atan2 cos sin opts gridSize st laps = Ok st' ->
    referenceHeading st' = Some reference.
Proof.
  intros Ha. induction laps as [|c rest IH]; intros st st' Href H.
  - inversion H. subst. exact Href.
  - cbn [lapLoop] in H.
    destruct (lapStep atan2 cos sin opts gridSize st c) as [st1|] eqn:E;
      cbn [bind] in H; [|discriminate].
    apply (IH st1 st'); [|exact H].
    eapply lapStep_keeps_reference; eauto.
Qed.

Lemma lapLoop_app (opts : Options) (gridSize : nat)
  (front back : list ClassifiedLap) :
  forall st,
    lapLoop atan2 cos sin opts gridSize st (front ++ back)
    = (st' <- lapLoop atan2 cos sin opts gridSize st front ;;
       lapLoop atan2 cos sin opts gridSize st' back).
Proof.
  induction front as [|c rest IH]; intros st; [reflexivity|].
  cbn [app lapLoop].
  destruct (lapStep atan2 cos sin opts gridSize st c) as [st1|];
    cbn [bind]; [apply IH | reflexivity].
Qed.

End AlignmentFacts.

(** C8 (as the code has it). The reference headings of a run are those
    of its first lap, whatever its role.  When a later lap is resampled
    and its circular headings agree at every index with those of the first
    lap, the alignment step stores its grid as resampled, not rotated, and
    the heading offset recorded for it is below the rotation threshold of
    1e-4; for two laps of one role this is so when the first of them is
    the first lap of the run. *)
Theorem heading_alignment_noop (atan2 : Q -> Q -> Q) (cos sin : Q -> Q)
  (opts : Resampler.Options) (gridSize : nat)
  (c1 c2 : Resampler.ClassifiedLap) (others : list Resampler.ClassifiedLap)
  (g1 g2 : Resampler.Grid) (st : Resampler.LoopState) :
  Resampler.alignHeading opts = true ->
  Resampler.resampleOnGrid (Resampler.samples (Resampler.lap c1)) gridSize
  = Ok g1 ->
  Resampler.resampleOnGrid (Resampler.samples (Resampler.lap c2)) gridSize
  = Ok g2 ->
  Resampler.computeHeadings atan2 g1 = Resampler.computeHeadings atan2 g2 ->
  Resampler.lapLoop atan2 cos sin opts gridSize Resampler.initialState
    (c1 :: others) = Ok st ->
  exists st',
    Resampler.lapLoop atan2 cos sin opts gridSize Resampler.initialState
      (c1 :: others ++ [c2]) = Ok st'
    /\ Resampler.grouped st'
       = Resampler.pushGrid (Resampler.grouped st) (Resampler.lapType c2) g2
    /\ Resampler.groupOf (Resampler.grouped st') (Resampler.lapType c2)
       = Resampler.groupOf (Resampler.grouped st) (Resampler.lapType c2)
         ++ [g2]
    /\ (exists off,
          Resampler.lookupKey (Resampler.offsetKey c2)
            (Resampler.headingOffsets st') = Some off
          /\ Qabs off < 1 # 10000)
    /\ (others = [] ->
        Resampler.lapType c1 = Resampler.lapType c2 ->
        Resampler.groupOf (Resampler.grouped st') (Resampler.lapType c2)
        = [g1; g2]).
Proof.
  intros Ha H1 H2 Hh Hrun.
  pose proof (@lapStep_first atan2 cos sin opts gridSize
                Resampler.initialState c1 g1 Ha eq_refl H1) as E1.
  cbn [Resampler.lapLoop] in Hrun. rewrite E1 in Hrun. cbn [bind] in Hrun.
  assert (Href : Resampler.referenceHeading st
                 = Some (Resampler.computeHeadings atan2 g1)).
  { eapply lapLoop_keeps_reference; [exact Ha| |exact Hrun]. reflexivity. }
  destruct (lapStep_aligned atan2 cos sin opts gridSize st c2
              (grid := g2) (reference := Resampler.computeHeadings atan2 g1)
              Ha Href H2 (eq_sym Hh)) as [off [Hoff E2]].
  eexists. split.
  { change (c1 :: others ++ [c2]) with ((c1 :: others) ++ [c2]).
    rewrite lapLoop_app. cbn [Resampler.lapLoop]. rewrite E1. cbn [bind].
    rewrite Hrun. cbn [bind]. rewrite E2. reflexivity. }
  cbn [Resampler.grouped Resampler.headingOffsets].
  split; [reflexivity|].
  split; [apply groupOf_pushGrid_same|].
  split.
  - exists off. split; [apply lookupKey_assignKey_same|].
    rewrite Hoff. reflexivity.
  - intros -> Ht. cbn [Resampler.lapLoop] in Hrun. injection Hrun as <-.
    cbn [Resampler.grouped].
    rewrite <- Ht, !groupOf_pushGrid_same.
    unfold Resampler.groupOf, Resampler.initialState.
    cbn [Resampler.grouped Resampler.lookupKey].
    repeat match goal with
           | |- context [String.eqb ?a ?b] => destruct (String.eqb a b)
           end; reflexivity.
Qed.

(** C8 on a run of three laps: lap A sets the reference, the right-edge
    lap D is a quarter turn away from it, and lap B, whose headings are
    those of lap A, is stored as resampled. *)
Lemma heading_alignment_noop_witness :
  exists g1 g2 st st',
    Resampler.resampleOnGrid
      (Resampler.samples (Resampler.lap Examples.lapA)) 3 = Ok g1
    /\ Resampler.resampleOnGrid
         (Resampler.samples (Resampler.lap Examples.lapB)) 3 = Ok g2
    /\ Resampler.lapLoop Examples.atan2Octant Examples.cosQuarter
         Examples.sinQuarter Examples.threePoints 3 Resampler.initialState
         [Examples.lapA; Examples.lapD] = Ok st
    /\ Resampler.lapLoop Examples.atan2Octant Examples.cosQuarter
         Examples.sinQuarter Examples.threePoints 3 Resampler.initialState
         [Examples.lapA; Examples.lapD; Examples.lapB] = Ok st'
    /\ Resampler.groupOf (Resampler.grouped st') "left"
       = Resampler.groupOf (Resampler.grouped st) "left" ++ [g2]
    /\ exists off,
         Resampler.lookupKey "b.csv" (Resampler.headingOffsets st') = Some off
         /\ Qabs off < 1 # 10000.
Proof.
  eexists. eexists. eexists.
  assert (H1 : Resampler.resampleOnGrid
                 (Resampler.samples (Resampler.lap Examples.lapA)) 3
               = Ok _) by (vm_compute; reflexivity).
  assert (H2 : Resampler.resampleOnGrid
                 (Resampler.samples (Resampler.lap Examples.lapB)) 3
               = Ok _) by (vm_compute; reflexivity).
  assert (Hst : Resampler.lapLoop Examples.atan2Octant Examples.cosQuarter
                  Examples.sinQuarter Examples.threePoints 3
                  Resampler.initialState [Examples.lapA; Examples.lapD]
                = Ok _) by (vm_compute; reflexivity).
  destruct (@heading_alignment_noop Examples.atan2Octant Examples.cosQuarter
              Examples.sinQuarter Examples.threePoints 3%nat
              Examples.lapA Examples.lapB [Examples.lapD] _ _ _
              eq_refl H1 H2 ltac:(vm_compute; reflexivity) Hst)
    as [st' [Hrun [_ [Hg [Hoff _]]]]].
  exists st'. split; [exact H1|]. split; [exact H2|]. split; [exact Hst|].
  split; [exact Hrun|]. split; [exact Hg | exact Hoff].
Defined.

(** C8 as worded fails when another lap set the reference: after the
    right-edge lap D, the left-edge laps A and B have the same headings
    as each other, a quarter turn away from those of lap D, so both get
    the heading offset [-PI / 2] and the grid stored for lap B is the
    rotated one. *)
Lemma heading_alignment_counterexample :
  exists gA gB st stored off,
    Resampler.resampleOnGrid
      (Resampler.samples (Resampler.lap Examples.lapA)) 3 = Ok gA
    /\ Resampler.resampleOnGrid
         (Resampler.samples (Resampler.lap Examples.lapB)) 3 = Ok gB
    /\ Resampler.lapType Examples.lapA = Resampler.lapType Examples.lapB
    /\ Resampler.computeHeadings Examples.atan2Octant gA
       = Resampler.computeHeadings Examples.atan2Octant gB
    /\ Resampler.lapLoop Examples.atan2Octant Examples.cosQuarter
         Examples.sinQuarter Examples.threePoints 3 Resampler.initialState
         [Examples.lapD; Examples.lapA; Examples.lapB] = Ok st
    /\ nth_error (Resampler.groupOf (Resampler.grouped st) "left") 1
       = Some stored
    /\ stored <> gB
    /\ Resampler.lookupKey "b.csv" (Resampler.headingOffsets st) = Some off
    /\ off == - (PI / 2)
    /\ ~ Qabs off < 1 # 10000.
Proof.
  do 5 eexists.
  split; [vm_compute; reflexivity|].
  split; [vm_compute; reflexivity|].
  split; [reflexivity|].
  split; [vm_compute; reflexivity|].
  split; [vm_compute; reflexivity|].
  split; [vm_compute; reflexivity|].
  split; [intros H; vm_compute in H; discriminate H|].
  split; [vm_compute; reflexivity|].
  split; vm_compute; [reflexivity | discriminate].
Qed.

(** ** The constant-width envelope *)

Section EnvelopeFacts.
Import Width.
Variables hwl hwr : list Q.
Variable angles : option (list Q).
Variables targetWidth minWidth : Q.

Local Abbreviation step := (envelopeStep hwl hwr angles targetWidth minWidth).
Local Abbreviation after := (envelopeAfter hwl hwr angles targetWidth minWidth).

Lemma after_S (k : nat) : after (S k) = step (after k) k.
Proof.
  unfold envelopeAfter. rewrite seq_S, fold_left_app. reflexivity.
Qed.

Lemma step_lengths (st : EnvState) (i : nat) :
  length (resultLeft (step st i)) = length (resultLeft st)
  /\ length (resultRight (step st i)) = length (resultRight st).
Proof.
  unfold envelopeStep.
  destruct (envelopeWidths _ _ _ _ _ _) as [a b].
  destruct (classify _ _ _); simpl; now rewrite !setAt_length.
Qed.

Lemma after_lengths (k : nat) :
  length (resultLeft (after k)) = length hwl
  /\ length (resultRight (after k)) = length hwl.
Proof.
  induction k as [|k [IHl IHr]].
  - unfold envelopeAfter. simpl. now rewrite repeat_length.
  - rewrite after_S. destruct (step_lengths (after k) k). lia.
Qed.

Lemma step_lastInsideLeft (st : EnvState) (i : nat) :
  lastInsideLeft (step st i) = classify angles i (lastInsideLeft st).
Proof.
  unfold envelopeStep.
  destruct (envelopeWidths _ _ _ _ _ _) as [a b].
  destruct (classify angles i (lastInsideLeft st)) eqn:E; simpl; auto.
Qed.

Lemma after_lastInsideLeft (k : nat) :
  lastInsideLeft (after (S k)) = insideLeftAt angles k.
Proof.
  induction k as [|k IH]; rewrite after_S, step_lastInsideLeft.
  - reflexivity.
  - rewrite IH. reflexivity.
Qed.

Lemma before_lastInsideLeft (k : nat) :
  classify angles k (lastInsideLeft (after k)) = insideLeftAt angles k.
Proof.
  rewrite <- after_lastInsideLeft, after_S, step_lastInsideLeft. reflexivity.
Qed.

Lemma step_other (st : EnvState) (i j : nat) :
  i <> j ->
  nth_error (resultLeft (step st i)) j = nth_error (resultLeft st) j
  /\ nth_error (resultRight (step st i)) j = nth_error (resultRight st) j.
Proof.
  intros H. unfold envelopeStep.
  destruct (envelopeWidths _ _ _ _ _ _) as [a b].
  destruct (classify _ _ _); simpl;
    now rewrite !nth_error_setAt_other by assumption.
Qed.

Lemma after_stable (i k : nat) :
  (i < k)%nat ->
  nth_error (resultLeft (after k)) i = nth_error (resultLeft (after (S i))) i
  /\ nth_error (resultRight (after k)) i
     = nth_error (resultRight (after (S i))) i.
Proof.
  induction k as [|k IH]; intros H; [lia|].
  destruct (Nat.eq_dec i k) as [->|Hne]; [auto|].
  rewrite (after_S k).
  destruct (step_other (after k) (i := k) (j := i)) as [El Er]; [lia|].
  rewrite El, Er. apply IH. lia.
Qed.

Lemma after_written (i : nat) :
  (i < length hwl)%nat ->
  let insideLeft := insideLeftAt angles i in
  let w := envelopeWidths hwl hwr targetWidth minWidth insideLeft i in
  nth_error (if insideLeft then resultLeft (after (S i))
             else resultRight (after (S i))) i = Some (fst w)
  /\ nth_error (if insideLeft then resultRight (after (S i))
                else resultLeft (after (S i))) i = Some (snd w).
Proof.
  intros Hi. cbv zeta. rewrite after_S.
  destruct (after_lengths i) as [Ll Lr].
  unfold envelopeStep. rewrite before_lastInsideLeft.
  destruct (envelopeWidths _ _ _ _ _ _) as [a b].
  destruct (insideLeftAt angles i); simpl;
    split; apply nth_error_setAt_same; lia.
Qed.

End EnvelopeFacts.

(** Case analysis on every comparison of the goal, innermost first. *)
Ltac no_branch t :=
  lazymatch t with
  | context [if _ then _ else _] => fail
  | _ => idtac
  end.

Ltac split_comparisons :=
  repeat (cbn [nlt nle nsub nmul nadd lift2 Width.nmax];
          match goal with
          | |- context [Qlt_bool ?a ?b] => no_branch a; no_branch b; case_lt a b
          end).

Lemma envelopePair_value (raw targetWidth : Q) :
  let insideHalf := jsMax 0 raw in
  let desiredTotal :=
    if Qeq_bool targetWidth 0 then jsMax 6 (insideHalf * 2)
    else specDesiredTotal targetWidth in
  exists vo,
    Width.envelopePair (Some raw) targetWidth (specMinWidth targetWidth)
    = (Some insideHalf, Some vo)
    /\ vo == specOutsideHalf insideHalf desiredTotal.
Proof.
  cbv zeta. unfold Width.envelopePair. cbn [Width.nmax lift2].
  remember (jsMax 0 raw) as ih eqn:Eih. clear Eih raw.
  destruct (Qeq_bool targetWidth 0) eqn:E0.
  - apply Qeq_bool_iff in E0.
    assert (E1 : Qeq_bool (targetWidth * (19 # 20)) 0 = true)
      by (apply Qeq_bool_iff; rewrite E0; reflexivity).
    rewrite E1. unfold specMinWidth.
    case_lt 0 targetWidth; [exfalso; lra|].
    cbn [nmul lift2].
    remember (jsMax 6 (ih * 2)) as dt eqn:Edt. clear Edt.
    unfold specOutsideHalf, max3, jsMax.
    split_comparisons; (eexists; split; [reflexivity | lra]).
  - assert (E1 : Qeq_bool (targetWidth * (19 # 20)) 0 = false).
    { destruct (Qeq_bool (targetWidth * (19 # 20)) 0) eqn:E1; [|reflexivity].
      apply Qeq_bool_iff in E1.
      assert (H : targetWidth == 0) by lra.
      apply Qeq_bool_iff in H. congruence. }
    rewrite E1. unfold specDesiredTotal.
    remember (jsMax (specMinWidth targetWidth) (targetWidth * (19 # 20)))
      as dt eqn:Edt. clear Edt.
    unfold specOutsideHalf, max3, jsMax.
    split_comparisons; (eexists; split; [reflexivity | lra]).
Qed.

(** C3 (as the code has it). At every sample [i], the inside half-width
    is the raw half-width of the inside edge floored at 0, and the outside
    half-width is [max(insideHalf * 0.4, desiredTotal - insideHalf, 0.75)],
    where [desiredTotal = max(minWidth, targetWidth * 0.95)] with
    [minWidth = targetWidth] when [targetWidth > 0] and 6 otherwise, except
    that for [targetWidth = 0] it is [max(6, 2 * insideHalf)]. *)
Theorem envelope_inside_outside (hwl hwr : list Q) (angles : option (list Q))
  (targetWidth : Q) (i : nat) (l r : Q) :
  nth_error hwl i = Some l ->
  nth_error hwr i = Some r ->
  let env := Width.buildConstantWidthEnvelope hwl hwr angles targetWidth in
  let insideLeft := insideLeftAt angles i in
  let insideHalf := jsMax 0 (if insideLeft then l else r) in
  let desiredTotal :=
    if Qeq_bool targetWidth 0 then jsMax 6 (insideHalf * 2)
    else specDesiredTotal targetWidth in
  exists vi vo,
    nth_error (if insideLeft then Width.envLeft env else Width.envRight env) i
    = Some (Some vi)
    /\ nth_error (if insideLeft then Width.envRight env else Width.envLeft env) i
       = Some (Some vo)
    /\ vi == insideHalf
    /\ vo == specOutsideHalf insideHalf desiredTotal.
Proof.
  intros Hl Hr. cbv zeta.
  assert (Hi : (i < length hwl)%nat)
    by (apply nth_error_Some; congruence).
  unfold Width.buildConstantWidthEnvelope.
  cbn [Width.envLeft Width.envRight].
  change (if Qlt_bool 0 targetWidth then targetWidth else 6)
    with (specMinWidth targetWidth).
  fold (envelopeAfter hwl hwr angles targetWidth (specMinWidth targetWidth)
          (length hwl)).
  destruct (after_stable hwl hwr angles targetWidth (specMinWidth targetWidth)
              Hi) as [Sl Sr].
  destruct (after_written hwl hwr angles targetWidth
              (specMinWidth targetWidth) Hi) as [Wi Wo].
  set (raw := if insideLeftAt angles i then l else r).
  destruct (envelopePair_value raw targetWidth) as [vo [Ev Hvo]].
  assert (Ew : Width.envelopeWidths hwl hwr targetWidth
                 (specMinWidth targetWidth) (insideLeftAt angles i) i
               = (Some (jsMax 0 raw), Some vo)).
  { unfold Width.envelopeWidths, raw in *.
    destruct (insideLeftAt angles i); [rewrite Hl | rewrite Hr]; exact Ev. }
  rewrite Ew in Wi, Wo. cbn [fst snd] in Wi, Wo.
  exists (jsMax 0 raw), vo.
  destruct (insideLeftAt angles i);
    rewrite Sl, Sr; repeat split; auto; reflexivity.
Qed.

Lemma envelope_inside_outside_witness :
  let env := Width.buildConstantWidthEnvelope [4; 5] [3; 6] (Some [1; -1]) 8 in
  nth_error [4; 5] 1 = Some 5
  /\ nth_error [3; 6] 1 = Some 6
  /\ insideLeftAt (Some [1; -1]) 1 = false
  /\ exists vi vo,
       nth_error (Width.envRight env) 1 = Some (Some vi)
       /\ nth_error (Width.envLeft env) 1 = Some (Some vo)
       /\ vi == 6 /\ vo == 12 # 5.
Proof.
  cbv zeta. split; [reflexivity|]. split; [reflexivity|].
  split; [reflexivity|].
  destruct (@envelope_inside_outside [4; 5] [3; 6] (Some [1; -1]) 8 1%nat 5 6
              eq_refl eq_refl) as [vi [vo [Hi [Ho [Ei Eo]]]]].
  exists vi, vo. split; [exact Hi|]. split; [exact Ho|].
  split; [rewrite Ei | rewrite Eo]; reflexivity.
Defined.

(** C3 as worded fails twice: for [targetWidth = 0] the desired total is
    [max(6, 2 * insideHalf)], not 6, and a negative raw half-width of the
    inside edge is raised to 0. *)
Lemma envelope_counterexample :
  (let env := Width.buildConstantWidthEnvelope [10] [3] (Some [0]) 0 in
   insideLeftAt (Some [0]) 0 = true
   /\ ~ (exists vo,
           nth_error (Width.envRight env) 0 = Some (Some vo)
           /\ vo == specOutsideHalf 10 (specDesiredTotal 0)))
  /\ (let env := Width.buildConstantWidthEnvelope [-2] [3] (Some [0]) 8 in
      insideLeftAt (Some [0]) 0 = true
      /\ ~ (exists vi,
              nth_error (Width.envLeft env) 0 = Some (Some vi)
              /\ vi == -2)).
Proof.
  cbv zeta. split; (split; [reflexivity|]); intros [v [H1 H2]];
    vm_compute in H1; inversion H1; subst v; revert H2;
    vm_compute; discriminate.
Qed.

(** ** The slope clamp *)

Section SlopeFacts.
Import Width.
Variable L : Q.
Hypothesis L_nonneg : 0 <= L.

Lemma sweep_length (p : Q) (xs : list Q) : length (sweep L p xs) = length xs.
Proof. revert p; induction xs; intros p; simpl; auto. Qed.

Lemma setAt_middle {A : Type} (done todo : list A) (x v : A) :
  setAt (done ++ x :: todo) (length done) v = done ++ v :: todo.
Proof. induction done; simpl; [reflexivity | now f_equal]. Qed.

Lemma nth_middle_last (done todo : list Q) :
  done <> [] -> nth (length done - 1) (done ++ todo) 0 = last done 0.
Proof.
  intros H. rewrite app_nth1 by (destruct done; simpl in *; [congruence | lia]).
  clear todo. induction done as [|a [|b l] IH]; [congruence | reflexivity |].
  change (nth (length (b :: l)) (a :: b :: l) 0 = last (b :: l) 0).
  rewrite <- IH by discriminate. simpl. now rewrite Nat.sub_0_r.
Qed.

Lemma nth_last (l : list Q) : nth (length l - 1) l 0 = last l 0.
Proof.
  destruct l as [|a l]; [reflexivity|].
  rewrite <- (app_nil_r (a :: l)) at 2.
  apply nth_middle_last. discriminate.
Qed.

Lemma prev_index (i n : nat) :
  (i < n)%nat ->
  ((i + n - 1) mod n = if (i =? 0)%nat then n - 1 else i - 1)%nat.
Proof.
  intros H. destruct i as [|i]; cbn [Nat.eqb].
  - rewrite Nat.add_0_l. apply Nat.mod_small. lia.
  - replace (S i + n - 1)%nat with (i + 1 * n)%nat by lia.
    rewrite Nat.Div0.mod_add. rewrite Nat.sub_succ, Nat.sub_0_r.
    apply Nat.mod_small. lia.
Qed.

(** The loop body at the first index after [done]. *)
Lemma clampStep_middle (n : nat) (st : ClampState) (done todo : list Q)
  (x prev : Q) :
  result st = done ++ x :: todo ->
  length (result st) = n ->
  nth ((length done + n - 1) mod n) (result st) 0 = prev ->
  result (clampStep L n st (length done)) = done ++ clampTo L prev x :: todo.
Proof.
  intros Hr Hn Hp. unfold clampStep, clampTo.
  cbn [azero aadd asub aopp altb ArithQ]. rewrite Hp.
  assert (Hx : nth (length done) (result st) 0 = x)
    by (rewrite Hr, app_nth2, Nat.sub_diag by lia; reflexivity).
  rewrite Hx.
  case_lt L (x - prev); [|case_lt (x - prev) (- L)]; cbn [result];
    rewrite ?Hr; auto using setAt_middle.
Qed.

Lemma fold_clampStep (n : nat) (todo : list Q) :
  forall (done : list Q) (st : ClampState),
    done <> [] ->
    result st = done ++ todo ->
    length (result st) = n ->
    result (fold_left (clampStep L n) (seq (length done) (length todo)) st)
    = done ++ sweep L (last done 0) todo.
Proof.
  induction todo as [|x t IH]; intros done st Hd Hr Hn.
  - simpl. now rewrite Hr.
  - cbn [length seq fold_left sweep].
    assert (Hlen : (length done < n)%nat)
      by (rewrite <- Hn, Hr, length_app; simpl; lia).
    assert (Hp : nth ((length done + n - 1) mod n) (result st) 0
                 = last done 0).
    { rewrite prev_index by assumption.
      destruct (length done =? 0)%nat eqn:E.
      - apply Nat.eqb_eq in E. destruct done; [congruence | discriminate].
      - rewrite Hr. now apply nth_middle_last. }
    pose proof (@clampStep_middle n st done t x (last done 0) Hr Hn Hp) as Hs.
    set (x' := clampTo L (last done 0) x) in *.
    specialize (IH (done ++ [x']) (clampStep L n st (length done))).
    rewrite length_app, Nat.add_1_r, last_last, <- !app_assoc in IH.
    apply IH.
    + destruct done; discriminate.
    + exact Hs.
    + rewrite Hs, length_app. rewrite <- Hn, Hr, length_app. reflexivity.
Qed.

(** A pass is the sweep that starts from the last entry. *)
Lemma clampPass_sweep (st : ClampState) :
  result (clampPass L (length (result st)) st)
  = sweep L (last (result st) 0) (result st).
Proof.
  unfold clampPass.
  set (st0 := {| result := result st; flags := flags st; changed := false |}).
  destruct (result st) as [|x t] eqn:Hr; [reflexivity|].
  cbn [length seq fold_left sweep].
  assert (Hs : result (clampStep L (S (length t)) st0 0)
               = [] ++ clampTo L (last (x :: t) 0) x :: t).
  { apply (@clampStep_middle (S (length t)) st0 [] t x).
    - reflexivity.
    - reflexivity.
    - cbn [length app]. rewrite prev_index by lia. cbn [Nat.eqb].
      apply (nth_last (x :: t)). }
  set (x' := clampTo L (last (x :: t) 0) x) in *.
  apply (@fold_clampStep (S (length t)) t [x']
           (clampStep L (S (length t)) st0 0)).
  - discriminate.
  - exact Hs.
  - rewrite Hs. reflexivity.
Qed.

Lemma clampStep_sticky (n : nat) (st : ClampState) (i : nat) :
  changed st = true -> changed (clampStep L n st i) = true.
Proof.
  intros H. unfold clampStep. cbn [azero aadd asub aopp altb ArithQ].
  destruct (Qlt_bool _ _); [reflexivity|].
  destruct (Qlt_bool _ _); [reflexivity | exact H].
Qed.

Lemma fold_sticky (n : nat) (l : list nat) :
  forall st, changed st = true ->
             changed (fold_left (clampStep L n) l st) = true.
Proof.
  induction l as [|i l IH]; intros st H; simpl; auto using clampStep_sticky.
Qed.

Lemma fold_unchanged (n : nat) (l : list nat) :
  forall st, changed (fold_left (clampStep L n) l st) = false ->
             fold_left (clampStep L n) l st = st.
Proof.
  induction l as [|i l IH]; intros st H; simpl in *; [reflexivity|].
  assert (E : clampStep L n st i = st).
  { destruct (changed (clampStep L n st i)) eqn:C.
    - rewrite fold_sticky in H; [discriminate | exact C].
    - clear H. unfold clampStep in *.
      cbn [azero aadd asub aopp altb ArithQ] in *.
      destruct (Qlt_bool L _); [discriminate|].
      destruct (Qlt_bool _ (- L)); [discriminate | reflexivity]. }
  rewrite E in *. auto.
Qed.

(** A pass that reports no change has left the array as it was. *)
Lemma clampPass_unchanged (n : nat) (st : ClampState) :
  changed (clampPass L n st) = false ->
  result (clampPass L n st) = result st.
Proof.
  unfold clampPass. intros H. apply fold_unchanged in H. now rewrite H.
Qed.

(** *** The sweep *)

Lemma clampTo_near (p x : Q) :
  - L <= clampTo L p x - p /\ clampTo L p x - p <= L.
Proof.
  unfold clampTo. case_lt L (x - p); [|case_lt (x - p) (- L)]; lra.
Qed.

Lemma clampTo_fixed (p x : Q) :
  - L <= x - p /\ x - p <= L -> clampTo L p x = x.
Proof.
  intros [H1 H2]. unfold clampTo.
  case_lt L (x - p); [exfalso; lra|].
  case_lt (x - p) (- L); [exfalso; lra | reflexivity].
Qed.

Lemma sweep_chained (p : Q) (xs : list Q) : chained L p (sweep L p xs).
Proof.
  revert p; induction xs as [|x t IH]; intros p; simpl; auto using clampTo_near.
Qed.

Lemma sweep_fixed (p : Q) (xs : list Q) : chained L p xs -> sweep L p xs = xs.
Proof.
  revert p; induction xs as [|x t IH]; intros p; simpl; [reflexivity|].
  intros [Hx Ht]. rewrite (@clampTo_fixed p x Hx). f_equal. auto.
Qed.

Lemma chained_proper (p p' : Q) (xs : list Q) :
  p == p' -> chained L p xs -> chained L p' xs.
Proof.
  intros E. destruct xs as [|x t]; simpl; [auto|].
  intros [[H1 H2] Ht]. repeat split; auto; lra.
Qed.

Lemma clampTo_between (p u a x : Q) :
  between p u a -> - L <= x - u /\ x - u <= L ->
  between (clampTo L p x) x a.
Proof.
  unfold between, clampTo. intros Hb Hx.
  case_lt L (x - p); [|case_lt (x - p) (- L)]; lra.
Qed.

Lemma last_shift (x d : Q) (t : list Q) : last (x :: t) d = last t x.
Proof.
  revert x d; induction t as [|y t IH]; intros x d; [reflexivity|].
  change (last (y :: t) d = last (y :: t) x). rewrite !IH. reflexivity.
Qed.

(** Sweeping a chain whose predecessor was pulled towards its last entry
    leaves the last entry where it was. *)
Lemma sweep_last (xs : list Q) :
  forall u p a,
    chained L u xs -> between p u a -> last xs u == a ->
    last (sweep L p xs) p == a.
Proof.
  induction xs as [|x t IH]; intros u p a Hc Hb Hl.
  - simpl in *. unfold between in Hb. lra.
  - destruct Hc as [Hx Ht]. cbn [sweep].
    rewrite last_shift in *.
    apply (IH x); auto. eapply clampTo_between; eauto.
Qed.

(** After a second pass the whole circle is within the limit. *)
Lemma second_sweep (p : Q) (r : list Q) :
  chained L p r ->
  chained L (last (sweep L (last r 0) r) 0) (sweep L (last r 0) r).
Proof.
  intros Hc. destruct r as [|x t]; [exact I|].
  set (a := last (x :: t) 0).
  apply chained_proper with (p := a); [|apply sweep_chained].
  symmetry. cbn [sweep]. rewrite last_shift.
  destruct Hc as [_ Ht].
  apply (@sweep_last t x); auto.
  - unfold between. pose proof (clampTo_near a x) as Hn.
    unfold clampTo in *.
    case_lt L (x - a); [|case_lt (x - a) (- L)]; lra.
  - unfold a. rewrite last_shift. reflexivity.
Qed.

Lemma chained_nth (xs : list Q) :
  forall p i, chained L p xs -> (i < length xs)%nat ->
    let q := if (i =? 0)%nat then p else nth (i - 1) xs 0 in
    - L <= nth i xs 0 - q /\ nth i xs 0 - q <= L.
Proof.
  induction xs as [|x t IH]; intros p i Hc Hi; [simpl in Hi; lia|].
  destruct Hc as [Hx Ht]. destruct i as [|i]; [exact Hx|].
  cbn [Nat.eqb nth]. rewrite Nat.sub_succ, Nat.sub_0_r.
  specialize (IH x i Ht). cbv zeta in IH.
  destruct i as [|i]; [apply IH; simpl in *; lia|].
  cbn [Nat.eqb] in IH. rewrite Nat.sub_succ, Nat.sub_0_r in IH.
  apply IH. simpl in *. lia.
Qed.

Lemma chained_circular (r : list Q) :
  chained L (last r 0) r -> circularDeltasWithin L r.
Proof.
  intros Hc i Hi. rewrite prev_index by assumption.
  apply Qabs_Qle_condition.
  pose proof (@chained_nth r (last r 0) i Hc Hi) as H. cbv zeta in H.
  destruct (i =? 0)%nat; [rewrite nth_last|]; exact H.
Qed.

(** *** The loop *)

Lemma clampPass_length (st : ClampState) :
  length (result (clampPass L (length (result st)) st)) = length (result st).
Proof. rewrite clampPass_sweep. apply sweep_length. Qed.

Lemma clampLoop_settled (remaining : nat) :
  forall st,
    chained L (last (result st) 0) (result st) ->
    result (clampLoop remaining L (length (result st)) st) = result st.
Proof.
  induction remaining as [|k IH]; intros st Hc; [reflexivity|].
  cbn [clampLoop]. destruct (changed st); [|reflexivity].
  assert (E : result (clampPass L (length (result st)) st) = result st)
    by (rewrite clampPass_sweep; now apply sweep_fixed).
  rewrite <- E at 1. rewrite IH; rewrite E; auto.
Qed.

Lemma applySlopeClamp_circular (vals : list Q) :
  circularDeltasWithin L (values (applySlopeClamp vals L)).
Proof.
  unfold applySlopeClamp. cbn [values].
  set (st0 := {| result := vals; flags := repeat false (length vals);
                 changed := true |}).
  assert (Hl : length vals = length (result st0)) by reflexivity.
  rewrite Hl. clear Hl.
  destruct (length (result st0) * 2)%nat as [|[|k]] eqn:En.
  - cbn [clampLoop]. intros i Hi. exfalso. lia.
  - exfalso. lia.
  - cbn [clampLoop]. change (changed st0) with true. cbv iota.
    set (st1 := clampPass L (length (result st0)) st0).
    assert (E1 : result st1 = sweep L (last (result st0) 0) (result st0))
      by apply clampPass_sweep.
    assert (L1 : length (result st1) = length (result st0))
      by apply clampPass_length.
    destruct (changed st1) eqn:C1.
    + set (st2 := clampPass L (length (result st0)) st1).
      assert (E2 : result st2 = sweep L (last (result st1) 0) (result st1))
        by (unfold st2; rewrite <- L1; apply clampPass_sweep).
      assert (H2 : chained L (last (result st2) 0) (result st2)).
      { rewrite E2. apply second_sweep with (p := last (result st0) 0).
        rewrite E1. apply sweep_chained. }
      assert (L2 : length (result st2) = length (result st0))
        by (rewrite E2, sweep_length; exact L1).
      rewrite <- L2. rewrite clampLoop_settled by exact H2.
      now apply chained_circular.
    + apply chained_circular.
      assert (E : result st1 = result st0)
        by (apply clampPass_unchanged; exact C1).
      rewrite E. rewrite <- E at 2. rewrite E1. apply sweep_chained.
Qed.

End SlopeFacts.

(** C2 (in exact arithmetic). For every pair of input half-width arrays
    and every positive per-sample limit, every circular per-sample delta
    of the arrays [clampWidthDeltas] returns, the wrap-around pair
    included, is at most the limit. *)
Theorem clampWidthDeltas_bounded (left right : list Q)
  (options : Width.DeltaOptions) :
  let out := Width.clampWidthDeltas left right options in
  let limit := Width.perSampleLimit (Width.diagnostics out) in
  0 < limit ->
  circularDeltasWithin limit (Width.halfWidthLeft out)
  /\ circularDeltasWithin limit (Width.halfWidthRight out).
Proof.
  cbv zeta. unfold Width.clampWidthDeltas.
  cbn [Width.perSampleLimit Width.diagnostics Width.halfWidthLeft
       Width.halfWidthRight].
  intros H. split; apply applySlopeClamp_circular; lra.
Qed.

Lemma clampWidthDeltas_bounded_witness :
  let out := Width.clampWidthDeltas [0; 100; 0; 100; 0] [3; 3; 9; 3]
               Width.defaultDeltaOptions in
  0 < Width.perSampleLimit (Width.diagnostics out)
  /\ circularDeltasWithin (1 # 40) (Width.halfWidthLeft out)
  /\ circularDeltasWithin (1 # 40) (Width.halfWidthRight out).
Proof.
  cbv zeta. split; [reflexivity|].
  assert (E : Width.perSampleLimit
                (Width.diagnostics
                   (Width.clampWidthDeltas [0; 100; 0; 100; 0] [3; 3; 9; 3]
                      Width.defaultDeltaOptions)) == 1 # 40)
    by reflexivity.
  destruct (@clampWidthDeltas_bounded [0; 100; 0; 100; 0] [3; 3; 9; 3]
              Width.defaultDeltaOptions eq_refl) as [Hl Hr].
  split; intros i Hi; [specialize (Hl i Hi) | specialize (Hr i Hi)];
    rewrite <- E; assumption.
Defined.

(** C2 as worded fails on doubles: the clamped value [prev + limit] is
    rounded, so the delta read back can exceed the limit by a rounding
    error; every pass then rewrites the same values until the pass budget
    is spent.  On the alternating 0 / 100 profile with the limit 0.0125
    the result is [99.9875; 100; 99.9875; 100] and [100 - 99.9875], as
    doubles, is above 0.0125.  [clampWidthDeltas] returns the [values] of
    [applySlopeClamp] for each side, with the limit computed as
    [limitAtHalfMetre] is. *)
Lemma slope_clamp_rounding_counterexample :
  let limit := Examples.limitAtHalfMetre in
  let r := Width.values (Width.applySlopeClamp Examples.alternating limit) in
  PrimFloat.ltb PrimFloat.zero limit = true
  /\ length r = 4%nat
  /\ PrimFloat.ltb limit
       (PrimFloat.abs
          (PrimFloat.sub (nth 1 r PrimFloat.zero) (nth 0 r PrimFloat.zero)))
     = true.
Proof.
  vm_compute. repeat split.
Qed.

(** ** The anchor budget *)

Section AnchorFacts.
Import Spline.

Lemma insertSorted_perm {A : Type} (before : A -> A -> bool) (x : A)
  (l : list A) :
  Permutation (insertSorted before x l) (x :: l).
Proof.
  induction l as [|y l IH]; simpl; [reflexivity|].
  destruct (before y x); [|reflexivity].
  rewrite IH. apply perm_swap.
Qed.

Lemma sortBy_perm {A : Type} (before : A -> A -> bool) (l : list A) :
  Permutation (sortBy before l) l.
Proof.
  induction l as [|x l IH]; simpl; [reflexivity|].
  rewrite insertSorted_perm. now constructor.
Qed.

Lemma setHas_In (idx : nat) (s : IndexSet) : setHas idx s = true <-> In idx s.
Proof.
  unfold setHas. rewrite existsb_exists. split.
  - intros [x [Hin Hx]]. apply Nat.eqb_eq in Hx. now subst.
  - intros H. exists idx. split; [assumption | apply Nat.eqb_refl].
Qed.

Lemma setAdd_NoDup (idx : nat) (s : IndexSet) : NoDup s -> NoDup (setAdd idx s).
Proof.
  intros H. unfold setAdd. destruct (setHas idx s) eqn:E; [assumption|].
  apply NoDup_app; [assumption | repeat constructor; auto |].
  intros a Ha [<-|[]]. apply setHas_In in Ha. congruence.
Qed.

Lemma setAdd_In (idx : nat) (s : IndexSet) : In idx (setAdd idx s).
Proof.
  unfold setAdd. destruct (setHas idx s) eqn:E.
  - now apply setHas_In.
  - apply in_or_app. right. now left.
Qed.

Lemma setAdd_incl (idx : nat) (s : IndexSet) : incl s (setAdd idx s).
Proof.
  unfold setAdd. destruct (setHas idx s); [apply incl_refl|].
  apply incl_appl, incl_refl.
Qed.

Lemma setAdd_length (idx : nat) (s : IndexSet) :
  (length s <= length (setAdd idx s))%nat.
Proof.
  unfold setAdd. destruct (setHas idx s); [lia|].
  rewrite length_app. simpl. lia.
Qed.

Lemma setFromList_NoDup (l : list nat) : NoDup (setFromList l).
Proof.
  unfold setFromList.
  assert (H : forall s, NoDup s ->
                NoDup (fold_left (fun s idx => setAdd idx s) l s)).
  { induction l as [|a l IH]; simpl; auto using setAdd_NoDup. }
  apply H. constructor.
Qed.

Lemma straightLoop_NoDup (fuel n targetCount step : nat) :
  forall idx s, NoDup s -> NoDup (straightLoop fuel n targetCount step idx s).
Proof.
  induction fuel as [|fuel IH]; intros idx s H; simpl; [assumption|].
  destruct (_ && _); auto using setAdd_NoDup.
Qed.

Lemma setDelete_NoDup (idx : nat) (s : IndexSet) :
  NoDup s -> NoDup (setDelete idx s).
Proof. apply NoDup_filter. Qed.

Lemma setDelete_In (idx j : nat) (s : IndexSet) :
  In j (setDelete idx s) <-> In j s /\ j <> idx.
Proof.
  unfold setDelete. rewrite filter_In, negb_true_iff, Nat.eqb_neq.
  intuition congruence.
Qed.

Lemma setDelete_length (idx : nat) (s : IndexSet) :
  NoDup s -> In idx s -> S (length (setDelete idx s)) = length s.
Proof.
  induction 1 as [|a s Ha Hs IH]; intros Hin; [destruct Hin|].
  simpl. destruct (Nat.eqb_spec idx a) as [->|Hne]; simpl.
  - f_equal. unfold setDelete in *.
    clear IH Hin. induction s as [|b s IHs]; [reflexivity|].
    simpl. destruct (Nat.eqb_spec a b) as [->|Hb].
    + exfalso. apply Ha. now left.
    + simpl. f_equal. apply IHs.
      * intros H. apply Ha. now right.
      * now inversion Hs.
  - f_equal. apply IH. destruct Hin; congruence.
Qed.

Section Budget.
Variable atan2 : Q -> Q -> Q.
Variable points : list Point.
Variable targetCount : nat.

Local Abbreviation fillStep := (fillWith targetCount).

Lemma fill_NoDup (l : list (nat * Q)) :
  forall s, NoDup s -> NoDup (fold_left fillStep l s).
Proof.
  induction l as [|[idx sc] l IH]; intros s H; simpl; [assumption|].
  apply IH. destruct (_ <? _)%nat; auto using setAdd_NoDup.
Qed.

Lemma fill_grows (l : list (nat * Q)) :
  forall s, incl s (fold_left fillStep l s)
            /\ (length s <= length (fold_left fillStep l s))%nat.
Proof.
  induction l as [|[idx sc] l IH]; intros s; simpl.
  - split; [apply incl_refl | lia].
  - destruct (IH (if (length s <? targetCount)%nat then setAdd idx s else s))
      as [Hi Hl].
    destruct (length s <? targetCount)%nat.
    + split.
      * eapply incl_tran; [apply setAdd_incl | exact Hi].
      * pose proof (setAdd_length idx s). lia.
    + split; assumption.
Qed.

Lemma fill_reaches (l : list (nat * Q)) :
  forall s,
    (targetCount <= length (fold_left fillStep l s))%nat
    \/ incl (map fst l) (fold_left fillStep l s).
Proof.
  induction l as [|[idx sc] l IH]; intros s; simpl.
  - right. intros x [].
  - destruct (length s <? targetCount)%nat eqn:E.
    + destruct (IH (setAdd idx s)) as [H|H]; [now left|].
      right. intros x [<-|Hx]; [|now apply H].
      apply (proj1 (fill_grows l (setAdd idx s))). apply setAdd_In.
    + left. apply Nat.ltb_ge in E.
      pose proof (proj2 (fill_grows l s)). lia.
Qed.

Lemma scored_fst (indices : list nat) :
  map fst (scored atan2 points indices) = indices.
Proof.
  unfold scored. rewrite map_map. simpl. apply map_id.
Qed.

Lemma fillByCurvature_enough (n : nat) (s : IndexSet) :
  (targetCount < n)%nat -> NoDup s ->
  let s' := fillByCurvature targetCount
              (byScoreDescending (scored atan2 points (seq 0 n))) s in
  NoDup s' /\ (targetCount <= length s')%nat.
Proof.
  intros Hn Hs. cbv zeta. unfold fillByCurvature.
  change (fun (acc : IndexSet) '(idx, _) =>
            if (length acc <? targetCount)%nat then setAdd idx acc else acc)
    with fillStep.
  split; [now apply fill_NoDup|].
  destruct (fill_reaches (byScoreDescending (scored atan2 points (seq 0 n))) s)
    as [H|H]; [assumption|].
  assert (Hall : incl (seq 0 n)
                   (fold_left fillStep
                      (byScoreDescending (scored atan2 points (seq 0 n))) s)).
  { intros x Hx. apply H.
    apply Permutation_in with (l := map fst (scored atan2 points (seq 0 n))).
    - apply Permutation_map. symmetry. apply sortBy_perm.
    - now rewrite scored_fst. }
  apply NoDup_incl_length in Hall; [|apply seq_NoDup].
  rewrite length_seq in Hall.
  eapply Nat.le_trans; [|exact Hall]. lia.
Qed.

Lemma delete_all (d : list (nat * Q)) :
  forall s,
    NoDup s -> NoDup (map fst d) -> incl (map fst d) s ->
    (length (fold_left (fun acc '(idx, _) => setDelete idx acc) d s)
     + length d = length s)%nat.
Proof.
  induction d as [|[idx sc] d IH]; intros s Hs Hd Hi; simpl; [lia|].
  inversion Hd as [|? ? Hnot Hd']; subst.
  rewrite <- Nat.add_succ_comm.
  rewrite <- (@setDelete_length idx s Hs) by (apply Hi; now left).
  rewrite Nat.add_succ_l. f_equal.
  apply IH; auto using setDelete_NoDup.
  intros x Hx. apply setDelete_In. split.
  - apply Hi. now right.
  - intros ->. exact (Hnot Hx).
Qed.

Lemma NoDup_firstn {A : Type} (k : nat) (l : list A) :
  NoDup l -> NoDup (firstn k l).
Proof.
  intros H. rewrite <- (firstn_skipn k l) in H.
  now apply NoDup_app_remove_r in H.
Qed.

Lemma trimToTarget_length (s : IndexSet) :
  NoDup s -> (targetCount <= length s)%nat ->
  length (trimToTarget atan2 points targetCount s) = targetCount.
Proof.
  intros Hs Hl. unfold trimToTarget.
  destruct (targetCount <? length s)%nat eqn:E;
    [apply Nat.ltb_lt in E | apply Nat.ltb_ge in E; lia].
  set (sorted := byScoreAscending (scored atan2 points s)).
  assert (Hp : Permutation (map fst sorted) s).
  { apply Permutation_trans with (map fst (scored atan2 points s));
      [apply Permutation_map, sortBy_perm | now rewrite scored_fst]. }
  assert (Hlen : length sorted = length s)
    by (rewrite <- (Permutation_length Hp); now rewrite length_map).
  pose proof (@delete_all (firstn (length sorted - targetCount) sorted) s Hs)
    as Hd.
  rewrite <- firstn_map in Hd.
  rewrite firstn_length_le in Hd by lia.
  specialize (Hd (NoDup_firstn _ (Permutation_NoDup (Permutation_sym Hp) Hs))).
  assert (Hincl : incl (firstn (length sorted - targetCount) (map fst sorted)) s).
  { intros x Hx. apply (Permutation_in x Hp).
    rewrite <- (firstn_skipn (length sorted - targetCount) (map fst sorted)).
    apply in_or_app. now left. }
  specialize (Hd Hincl). lia.
Qed.

End Budget.

Lemma sortBy_length {A : Type} (before : A -> A -> bool) (l : list A) :
  length (sortBy before l) = length l.
Proof. apply Permutation_length, sortBy_perm. Qed.

(** Past the early return, exactly [targetCount] anchors are selected. *)
Lemma buildAnchorBudget_exact (atan2 : Q -> Q -> Q) (points : list Point)
  (targetCount : nat) (options : AnchorOptions) :
  (targetCount < length points)%nat -> (4 <= targetCount)%nat ->
  length (buildAnchorBudget atan2 points targetCount options) = targetCount.
Proof.
  intros Hn Ht. unfold buildAnchorBudget.
  assert (E : ((length points <=? targetCount) || (targetCount <? 4))%nat
              = false).
  { apply orb_false_iff. split; [apply Nat.leb_gt | apply Nat.ltb_ge]; lia. }
  rewrite E.
  match goal with
  | |- context [fillByCurvature targetCount ?sorted ?s1] =>
      destruct (@fillByCurvature_enough atan2 points targetCount
                  (length points) s1 Hn) as [Hnd Hlen];
        [apply straightLoop_NoDup, setFromList_NoDup|]
  end.
  rewrite length_map, sortBy_length.
  rewrite (trimToTarget_length atan2 points Hnd Hlen).
  destruct (targetCount <? 4)%nat eqn:E4; [apply Nat.ltb_lt in E4; lia|].
  now rewrite length_map, sortBy_length, (trimToTarget_length atan2 points Hnd Hlen).
Qed.

End AnchorFacts.

(** C4 (as the code has it). For every point set of at least 4 points and
    every target count of at least 4, the control points selected by the
    anchor budget number at least 4 and at most the target. *)
Theorem anchor_budget_size (atan2 : Q -> Q -> Q) (points : list Spline.Point)
  (targetCount : nat) (options : Spline.AnchorOptions) :
  (4 <= length points)%nat -> (4 <= targetCount)%nat ->
  (4 <= length (Spline.buildAnchorBudget atan2 points targetCount options)
   <= targetCount)%nat.
Proof.
  intros Hp Ht.
  destruct (Nat.le_gt_cases (length points) targetCount) as [Hle|Hgt].
  - unfold Spline.buildAnchorBudget.
    apply Nat.leb_le in Hle. rewrite Hle. simpl. apply Nat.leb_le in Hle. lia.
  - rewrite buildAnchorBudget_exact by assumption. lia.
Qed.

Lemma anchor_budget_size_witness :
  (4 <= length Examples.hexagon)%nat
  /\ (4 <= 5)%nat
  /\ (4 <= length (Spline.buildAnchorBudget Examples.atan2Q Examples.hexagon 5
                     {| Spline.biasIndices := [2%Z; (-1)%Z];
                        Spline.anchorSpacingMeters := 10;
                        Spline.straightSpacing := 80 |})
      <= 5)%nat.
Proof.
  split; [simpl; lia|]. split; [lia|].
  apply (@anchor_budget_size Examples.atan2Q Examples.hexagon 5%nat);
    simpl; lia.
Defined.

(** C4 as worded fails on both sides: three input points are returned as
    they are, fewer than 4; and with a target below 4 every input point is
    kept, more than the target. *)
Lemma anchor_budget_counterexample :
  ~ (4 <= length (Spline.buildAnchorBudget Examples.atan2Q Examples.triangle 40
                    Spline.defaultAnchorOptions))%nat
  /\ ~ (length (Spline.buildAnchorBudget Examples.atan2Q Examples.hexagon 3
                  Spline.defaultAnchorOptions) <= 3)%nat.
Proof.
  split; vm_compute; lia.
Qed.

(** ** Savitzky-Golay smoothing *)

Section SmoothingFacts.
Import Smoothing.

Lemma first_row_length {A B : Type} (f : A -> list B) (l : list A) (k : nat) :
  (0 < length l)%nat -> (forall a, length (f a) = k) ->
  length (nth 0 (map f l) []) = k.
Proof.
  destruct l as [|a l]; simpl; [lia | auto].
Qed.

Lemma invertMatrix_length (matrix inverse : Matrix) :
  invertMatrix matrix = Ok inverse -> length inverse = length matrix.
Proof.
  unfold invertMatrix. destruct (eliminateAll _ _ _); simpl; [|discriminate].
  intros H. inversion H. now rewrite length_map, length_seq.
Qed.

Lemma oddWindow_odd (windowSize : nat) :
  (2 * (oddWindow windowSize / 2) + 1 = oddWindow windowSize)%nat.
Proof.
  unfold oddWindow.
  pose proof (Nat.mod_upper_bound windowSize 2) as Hm.
  pose proof (Nat.div_mod_eq windowSize 2) as Hd.
  destruct (windowSize mod 2 =? 0)%nat eqn:E.
  - apply Nat.eqb_eq in E.
    pose proof (Nat.div_mod_eq (windowSize + 1) 2) as Hd'.
    pose proof (Nat.mod_upper_bound (windowSize + 1) 2) as Hm'.
    assert (Hodd : ((windowSize + 1) mod 2 = 1)%nat).
    { replace (windowSize + 1)%nat with (1 + (windowSize / 2) * 2)%nat by lia.
      rewrite Nat.Div0.mod_add. reflexivity. }
    lia.
  - apply Nat.eqb_neq in E. lia.
Qed.

(** A kernel built for an odd window has one weight per window slot. *)
Lemma kernel_length (cache cache' : Cache) (windowSize order : nat)
  (spacing : Q) (kernel : list Q) :
  cacheWellFormed cache ->
  getSavitzkyGolayKernel cache (oddWindow windowSize) order spacing
  = Ok (kernel, cache') ->
  length kernel = oddWindow windowSize.
Proof.
  intros Hwf. unfold getSavitzkyGolayKernel.
  destruct (cacheGet _ cache) as [k|] eqn:Ec.
  - intros H. inversion H. subst. eapply Hwf. exact Ec.
  - set (half := (oddWindow windowSize / 2)%nat).
    set (A := designMatrix (samplePositions half (jsMax spacing (1 # 1000)))
                (order + 1)).
    destruct (invertMatrix _) as [inv|] eqn:Ei; simpl; [|discriminate].
    intros H. inversion H. subst kernel. clear H.
    apply invertMatrix_length in Ei.
    assert (HA : length A = (2 * half + 1)%nat)
      by (unfold A, designMatrix, samplePositions;
          now rewrite !length_map, length_seq).
    assert (HA0 : length (nth 0 A []) = (order + 1)%nat).
    { unfold A, designMatrix. apply first_row_length.
      - unfold samplePositions. rewrite length_map, length_seq. lia.
      - intros t. now rewrite length_map, length_seq. }
    assert (HT0 : length (nth 0 (transposeMatrix A) []) = (2 * half + 1)%nat).
    { unfold transposeMatrix. apply first_row_length.
      - rewrite length_seq, HA0. lia.
      - intros j. now rewrite length_map, length_seq. }
    assert (Hinv : length inv = (order + 1)%nat).
    { rewrite Ei. unfold multiplyMatrices, transposeMatrix.
      now rewrite !length_map, !length_seq. }
    unfold multiplyMatrices at 1.
    rewrite first_row_length with (k := (2 * half + 1)%nat).
    + apply oddWindow_odd.
    + rewrite length_seq, Hinv. lia.
    + intros i. now rewrite length_map, length_seq.
Qed.

Lemma cacheGet_app (key key0 : Key) (kernel0 : list Q) (cache : Cache) :
  cacheGet key (cache ++ [(key0, kernel0)])
  = match cacheGet key cache with
    | Some kernel => Some kernel
    | None => if keyEqb key key0 then Some kernel0 else None
    end.
Proof.
  induction cache as [|[k kernel] cache IH]; simpl.
  - reflexivity.
  - destruct (keyEqb key k); [reflexivity | exact IH].
Qed.

Lemma keyEqb_eq (a b : Key) : keyEqb a b = true -> a = b.
Proof.
  destruct a as [[w1 o1] s1], b as [[w2 o2] s2]. unfold keyEqb.
  rewrite !andb_true_iff, !Nat.eqb_eq, Z.eqb_eq.
  intros [[-> ->] ->]. reflexivity.
Qed.

(** The cache invariant is kept by every call the smoother makes, and the
    empty cache of a fresh process has it. *)
Lemma cacheWellFormed_empty : cacheWellFormed [].
Proof. intros w o s kernel H. discriminate H. Qed.

Lemma getSavitzkyGolayKernel_keeps_cache (cache cache' : Cache)
  (windowSize order : nat) (spacing : Q) (kernel : list Q) :
  cacheWellFormed cache ->
  getSavitzkyGolayKernel cache (oddWindow windowSize) order spacing
  = Ok (kernel, cache') ->
  cacheWellFormed cache'.
Proof.
  intros Hwf H. pose proof (kernel_length _ _ _ Hwf H) as Hlen.
  revert H. unfold getSavitzkyGolayKernel.
  destruct (cacheGet _ cache) as [k|] eqn:Ec.
  - intros H. inversion H. subst. exact Hwf.
  - destruct (invertMatrix _) as [inv|]; simpl; [|discriminate].
    intros H. inversion H as [[Hk Hc]]. rewrite Hk in *.
    intros w o s k1. rewrite cacheGet_app.
    destruct (cacheGet (w, o, s) cache) as [k2|] eqn:E2.
    + intros H2. inversion H2. subst. eapply Hwf. exact E2.
    + destruct (keyEqb _ _) eqn:Ek; [|discriminate].
      intros H2. inversion H2. subst k1.
      apply keyEqb_eq in Ek. inversion Ek. subst. exact Hlen.
Qed.

Lemma fold_left_invariant {A B : Type} (P : A -> Prop) (f : A -> B -> A)
  (l : list B) :
  (forall acc b, In b l -> P acc -> P (f acc b)) ->
  forall init, P init -> P (fold_left f l init).
Proof.
  induction l as [|b l IH]; intros Hf init Hi; simpl; [assumption|].
  apply IH; [intros; apply Hf; auto; now right|].
  apply Hf; auto. now left.
Qed.

Lemma valueAt_repeat (c : Q) (n : nat) (index : Z) :
  (0 <= index < Z.of_nat n)%Z -> valueAt (repeat c n) index = Some c.
Proof.
  intros H. unfold valueAt.
  destruct (index <? 0)%Z eqn:E; [apply Z.ltb_lt in E; lia|].
  apply nth_error_repeat. lia.
Qed.

Lemma smoothAt_constant (c : Q) (n : nat) (kernel : list Q)
  (isCircular : bool) (windowSize i : nat) :
  length kernel = windowSize -> (i < n)%nat ->
  (isCircular = true -> (windowSize / 2 <= n)%nat) ->
  exists q,
    smoothAt (repeat c n) kernel isCircular windowSize (windowSize / 2) i
    = Some q /\ q == c.
Proof.
  intros Hk Hi Hc. unfold smoothAt.
  set (half := (windowSize / 2)%nat) in *.
  assert (Hinv :
    (fun acc : num * num =>
       exists s ws, acc = (Some s, Some ws) /\ s == ws * c)
      (fold_left (windowStep (repeat c n) kernel isCircular half i)
                 (seq 0 windowSize) (Some 0, Some 0))).
  { apply fold_left_invariant.
    - intros acc k Hin [s [ws [-> Hs]]].
      apply in_seq in Hin.
      destruct (nth_error kernel k) as [kk|] eqn:Ek;
        [|apply nth_error_None in Ek; lia].
      unfold windowStep. rewrite Ek, repeat_length.
      destruct isCircular.
      + rewrite valueAt_repeat.
        * cbn [nadd nmul lift2]. eexists _, _. split; [reflexivity|].
          rewrite Hs. ring.
        * specialize (Hc eq_refl). apply Z.rem_bound_pos; lia.
      + destruct ((_ <? 0)%Z || _)%Z eqn:Eo; [eauto|].
        apply orb_false_iff in Eo. destruct Eo as [E1 E2].
        apply Z.ltb_ge in E1. apply Z.leb_gt in E2.
        rewrite valueAt_repeat by lia.
        cbn [nadd nmul lift2]. eexists _, _. split; [reflexivity|].
        rewrite Hs. ring.
    - exists 0, 0. split; [reflexivity | ring]. }
  destruct Hinv as [s [ws [-> Hs]]].
  destruct (Qeq_bool ws 0) eqn:E.
  - exists c. split; [now apply nth_error_repeat | reflexivity].
  - exists (s / ws). unfold ndiv. rewrite E. split; [reflexivity|].
    assert (Hne : ~ ws == 0)
      by (intros H; apply Qeq_bool_iff in H; congruence).
    rewrite Hs. field. exact Hne.
Qed.

End SmoothingFacts.

(** C9 (as the code has it). For every constant input array, every window
    size of at least 3 and every polynomial order for which the kernel is
    obtained (its matrix is inverted without the singular-matrix error),
    [savitzkyGolaySmooth] returns an array of the same length whose
    entries all equal the constant, provided that in circular mode the
    array is at least as long as half the window. *)
Theorem savitzkyGolay_constant (cache cache' : Smoothing.Cache) (c : Q)
  (n windowSize : nat) (options : Smoothing.SgOptions) (kernel : list Q) :
  cacheWellFormed cache ->
  (3 <= windowSize)%nat ->
  (Smoothing.circular options = true -> (oddWindow windowSize / 2 <= n)%nat) ->
  Smoothing.getSavitzkyGolayKernel cache (oddWindow windowSize)
    (Smoothing.order options) (Smoothing.spacing options)
  = Ok (kernel, cache') ->
  exists smoothed,
    Smoothing.savitzkyGolaySmooth cache (repeat c n) windowSize options
    = Ok (smoothed, cache')
    /\ length smoothed = n
    /\ Forall (fun v => exists q, v = Some q /\ q == c) smoothed.
Proof.
  intros Hwf Hw Hc Hk. unfold Smoothing.savitzkyGolaySmooth.
  destruct (windowSize <? 3)%nat eqn:E; [apply Nat.ltb_lt in E; lia|].
  change (if (windowSize mod 2 =? 0)%nat then (windowSize + 1)%nat
          else windowSize) with (oddWindow windowSize).
  rewrite Hk. cbn [bind]. rewrite repeat_length.
  eexists. split; [reflexivity|]. split.
  - now rewrite length_map, length_seq.
  - apply Forall_forall. intros v Hv.
    apply in_map_iff in Hv. destruct Hv as [i [<- Hi]].
    apply in_seq in Hi.
    apply smoothAt_constant; [|lia|assumption].
    eapply kernel_length; eassumption.
Qed.

Lemma savitzkyGolay_constant_witness :
  exists smoothed cache',
    Smoothing.savitzkyGolaySmooth [] (repeat 5 6) 4
      {| Smoothing.order := 2; Smoothing.spacing := 1 # 2;
         Smoothing.circular := true |} = Ok (smoothed, cache')
    /\ length smoothed = 6%nat
    /\ Forall (fun v => exists q, v = Some q /\ q == 5) smoothed.
Proof.
  pose proof cacheWellFormed_empty as Hwf.
  assert (Hw : (3 <= 4)%nat) by lia.
  destruct (Smoothing.getSavitzkyGolayKernel [] (oddWindow 4) 2 (1 # 2))
    as [[kernel cache']|e] eqn:Hk; [|vm_compute in Hk; discriminate Hk].
  destruct (@savitzkyGolay_constant [] cache' 5 6 4
              {| Smoothing.order := 2; Smoothing.spacing := 1 # 2;
                 Smoothing.circular := true |} kernel Hwf Hw
              (fun _ => ltac:(vm_compute; lia)) Hk) as [smoothed H].
  exists smoothed, cache'. exact H.
Defined.

(** C9 as worded fails where the kernel cannot be built: with the default
    order 3 and a window of 3 the normal-equation matrix is singular and
    the smoother throws. *)
Lemma savitzkyGolay_counterexample :
  (3 <= 3)%nat
  /\ Smoothing.savitzkyGolaySmooth [] (repeat 5 5) 3 Smoothing.defaultSgOptions
     = Throw MatrixSingular.
Proof.
  split; [lia | vm_compute; reflexivity].
Qed.

(** In circular mode an array shorter than half the window is read at a
    negative index: [(index + n) % n] stays negative, the slot is
    [undefined], and the output entry is [NaN]. *)
Remark savitzkyGolay_short_array :
  exists v cache',
    Smoothing.savitzkyGolaySmooth [] (repeat 5 2) 7
      {| Smoothing.order := 1; Smoothing.spacing := 1;
         Smoothing.circular := true |} = Ok ([None; v], cache').
Proof.
  eexists. eexists. vm_compute. reflexivity.
Qed.

(** ** The guardrail *)

Section ConstraintFacts.
Import Constraints.

Lemma nth_setAt_same {A : Type} (l : list A) (i : nat) (v d : A) :
  (i < length l)%nat -> nth i (setAt l i v) d = v.
Proof.
  revert i; induction l as [|a l IH]; intros [|i] H; simpl in *;
    try lia; auto.
  apply IH. lia.
Qed.

Lemma nth_setAt_other {A : Type} (l : list A) (i j : nat) (v d : A) :
  i <> j -> nth j (setAt l i v) d = nth j l d.
Proof.
  revert i j; induction l as [|a l IH]; intros [|i] [|j] H; simpl;
    try congruence; auto.
Qed.

Lemma writeAt_length (st : Store) (a : Addr) (i : nat) (v : Q) :
  length (writeAt st a i v) = length st.
Proof. apply setAt_length. Qed.

Lemma writeAt_other (st : Store) (a b : Addr) (i : nat) (v : Q) :
  a <> b -> arrayAt (writeAt st a i v) b = arrayAt st b.
Proof. intros H. now apply nth_setAt_other. Qed.

Lemma writeAt_same (st : Store) (a : Addr) (i : nat) (v : Q) :
  (a < length st)%nat ->
  arrayAt (writeAt st a i v) a = setAt (arrayAt st a) i v.
Proof. intros H. now apply nth_setAt_same. Qed.

Lemma lowered_refl (a : list Q) : lowered a a.
Proof. induction a; constructor; auto. apply Qle_refl. Qed.

Lemma lowered_trans (a b c : list Q) : lowered a b -> lowered b c -> lowered a c.
Proof.
  intros H. revert c. induction H as [|x y a b Hxy Hab IH]; intros c Hc;
    inversion Hc as [|y' z b' c' Hyz Hbc]; subst; constructor.
  - lra.
  - apply IH. exact Hbc.
Qed.

Lemma lowered_setAt (arr : list Q) (i : nat) (v cur : Q) :
  nth_error arr i = Some cur -> v <= cur -> lowered (setAt arr i v) arr.
Proof.
  revert i; induction arr as [|a arr IH]; intros [|i] H Hv; simpl in *;
    try discriminate.
  - inversion H; subst. constructor; [assumption | apply lowered_refl].
  - constructor; [apply Qle_refl | apply (IH i); assumption].
Qed.

Lemma lowered_nth (a b : list Q) (i : nat) :
  lowered a b ->
  (forall v, nth_error b i = Some v ->
             exists v', nth_error a i = Some v' /\ v' <= v)
  /\ (forall v', nth_error a i = Some v' ->
                 exists v, nth_error b i = Some v /\ v' <= v).
Proof.
  intros H. revert i. induction H as [|x y a b Hxy Hab IH]; intros [|i];
    simpl; split; intros v Hv; try discriminate.
  - inversion Hv; subst; eauto.
  - inversion Hv; subst; eauto.
  - now apply IH.
  - now apply IH.
Qed.

(** The limit the lap loop computes: at least the starting value and every
    projection, and one of them. *)
Lemma lapLimit_spec (negate : bool) (center nrm : Q * Q) (i : nat)
  (laps : list (list LapPoint)) :
  forall init,
  exists limit,
    lapLimit laps negate center (Some nrm) i init = Ok limit
    /\ init <= limit
    /\ (forall q, In q (projections laps negate center nrm i) -> q <= limit)
    /\ (limit = init \/ In limit (projections laps negate center nrm i)).
Proof.
  induction laps as [|lp laps IH]; intros init; simpl.
  - exists init. repeat split; auto; [apply Qle_refl | intros q []].
  - destruct (nth_error lp i) as [point|]; simpl; [|apply IH].
    set (pr := if negate then - projectOntoNormal point center nrm
               else projectOntoNormal point center nrm).
    destruct (IH (if Qlt_bool init pr then pr else init))
      as [limit [E [Hge [Hall Hin]]]].
    exists limit. split; [exact E|].
    case_lt init pr.
    + split; [lra|]. split.
      * intros q [<-|Hq]; auto.
      * destruct Hin as [->|Hin]; auto.
    + split; [assumption|]. split.
      * intros q [<-|Hq]; [lra | auto].
      * destruct Hin as [->|Hin]; auto.
Qed.

(** What one side of one sample does to the store, when it returns. *)
Lemma clampSide_ok (laps : list (list LapPoint)) (negate : bool)
  (safeScale : Q) (center : Q * Q) (normal : option (Q * Q)) (i : nat)
  (target : Addr) (st st' : Store) (count count' : nat)
  (indices indices' : list nat) :
  (target < length st)%nat ->
  clampSide laps negate safeScale center normal i target (st, count, indices)
  = Ok (st', count', indices') ->
  length st' = length st
  /\ (forall a, a <> target -> arrayAt st' a = arrayAt st a)
  /\ lowered (arrayAt st' target) (arrayAt st target)
  /\ (forall limit v,
        laps <> [] ->
        lapLimit laps negate center normal i 0 = Ok limit ->
        0 < limit * safeScale ->
        nth_error (arrayAt st' target) i = Some v ->
        v <= limit * safeScale).
Proof.
  intros Ht. unfold clampSide.
  destruct laps as [|lp laps'] eqn:El.
  - intros H. inversion H. subst. repeat split; auto using lowered_refl.
    intros limit v Hne. congruence.
  - rewrite <- El. clear El.
    destruct (lapLimit laps negate center normal i 0) as [limit0|] eqn:E;
      cbn [bind]; [|discriminate].
    destruct (nth_error (arrayAt st target) i) as [cur|] eqn:Ecur.
    + cbn [nlt]. case_lt 0 (limit0 * safeScale); cbn [andb].
      * case_lt (limit0 * safeScale) cur; intros H; inversion H; subst.
        -- split; [apply writeAt_length|].
           split; [intros a Ha; apply writeAt_other; congruence|].
           rewrite writeAt_same by assumption.
           split; [eapply lowered_setAt; eauto; lra|].
           intros limit v _ Hl _ Hv. inversion Hl; subst.
           rewrite nth_error_setAt_same in Hv
             by (apply nth_error_Some; congruence).
           inversion Hv. apply Qle_refl.
        -- repeat split; auto using lowered_refl.
           intros limit v _ Hl _ Hv. inversion Hl; subst.
           rewrite Ecur in Hv. inversion Hv; subst. assumption.
      * intros H; inversion H; subst.
        repeat split; auto using lowered_refl.
        intros limit v _ Hl Hpos Hv. inversion Hl; subst. lra.
    + cbn [nlt]. rewrite andb_false_r. intros H; inversion H; subst.
      repeat split; auto using lowered_refl.
      intros limit v _ _ _ Hv. congruence.
Qed.

(** A side writes at most the entry of the current sample, and nothing
    where its limit is not positive. *)
Lemma clampSide_entry (laps : list (list LapPoint)) (negate : bool)
  (safeScale : Q) (center : Q * Q) (normal : option (Q * Q)) (i : nat)
  (target : Addr) (st st' : Store) (count count' : nat)
  (indices indices' : list nat) :
  (target < length st)%nat ->
  clampSide laps negate safeScale center normal i target (st, count, indices)
  = Ok (st', count', indices') ->
  (forall j, j <> i ->
     nth_error (arrayAt st' target) j = nth_error (arrayAt st target) j)
  /\ ((forall limit,
         laps <> [] ->
         lapLimit laps negate center normal i 0 = Ok limit ->
         limit * safeScale <= 0) ->
      st' = st).
Proof.
  intros Ht. unfold clampSide.
  destruct laps as [|lp laps'] eqn:El.
  - intros H. inversion H. subst. auto.
  - rewrite <- El.
    destruct (lapLimit laps negate center normal i 0) as [limit0|] eqn:E;
      cbn [bind]; [|discriminate].
    assert (Hne : laps <> []) by (rewrite El; discriminate).
    clear El.
    case_lt 0 (limit0 * safeScale); cbn [andb].
    + destruct (nlt _ _); intros H; inversion H; subst st' count' indices';
        clear H.
      * split.
        -- intros j Hj. rewrite writeAt_same by assumption.
           apply nth_error_setAt_other. congruence.
        -- intros Hidle. exfalso.
           specialize (Hidle limit0 Hne eq_refl). lra.
      * auto.
    + intros H; inversion H; subst. auto.
Qed.

(** With a normal at hand, a side never throws. *)
Lemma clampSide_total (laps : list (list LapPoint)) (negate : bool)
  (safeScale : Q) (center nrm : Q * Q) (i : nat) (target : Addr)
  (acc : Store * nat * list nat) :
  exists acc',
    clampSide laps negate safeScale center (Some nrm) i target acc = Ok acc'.
Proof.
  destruct acc as [[st count] indices]. unfold clampSide.
  destruct laps as [|lp laps'] eqn:El; [eauto|].
  rewrite <- El.
  destruct (lapLimit_spec negate center nrm i laps 0) as [limit0 [E _]].
  rewrite E. cbn [bind]. destruct (_ && _); eauto.
Qed.

Section Loop.
Variable p : Params.
Variables leftLaps rightLaps : list (list LapPoint).
Variable safeScale : Q.
Variables leftResult rightResult : Addr.
Hypothesis distinct : leftResult <> rightResult.

Lemma advances_refl (st : Store) : advances leftResult rightResult st st.
Proof. repeat split; auto using lowered_refl. Qed.

Lemma advances_trans (a b c : Store) :
  advances leftResult rightResult a b -> advances leftResult rightResult b c -> advances leftResult rightResult a c.
Proof.
  intros [L1 [F1 [Ll1 Lr1]]] [L2 [F2 [Ll2 Lr2]]]. repeat split.
  - congruence.
  - intros x Hl Hr. rewrite F2, F1; auto.
  - eapply lowered_trans; eauto.
  - eapply lowered_trans; eauto.
Qed.

Lemma bounded_advances (laps : list (list LapPoint)) (negate : bool)
  (target : Addr) (st st' : Store) (i : nat) :
  target = leftResult \/ target = rightResult ->
  advances leftResult rightResult st st' -> bounded p safeScale laps negate target st i ->
  bounded p safeScale laps negate target st' i.
Proof.
  intros Ht [_ [_ [Ll Lr]]] Hb center limit v Hc Hl He Hp Hv.
  assert (Hlow : lowered (arrayAt st' target) (arrayAt st target))
    by (destruct Ht; subst; assumption).
  destruct (proj2 (lowered_nth i Hlow) v Hv) as [v0 [Hv0 Hle]].
  specialize (Hb center limit v0 Hc Hl He Hp Hv0). lra.
Qed.

Lemma sampleStep_ok (s s' : LoopState) (i : nat) :
  (leftResult < length (store s))%nat ->
  (rightResult < length (store s))%nat ->
  sampleStep p leftLaps rightLaps safeScale leftResult rightResult s i = Ok s' ->
  advances leftResult rightResult (store s) (store s')
  /\ bounded p safeScale leftLaps false leftResult (store s') i
  /\ bounded p safeScale rightLaps true rightResult (store s') i.
Proof.
  intros Hl Hr. unfold sampleStep, elemAt.
  destruct (nth_error (centerline p) i) as [center|] eqn:Hc; cbn [bind];
    [|discriminate].
  destruct (clampSide leftLaps false _ _ _ _ _ _) as [[[st1 cl] il]|] eqn:E1;
    cbn [bind]; [|discriminate].
  destruct (clampSide rightLaps true _ _ _ _ _ _) as [[[st2 cr] ir]|] eqn:E2;
    cbn [bind]; [|discriminate].
  intros H. inversion H. subst s'. clear H. cbn [store].
  destruct (@clampSide_ok _ _ _ _ _ _ _ _ _ _ _ _ _ Hl E1)
    as [L1 [F1 [Low1 B1]]].
  assert (Hr1 : (rightResult < length st1)%nat) by (rewrite L1; exact Hr).
  destruct (@clampSide_ok _ _ _ _ _ _ _ _ _ _ _ _ _ Hr1 E2)
    as [L2 [F2 [Low2 B2]]].
  split; [|split].
  - repeat split.
    + congruence.
    + intros a Ha Hb. rewrite F2, F1; auto.
    + rewrite F2 by exact distinct. exact Low1.
    + rewrite <- (F1 rightResult) by congruence. exact Low2.
  - intros c0 limit v Hc0 Hne He Hp Hv.
    rewrite Hc in Hc0. inversion Hc0; subst c0.
    rewrite F2 in Hv by exact distinct. eauto.
  - intros c0 limit v Hc0 Hne He Hp Hv.
    rewrite Hc in Hc0. inversion Hc0; subst c0. eauto.
Qed.

Lemma sampleStep_total (s : LoopState) (i : nat) :
  (i < length (centerline p))%nat -> (i < length (normals p))%nat ->
  exists s',
    sampleStep p leftLaps rightLaps safeScale leftResult rightResult s i
    = Ok s'.
Proof.
  clear distinct. intros Hc Hn. unfold sampleStep, elemAt.
  destruct (nth_error (centerline p) i) as [center|] eqn:Ec;
    [|apply nth_error_None in Ec; lia].
  destruct (nth_error (normals p) i) as [nrm|] eqn:En;
    [|apply nth_error_None in En; lia].
  cbn [bind].
  destruct (clampSide_total leftLaps false safeScale center nrm i leftResult
              (store s, countLeft s, indicesLeft s)) as [[[st1 cl] il] E1].
  rewrite E1. cbn [bind].
  destruct (clampSide_total rightLaps true safeScale center nrm i rightResult
              (st1, countRight s, indicesRight s)) as [[[st2 cr] ir] E2].
  rewrite E2. cbn [bind]. eauto.
Qed.

Lemma sampleLoop_ok (indices : list nat) :
  forall s s',
    (leftResult < length (store s))%nat ->
    (rightResult < length (store s))%nat ->
    sampleLoop p leftLaps rightLaps safeScale leftResult rightResult s indices
    = Ok s' ->
    advances leftResult rightResult (store s) (store s')
    /\ (forall i, In i indices ->
                  bounded p safeScale leftLaps false leftResult (store s') i
                  /\ bounded p safeScale rightLaps true rightResult (store s') i).
Proof.
  induction indices as [|i rest IH]; intros s s' Hl Hr; cbn [sampleLoop].
  - intros H. inversion H. subst. split; [apply advances_refl|].
    intros i [].
  - destruct (sampleStep _ _ _ _ _ _ s i) as [s1|] eqn:E1; cbn [bind];
      [|discriminate].
    intros E'.
    destruct (@sampleStep_ok s s1 i Hl Hr E1) as [A1 [Bl Br]].
    assert (Hlen : length (store s1) = length (store s)) by apply A1.
    destruct (IH s1 s') as [A' B']; [lia | lia | exact E' |].
    split; [eapply advances_trans; eauto|].
    intros j [<-|Hj]; [|auto].
    split; eapply bounded_advances; eauto.
Qed.

(** A sample whose limit is not positive on a side keeps its half-width
    on that side through the whole loop. *)
Lemma sampleStep_keeps (s s' : LoopState) (j i : nat) :
  (leftResult < length (store s))%nat ->
  (rightResult < length (store s))%nat ->
  sampleStep p leftLaps rightLaps safeScale leftResult rightResult s j = Ok s' ->
  (idle p safeScale leftLaps false i ->
   nth_error (arrayAt (store s') leftResult) i
   = nth_error (arrayAt (store s) leftResult) i)
  /\ (idle p safeScale rightLaps true i ->
      nth_error (arrayAt (store s') rightResult) i
      = nth_error (arrayAt (store s) rightResult) i).
Proof.
  intros Hl Hr. unfold sampleStep, elemAt.
  destruct (nth_error (centerline p) j) as [center|] eqn:Hc; cbn [bind];
    [|discriminate].
  destruct (clampSide leftLaps false _ _ _ _ _ _) as [[[st1 cl] il]|] eqn:E1;
    cbn [bind]; [|discriminate].
  destruct (clampSide rightLaps true _ _ _ _ _ _) as [[[st2 cr] ir]|] eqn:E2;
    cbn [bind]; [|discriminate].
  intros H. inversion H. subst s'. clear H. cbn [store].
  destruct (@clampSide_ok _ _ _ _ _ _ _ _ _ _ _ _ _ Hl E1)
    as [L1 [F1 _]].
  assert (Hr1 : (rightResult < length st1)%nat) by (rewrite L1; exact Hr).
  destruct (@clampSide_ok _ _ _ _ _ _ _ _ _ _ _ _ _ Hr1 E2)
    as [_ [F2 _]].
  destruct (@clampSide_entry _ _ _ _ _ _ _ _ _ _ _ _ _ Hl E1) as [K1 I1].
  destruct (@clampSide_entry _ _ _ _ _ _ _ _ _ _ _ _ _ Hr1 E2) as [K2 I2].
  split; intros Hidle.
  - rewrite (F2 leftResult) by exact distinct.
    destruct (Nat.eq_dec i j) as [->|Hne]; [|apply K1; exact Hne].
    rewrite I1; [reflexivity|]. intros limit Hne Hlim.
    apply (Hidle center limit Hc Hne Hlim).
  - rewrite <- (F1 rightResult) by congruence.
    destruct (Nat.eq_dec i j) as [->|Hne]; [|apply K2; exact Hne].
    rewrite I2; [reflexivity|]. intros limit Hne Hlim.
    apply (Hidle center limit Hc Hne Hlim).
Qed.

Lemma sampleLoop_keeps (indices : list nat) (i : nat) :
  forall s s',
    (leftResult < length (store s))%nat ->
    (rightResult < length (store s))%nat ->
    sampleLoop p leftLaps rightLaps safeScale leftResult rightResult s indices
    = Ok s' ->
    (idle p safeScale leftLaps false i ->
     nth_error (arrayAt (store s') leftResult) i
     = nth_error (arrayAt (store s) leftResult) i)
    /\ (idle p safeScale rightLaps true i ->
        nth_error (arrayAt (store s') rightResult) i
        = nth_error (arrayAt (store s) rightResult) i).
Proof.
  induction indices as [|j rest IH]; intros s s' Hl Hr H.
  - inversion H. subst. auto.
  - cbn [sampleLoop] in H.
    destruct (sampleStep _ _ _ _ _ _ s j) as [s1|] eqn:E; cbn [bind] in H;
      [|discriminate].
    destruct (sampleStep_ok _ _ Hl Hr E) as [[Hlen _] _].
    destruct (@sampleStep_keeps s s1 j i Hl Hr E) as [A1 B1].
    destruct (IH s1 s') as [A2 B2]; [congruence | congruence | exact H |].
    split; intros Hidle;
      [rewrite A2, A1 | rewrite B2, B1]; auto.
Qed.

Lemma sampleLoop_total (indices : list nat) :
  (forall i, In i indices ->
             (i < length (centerline p))%nat /\ (i < length (normals p))%nat) ->
  forall s,
  exists s',
    sampleLoop p leftLaps rightLaps safeScale leftResult rightResult s indices
    = Ok s'.
Proof.
  clear distinct.
  induction indices as [|i rest IH]; intros Hin s; cbn [sampleLoop];
    [eauto|].
  destruct (Hin i (or_introl eq_refl)) as [Hc Hn].
  destruct (@sampleStep_total s i Hc Hn) as [s1 E1]. rewrite E1. cbn [bind].
  apply IH. intros j Hj. apply Hin. now right.
Qed.

End Loop.

Lemma arrayAt_app_old (st : Store) (arr : list Q) (a : Addr) :
  (a < length st)%nat -> arrayAt (st ++ [arr]) a = arrayAt st a.
Proof. intros H. unfold arrayAt. now rewrite app_nth1. Qed.

Lemma arrayAt_app_new (st : Store) (arr : list Q) :
  arrayAt (st ++ [arr]) (length st) = arr.
Proof. unfold arrayAt. now rewrite nth_middle. Qed.

(** With one normal per sample the function returns. *)
Lemma enforceWidthConstraints_total (st : Store) (p : Params) :
  length (normals p) = length (centerline p) ->
  exists st' out, enforceWidthConstraints st p = Ok (st', out).
Proof.
  intros Hn. unfold enforceWidthConstraints, allocCopy.
  match goal with
  | |- context [sampleLoop p ?l ?r ?sc ?a ?b ?s0 ?idx] =>
      destruct (@sampleLoop_total p l r sc a b idx) with (s := s0)
        as [s' E]
  end.
  - intros i Hi. apply in_seq in Hi. lia.
  - rewrite E. cbn [bind]. eauto.
Qed.

(** Whenever the function returns: the old arrays are untouched, and the
    two fresh arrays are the inputs with some entries lowered to a bound
    every clamped sample obeys. *)
Lemma enforceWidthConstraints_ok (st st' : Store) (p : Params) (out : Output) :
  enforceWidthConstraints st p = Ok (st', out) ->
  let leftLaps := lapsOf (rawSamples p) left in
  let rightLaps := lapsOf (rawSamples p) right in
  let safeScale := jsMax (1 # 10) (jsMin (clampScale p) 1) in
  outLeft out = length st
  /\ outRight out = S (length st)
  /\ length st' = S (S (length st))
  /\ (forall a, (a < length st)%nat -> arrayAt st' a = arrayAt st a)
  /\ lowered (arrayAt st' (outLeft out)) (arrayAt st (halfWidthLeft p))
  /\ ((halfWidthRight p < length st)%nat ->
      lowered (arrayAt st' (outRight out)) (arrayAt st (halfWidthRight p)))
  /\ (forall i, (i < length (centerline p))%nat ->
        bounded p safeScale leftLaps false (outLeft out) st' i
        /\ bounded p safeScale rightLaps true (outRight out) st' i).
Proof.
  cbv zeta. unfold enforceWidthConstraints, allocCopy.
  set (st1 := st ++ [arrayAt st (halfWidthLeft p)]).
  set (st2 := st1 ++ [arrayAt st1 (halfWidthRight p)]).
  assert (L1 : length st1 = S (length st))
    by (unfold st1; rewrite length_app; simpl; lia).
  assert (L2 : length st2 = S (S (length st)))
    by (unfold st2; rewrite length_app; simpl; lia).
  set (s0 := {| store := st2; countLeft := 0; countRight := 0;
                indicesLeft := []; indicesRight := [] |}).
  destruct (sampleLoop _ _ _ _ _ _ s0 _) as [s'|] eqn:E; cbn [bind];
    [|discriminate].
  intros H. inversion H. subst st' out. clear H.
  destruct (@sampleLoop_ok p (lapsOf (rawSamples p) left)
              (lapsOf (rawSamples p) right)
              (jsMax (1 # 10) (jsMin (clampScale p) 1))
              (length st) (length st1)
              ltac:(lia) (seq 0 (length (centerline p))) s0 s')
    as [[Hlen [Hframe [Hll Hlr]]] Hb];
    [cbn [store s0]; lia | cbn [store s0]; lia | exact E |].
  cbn [outLeft outRight store s0] in *.
  split; [reflexivity|]. split; [exact L1|]. split; [congruence|].
  split; [|split; [|split]].
  - intros a Ha. rewrite Hframe by lia.
    unfold st2. rewrite arrayAt_app_old by lia.
    unfold st1. now rewrite arrayAt_app_old.
  - eapply lowered_trans; [exact Hll|].
    unfold st2. rewrite arrayAt_app_old by lia.
    unfold st1. rewrite arrayAt_app_new. apply lowered_refl.
  - intros Hr. eapply lowered_trans; [exact Hlr|].
    unfold st2. rewrite arrayAt_app_new.
    unfold st1. rewrite arrayAt_app_old by assumption. apply lowered_refl.
  - intros i Hi. apply Hb. apply in_seq. lia.
Qed.

(** Where the limit of a side is not positive, the output half-width of
    that side is the input half-width. *)
Lemma enforceWidthConstraints_idle (st st' : Store) (p : Params) (out : Output)
  (i : nat) :
  enforceWidthConstraints st p = Ok (st', out) ->
  let leftLaps := lapsOf (rawSamples p) left in
  let rightLaps := lapsOf (rawSamples p) right in
  let safeScale := jsMax (1 # 10) (jsMin (clampScale p) 1) in
  (idle p safeScale leftLaps false i ->
   nth_error (arrayAt st' (outLeft out)) i
   = nth_error (arrayAt st (halfWidthLeft p)) i)
  /\ ((halfWidthRight p < length st)%nat ->
      idle p safeScale rightLaps true i ->
      nth_error (arrayAt st' (outRight out)) i
      = nth_error (arrayAt st (halfWidthRight p)) i).
Proof.
  cbv zeta. unfold enforceWidthConstraints, allocCopy.
  set (st1 := st ++ [arrayAt st (halfWidthLeft p)]).
  set (st2 := st1 ++ [arrayAt st1 (halfWidthRight p)]).
  assert (L1 : length st1 = S (length st))
    by (unfold st1; rewrite length_app; simpl; lia).
  assert (L2 : length st2 = S (S (length st)))
    by (unfold st2; rewrite length_app; simpl; lia).
  set (s0 := {| store := st2; countLeft := 0; countRight := 0;
                indicesLeft := []; indicesRight := [] |}).
  destruct (sampleLoop _ _ _ _ _ _ s0 _) as [s'|] eqn:E; cbn [bind];
    [|discriminate].
  intros H. inversion H. subst st' out. clear H.
  destruct (@sampleLoop_keeps p (lapsOf (rawSamples p) left)
              (lapsOf (rawSamples p) right)
              (jsMax (1 # 10) (jsMin (clampScale p) 1))
              (length st) (length st1)
              ltac:(lia) (seq 0 (length (centerline p))) i s0 s')
    as [A B];
    [cbn [store s0]; lia | cbn [store s0]; lia | exact E |].
  cbn [outLeft outRight store s0] in *.
  split.
  - intros Hidle. rewrite (A Hidle).
    unfold st2. rewrite arrayAt_app_old by lia.
    unfold st1. rewrite arrayAt_app_new. reflexivity.
  - intros Hr Hidle. rewrite (B Hidle).
    unfold st2. rewrite arrayAt_app_new.
    unfold st1. rewrite arrayAt_app_old by assumption. reflexivity.
Qed.

End ConstraintFacts.

Lemma safeScale_in_range (clampScale : Q) :
  1 # 10 <= clampScale -> clampScale <= 1 ->
  jsMax (1 # 10) (jsMin clampScale 1) == clampScale.
Proof.
  intros H1 H2. unfold jsMax, jsMin.
  case_lt 1 clampScale; [exfalso; lra|].
  case_lt (1 # 10) clampScale; lra.
Qed.

(** C1 (as the code has it). For every centerline, normal array, raw lap
    set, pair of input arrays and every [clampScale] in [0.1, 1]: at every
    sample index where the maximum projection of the raw lap points of a
    side onto the normal is positive, the output half-width of that side
    is at most that maximum times [clampScale]; where no raw lap point of
    the side projects positively (which covers a side without laps and
    laps without a point at the index) the output half-width is the input
    half-width.  (The function returns whenever there is one normal per
    sample.) *)
Theorem guardrail_within_projection (st : Constraints.Store)
  (p : Constraints.Params) :
  1 # 10 <= Constraints.clampScale p ->
  Constraints.clampScale p <= 1 ->
  (length (Constraints.normals p) = length (Constraints.centerline p) ->
   exists st' out, Constraints.enforceWidthConstraints st p = Ok (st', out))
  /\ (forall st' out,
       Constraints.enforceWidthConstraints st p = Ok (st', out) ->
       forall i center normal m v,
         nth_error (Constraints.centerline p) i = Some center ->
         nth_error (Constraints.normals p) i = Some normal ->
         0 < m ->
         (isMaximum m
            (Constraints.projections
               (Constraints.lapsOf (Constraints.rawSamples p) Constraints.left)
               false center normal i) ->
          nth_error (Constraints.arrayAt st' (Constraints.outLeft out)) i
          = Some v ->
          v <= m * Constraints.clampScale p)
         /\ (isMaximum m
               (Constraints.projections
                  (Constraints.lapsOf (Constraints.rawSamples p)
                     Constraints.right)
                  true center normal i) ->
             nth_error (Constraints.arrayAt st' (Constraints.outRight out)) i
             = Some v ->
             v <= m * Constraints.clampScale p))
  /\ (forall st' out,
        Constraints.enforceWidthConstraints st p = Ok (st', out) ->
        forall i center normal,
          nth_error (Constraints.centerline p) i = Some center ->
          nth_error (Constraints.normals p) i = Some normal ->
          ((forall q,
              In q (Constraints.projections
                      (Constraints.lapsOf (Constraints.rawSamples p)
                         Constraints.left)
                      false center normal i) -> q <= 0) ->
           nth_error (Constraints.arrayAt st' (Constraints.outLeft out)) i
           = nth_error (Constraints.arrayAt st (Constraints.halfWidthLeft p)) i)
          /\ ((Constraints.halfWidthRight p < length st)%nat ->
              (forall q,
                 In q (Constraints.projections
                         (Constraints.lapsOf (Constraints.rawSamples p)
                            Constraints.right)
                         true center normal i) -> q <= 0) ->
              nth_error (Constraints.arrayAt st' (Constraints.outRight out)) i
              = nth_error
                  (Constraints.arrayAt st (Constraints.halfWidthRight p)) i)).
Proof.
  intros Hlo Hhi. pose proof (safeScale_in_range Hlo Hhi) as Hs.
  split; [apply enforceWidthConstraints_total|]. split.
  - intros st' out E.
    destruct (@enforceWidthConstraints_ok st st' p out E)
      as [_ [_ [_ [_ [_ [_ Hb]]]]]].
    intros i center normal m v Hc Hnrm Hm.
    assert (Hi : (i < length (Constraints.centerline p))%nat)
      by (apply nth_error_Some; congruence).
    destruct (Hb i Hi) as [Bl Br].
    assert (Hside :
      forall laps negate target,
        bounded p (jsMax (1 # 10) (jsMin (Constraints.clampScale p) 1))
                laps negate target st' i ->
        isMaximum m (Constraints.projections laps negate center normal i) ->
        nth_error (Constraints.arrayAt st' target) i = Some v ->
        v <= m * Constraints.clampScale p).
    { intros laps negate target B [Hin Hmax] Hv.
      destruct (lapLimit_spec negate center normal i laps 0)
        as [limit [El [Hge [Hall Hor]]]].
      assert (Hml : m <= limit) by auto.
      assert (Hlm : limit <= m).
      { destruct Hor as [->|Hor]; [exfalso; lra | auto]. }
      assert (Hne : laps <> []) by (intros ->; destruct Hin).
      assert (Hpos : 0 < limit * jsMax (1 # 10)
                                   (jsMin (Constraints.clampScale p) 1))
        by (rewrite Hs; nra).
      rewrite <- Hnrm in El.
      specialize (B center limit v Hc Hne El Hpos Hv).
      rewrite Hs in B. nra. }
    split; apply Hside; assumption.
  - intros st' out E i center normal Hc Hnrm.
    destruct (@enforceWidthConstraints_idle st st' p out i E) as [Kl Kr].
    assert (Hside :
      forall laps negate,
        (forall q,
            In q (Constraints.projections laps negate center normal i) ->
            q <= 0) ->
        idle p (jsMax (1 # 10) (jsMin (Constraints.clampScale p) 1))
             laps negate i).
    { intros laps negate Hall c0 limit Hc0 Hne Hl.
      rewrite Hc in Hc0. injection Hc0 as <-. rewrite Hnrm in Hl.
      destruct (lapLimit_spec negate center normal i laps 0)
        as [limit' [El [Hge [_ Hor]]]].
      rewrite El in Hl. injection Hl as <-.
      assert (Hle : limit' <= 0)
        by (destruct Hor as [->|Hor]; [apply Qle_refl | auto]).
      rewrite Hs. nra. }
    split.
    + intros Hall. apply Kl, Hside, Hall.
    + intros Hr Hall. apply (Kr Hr), Hside, Hall.
Qed.

Lemma guardrail_within_projection_witness :
  (let p := Examples.guardrailParams (Constraints.mkLapPoint 0 4)
              (Constraints.mkLapPoint 0 (-6)) in
   exists st' out,
     Constraints.enforceWidthConstraints Examples.smoothedWidths p
     = Ok (st', out)
     /\ (forall v,
           nth_error (Constraints.arrayAt st' (Constraints.outLeft out)) 0
           = Some v -> v <= 4 * 1)
     /\ (forall v,
           nth_error (Constraints.arrayAt st' (Constraints.outRight out)) 0
           = Some v -> v <= 6 * 1))
  /\ (let p := Examples.guardrailParams (Constraints.mkLapPoint 0 (-1))
                 (Constraints.mkLapPoint 0 (-6)) in
      exists st' out,
        Constraints.enforceWidthConstraints Examples.smoothedWidths p
        = Ok (st', out)
        /\ nth_error (Constraints.arrayAt st' (Constraints.outLeft out)) 0
           = Some 5).
Proof.
  cbv zeta. split.
  - destruct (@guardrail_within_projection Examples.smoothedWidths
                (Examples.guardrailParams (Constraints.mkLapPoint 0 4)
                   (Constraints.mkLapPoint 0 (-6)))
                ltac:(vm_compute; discriminate)
                ltac:(vm_compute; discriminate))
      as [Hret [H _]].
    destruct (Hret eq_refl) as [st' [out E]].
    exists st', out. split; [exact E|].
    split; intros v Hv.
    + refine (proj1 (H st' out E 0%nat (0, 0) (0, 1) 4 v
                       eq_refl eq_refl eq_refl) _ Hv).
      split; [left; reflexivity|].
      intros q [<-|[]]. vm_compute. discriminate.
    + refine (proj2 (H st' out E 0%nat (0, 0) (0, 1) 6 v
                       eq_refl eq_refl eq_refl) _ Hv).
      split; [left; vm_compute; reflexivity|].
      intros q [<-|[]]. vm_compute. discriminate.
  - destruct (@guardrail_within_projection Examples.smoothedWidths
                (Examples.guardrailParams (Constraints.mkLapPoint 0 (-1))
                   (Constraints.mkLapPoint 0 (-6)))
                ltac:(vm_compute; discriminate)
                ltac:(vm_compute; discriminate))
      as [Hret [_ K]].
    destruct (Hret eq_refl) as [st' [out E]].
    exists st', out. split; [exact E|].
    refine (proj1 (K st' out E 0%nat (0, 0) (0, 1) eq_refl eq_refl) _).
    intros q [<-|[]]. vm_compute. discriminate.
Defined.

(** C1 as worded fails where no raw lap point projects positively: the
    only left lap point lies on the right of the centerline (projection
    -1), the limit stays 0, nothing is clamped, and the output half-width
    5 exceeds the maximum projection times [clampScale]. *)
Lemma guardrail_counterexample :
  let p := Examples.guardrailParams (Constraints.mkLapPoint 0 (-1))
             (Constraints.mkLapPoint 0 (-6)) in
  1 # 10 <= Constraints.clampScale p <= 1
  /\ Constraints.projections
       (Constraints.lapsOf (Constraints.rawSamples p) Constraints.left)
       false (0, 0) (0, 1) 0 = [(0 - 0) * 0 + (-1 - 0) * 1]
  /\ exists st' out,
       Constraints.enforceWidthConstraints Examples.smoothedWidths p
       = Ok (st', out)
       /\ nth_error (Constraints.arrayAt st' (Constraints.outLeft out)) 0
          = Some 5
       /\ ~ 5 <= ((0 - 0) * 0 + (-1 - 0) * 1) * Constraints.clampScale p.
Proof.
  cbv zeta. split; [split; vm_compute; discriminate|].
  split; [reflexivity|].
  eexists. eexists. split; [vm_compute; reflexivity|].
  split; [reflexivity|]. vm_compute. intros H. apply H. reflexivity.
Qed.

(** C10. [enforceWidthConstraints] never increases a half-width: each
    output array is its input array with entries kept or lowered, index for
    index; the input arrays, like every array that existed before the
    call, are left as they were, and the results are two fresh arrays.
    (The function returns whenever there is one normal per sample.) *)
Theorem guardrail_never_widens (st : Constraints.Store)
  (p : Constraints.Params) :
  (Constraints.halfWidthLeft p < length st)%nat ->
  (Constraints.halfWidthRight p < length st)%nat ->
  (length (Constraints.normals p) = length (Constraints.centerline p) ->
   exists st' out, Constraints.enforceWidthConstraints st p = Ok (st', out))
  /\ forall st' out,
       Constraints.enforceWidthConstraints st p = Ok (st', out) ->
       Forall2 Qle (Constraints.arrayAt st' (Constraints.outLeft out))
         (Constraints.arrayAt st (Constraints.halfWidthLeft p))
       /\ Forall2 Qle (Constraints.arrayAt st' (Constraints.outRight out))
            (Constraints.arrayAt st (Constraints.halfWidthRight p))
       /\ (forall a, (a < length st)%nat ->
                     Constraints.arrayAt st' a = Constraints.arrayAt st a)
       /\ (length st <= Constraints.outLeft out < length st')%nat
       /\ (length st <= Constraints.outRight out < length st')%nat
       /\ Constraints.outLeft out <> Constraints.outRight out.
Proof.
  intros Hl Hr. split; [apply enforceWidthConstraints_total|].
  intros st' out E.
  destruct (@enforceWidthConstraints_ok st st' p out E)
    as [Ol [Or [Len [Frame [Ll [Lr _]]]]]].
  split; [exact Ll|]. split; [exact (Lr Hr)|]. split; [exact Frame|].
  rewrite Ol, Or, Len. lia.
Qed.

Lemma guardrail_never_widens_witness :
  let p := Examples.guardrailParams (Constraints.mkLapPoint 0 4)
             (Constraints.mkLapPoint 0 (-6)) in
  exists st' out,
    Constraints.enforceWidthConstraints Examples.smoothedWidths p
    = Ok (st', out)
    /\ Forall2 Qle (Constraints.arrayAt st' (Constraints.outLeft out)) [5]
    /\ Forall2 Qle (Constraints.arrayAt st' (Constraints.outRight out)) [7]
    /\ Constraints.arrayAt st' 0%nat = [5]
    /\ Constraints.arrayAt st' 1%nat = [7].
Proof.
  cbv zeta.
  destruct (@guardrail_never_widens Examples.smoothedWidths
              (Examples.guardrailParams (Constraints.mkLapPoint 0 4)
                 (Constraints.mkLapPoint 0 (-6)))
              ltac:(simpl; lia) ltac:(simpl; lia))
    as [Hret H].
  destruct (Hret eq_refl) as [st' [out E]].
  destruct (H st' out E) as [Hl [Hr [Hf _]]].
  exists st', out. split; [exact E|]. split; [exact Hl|].
  split; [exact Hr|].
  split; [apply (Hf 0%nat) | apply (Hf 1%nat)]; simpl; lia.
Defined.

(* ================================================================== *)
(** * Further properties of the code *)

(** ** The resampler: search, progress and grid ends *)

Lemma nondecreasing_tail (a : Q) (l : list Q) :
  nondecreasing (a :: l) -> nondecreasing l.
Proof. destruct l; simpl; tauto. Qed.

Lemma nondecreasing_head (l : list Q) :
  forall a b k, nondecreasing (a :: l) -> nth_error (a :: l) k = Some b -> a <= b.
Proof.
  induction l as [|c l IH]; intros a b k H Hk.
  - destruct k as [|[|k]]; simpl in Hk; try discriminate.
    injection Hk as <-. lra.
  - destruct k as [|k]; simpl in Hk.
    + injection Hk as <-. lra.
    + destruct H as [H1 H2]. pose proof (IH c b k H2 Hk). lra.
Qed.

Lemma nondecreasing_nth (l : list Q) :
  nondecreasing l ->
  forall i j a b, (i <= j)%nat ->
    nth_error l i = Some a -> nth_error l j = Some b -> a <= b.
Proof.
  induction l as [|c l IH]; intros H i j a b Hij Hi Hj.
  - destruct i; discriminate.
  - destruct i as [|i].
    + simpl in Hi. injection Hi as <-. eapply nondecreasing_head; eauto.
    + destruct j as [|j]; [lia|]. simpl in Hi, Hj.
      apply (IH (@nondecreasing_tail c l H) i j); auto. lia.
Qed.

Section SearchFacts.
Import Resampler.
Variable arr : list Q.
Variable t : Q.
Hypothesis sorted : nondecreasing arr.

Lemma binarySearchLoop_partition :
  forall fuel left right r,
    (left <= right <= length arr)%nat ->
    (forall k a, (k < left)%nat -> nth_error arr k = Some a -> a < t) ->
    (forall k a, (right <= k)%nat -> nth_error arr k = Some a -> t <= a) ->
    binarySearchLoop fuel arr (Some t) left right = Ok r ->
    (left <= r <= right)%nat
    /\ (forall k a, (k < r)%nat -> nth_error arr k = Some a -> a < t)
    /\ (forall k a, (r <= k)%nat -> nth_error arr k = Some a -> t <= a).
Proof.
  induction fuel as [|fuel IH]; intros left right r Hb Hl Hr;
    cbn [binarySearchLoop]; destruct (left <? right)%nat eqn:E;
    try discriminate.
  - intros H. inversion H; subst r. apply Nat.ltb_ge in E.
    assert (left = right) by lia. subst right. auto.
  - apply Nat.ltb_lt in E.
    pose proof (Nat.div_mod_eq (left + right) 2) as Hd.
    pose proof (Nat.mod_upper_bound (left + right) 2) as Hm.
    set (mid := ((left + right) / 2)%nat) in *.
    assert (Hmid : (left <= mid < right)%nat) by lia.
    destruct (nth_error arr mid) as [m|] eqn:Em;
      [|apply nth_error_None in Em; lia].
    cbn [nlt]. destruct (Qlt_bool m t) eqn:Ec.
    + apply Qlt_bool_iff in Ec. intros H.
      apply IH in H; [intuition lia| lia | | exact Hr].
      intros k a Hk Ha.
      assert (a <= m) by (apply (@nondecreasing_nth arr sorted k mid a m); auto; lia). lra.
    + apply Qlt_bool_false in Ec. intros H.
      apply IH in H; [intuition lia| lia | exact Hl |].
      intros k a Hk Ha.
      assert (m <= a) by (apply (@nondecreasing_nth arr sorted mid k m a); auto; lia). lra.
  - intros H. inversion H; subst r. apply Nat.ltb_ge in E.
    assert (left = right) by lia. subst right. auto.
Qed.

Lemma binarySearchGE_partition :
  exists r,
    binarySearchGE arr (Some t) = Ok r
    /\ (r <= length arr)%nat
    /\ (forall k a, (k < r)%nat -> nth_error arr k = Some a -> a < t)
    /\ (forall k a, (r <= k)%nat -> nth_error arr k = Some a -> t <= a).
Proof.
  destruct (binarySearchGE_total arr (Some t)) as [r Hr].
  exists r. split; [exact Hr|].
  unfold binarySearchGE in Hr.
  apply binarySearchLoop_partition in Hr.
  - intuition lia.
  - lia.
  - intros k a Hk. lia.
  - intros k a Hk Ha.
    assert (nth_error arr k <> None) by congruence.
    apply nth_error_Some in H. lia.
Qed.
End SearchFacts.

(** X1. On an array in non-decreasing order [binarySearchGE] returns the
    lower bound of a finite target: an index [r <= arr.length] such that
    every element before [r] is below the target and every element from
    [r] on is at least the target ([arr.length] when no element is). *)
Theorem binarySearchGE_lower_bound (arr : list Q) (t : Q) :
  nondecreasing arr ->
  exists r,
    Resampler.binarySearchGE arr (Some t) = Ok r
    /\ (r <= length arr)%nat
    /\ (forall k a, (k < r)%nat -> nth_error arr k = Some a -> a < t)
    /\ (forall k a, (r <= k)%nat -> nth_error arr k = Some a -> t <= a).
Proof. intros H. apply binarySearchGE_partition; exact H. Qed.

(** X1 on the array [0, 0.5, 0.5, 1] and the target 0.5. *)
Lemma binarySearchGE_lower_bound_witness :
  exists r,
    Resampler.binarySearchGE [0; 1 # 2; 1 # 2; 1] (Some (1 # 2)) = Ok r
    /\ (r <= 4)%nat
    /\ (forall k a, (k < r)%nat ->
          nth_error [0; 1 # 2; 1 # 2; 1] k = Some a -> a < 1 # 2)
    /\ (forall k a, (r <= k)%nat ->
          nth_error [0; 1 # 2; 1 # 2; 1] k = Some a -> 1 # 2 <= a).
Proof.
  apply (@binarySearchGE_lower_bound [0; 1 # 2; 1 # 2; 1] (1 # 2)).
  simpl. repeat split; lra.
Defined.

Section ProgressFacts.
Import Resampler.

Lemma increasing_nondecreasing (l : list Q) : increasing l -> nondecreasing l.
Proof.
  induction l as [|a [|b l] IH]; simpl; auto.
  intros [H1 H2]. split; [lra|]. apply IH. exact H2.
Qed.

Lemma nondecreasing_map (f : Q -> Q) (l : list Q) :
  (forall a b, a <= b -> f a <= f b) ->
  nondecreasing l -> nondecreasing (map f l).
Proof.
  intros Hf. induction l as [|a [|b l] IH]; simpl; auto.
  intros [H1 H2]. split; [apply Hf; exact H1|]. apply IH. exact H2.
Qed.

Lemma increasing_map (f : Q -> Q) (l : list Q) :
  (forall a b, a < b -> f a < f b) ->
  increasing l -> increasing (map f l).
Proof.
  intros Hf. induction l as [|a [|b l] IH]; simpl; auto.
  intros [H1 H2]. split; [apply Hf; exact H1|]. apply IH. exact H2.
Qed.

Lemma last_map_cons (f : Q -> Q) (l : list Q) (a d d' : Q) :
  last (map f (a :: l)) d = f (last (a :: l) d').
Proof.
  revert a. induction l as [|b l IH]; intros a; [reflexivity|].
  change (last (map f (a :: b :: l)) d) with (last (map f (b :: l)) d).
  change (last (a :: b :: l) d') with (last (b :: l) d').
  apply IH.
Qed.

Lemma nth_last_cons (l : list Q) (a d : Q) :
  nth_error (a :: l) (length l) = Some (last (a :: l) d).
Proof.
  revert a. induction l as [|b l IH]; intros a; [reflexivity|].
  change (last (a :: b :: l) d) with (last (b :: l) d).
  simpl length. change (nth_error (a :: b :: l) (S (length l)))
    with (nth_error (b :: l) (length l)). apply IH.
Qed.

Lemma nondecreasing_last (l : list Q) (a v : Q) :
  nondecreasing (a :: l) -> In v (a :: l) -> a <= v /\ v <= last (a :: l) a.
Proof.
  intros H Hin. apply In_nth_error in Hin. destruct Hin as [k Hk].
  split.
  - apply (@nondecreasing_nth (a :: l) H 0%nat k a v); auto. lia.
  - assert (Hlen : (k < length (a :: l))%nat)
      by (apply nth_error_Some; congruence).
    simpl in Hlen.
    apply (@nondecreasing_nth (a :: l) H k (length l) v
             (last (a :: l) a)); auto; [lia|].
    apply nth_last_cons.
Qed.

Lemma progress_ratio (m span d : Q) :
  0 < span -> m <= d -> d <= m + span ->
  0 <= (d - m) / span /\ (d - m) / span <= 1.
Proof.
  intros Hs H1 H2. unfold Qdiv.
  pose proof (Qinv_lt_0_compat span Hs) as Hi.
  assert (He : span * / span == 1) by (apply Qmult_inv_r; lra).
  split; nra.
Qed.

Lemma normalizeToProgress_positive_span (m : Q) (rest : list Q) :
  m < last (m :: rest) m ->
  normalizeToProgress (m :: rest)
  = map (fun d => (d - m) / (last (m :: rest) m - m)) (m :: rest).
Proof.
  intros H. unfold normalizeToProgress.
  destruct (Qeq_bool (last (m :: rest) m - m) 0) eqn:E; [|reflexivity].
  apply Qeq_bool_iff in E. lra.
Qed.

Lemma normalizeToProgress_facts (cd : list Q) :
  nondecreasing cd ->
  hd 0 cd < last cd 0 ->
  let p := normalizeToProgress cd in
  hd 0 p == 0 /\ last p 0 == 1 /\ nondecreasing p
  /\ Forall (fun v => 0 <= v /\ v <= 1) p
  /\ (increasing cd -> increasing p).
Proof.
  intros Hs Hspan. destruct cd as [|m rest]; [simpl in Hspan; lra|].
  rewrite (last_cons_default rest m 0 m) in Hspan. simpl hd in Hspan.
  cbv zeta. rewrite (normalizeToProgress_positive_span _ Hspan).
  set (span := last (m :: rest) m - m).
  assert (Hp : 0 < span) by (unfold span; lra).
  pose proof (Qinv_lt_0_compat span Hp) as Hi.
  assert (He : span * / span == 1) by (apply Qmult_inv_r; lra).
  split; [|split; [|split; [|split]]].
  - simpl. unfold Qdiv. nra.
  - rewrite (last_map_cons _ rest m 0 m). unfold span, Qdiv in *. nra.
  - apply nondecreasing_map; [|exact Hs].
    intros a b Hab. unfold Qdiv. nra.
  - apply Forall_forall. intros v Hv. apply in_map_iff in Hv.
    destruct Hv as [d [<- Hd]].
    destruct (@nondecreasing_last rest m d Hs Hd) as [H1 H2].
    apply progress_ratio; [exact Hp| exact H1| unfold span; lra].
  - apply increasing_map. intros a b Hab. unfold Qdiv. nra.
Qed.

End ProgressFacts.

(** X2. For cumulative distances in non-decreasing order whose last entry
    is above the first, [normalizeToProgress] starts at 0, ends at 1, is
    non-decreasing and stays within [0, 1]. *)
Theorem normalizeToProgress_unit_interval (cd : list Q) :
  nondecreasing cd ->
  hd 0 cd < last cd 0 ->
  let p := Resampler.normalizeToProgress cd in
  hd 0 p == 0 /\ last p 0 == 1 /\ nondecreasing p
  /\ Forall (fun v => 0 <= v /\ v <= 1) p.
Proof.
  intros Hs Hspan.
  destruct (normalizeToProgress_facts cd Hs Hspan) as [H1 [H2 [H3 [H4 _]]]].
  auto.
Qed.

(** X2 on the distances [0, 5, 10]. *)
Lemma normalizeToProgress_unit_interval_witness :
  let p := Resampler.normalizeToProgress [0; 5; 10] in
  hd 0 p == 0 /\ last p 0 == 1 /\ nondecreasing p
  /\ Forall (fun v => 0 <= v /\ v <= 1) p.
Proof.
  apply (@normalizeToProgress_unit_interval [0; 5; 10]).
  - simpl. repeat split; lra.
  - simpl. lra.
Defined.

Section EndpointFacts.
Import Resampler.

Lemma mapM_nth {A B : Type} (f : A -> Res B) (l : list A) :
  forall (r : list B) (i : nat) (a : A),
    mapM f l = Ok r -> nth_error l i = Some a ->
    exists b, nth_error r i = Some b /\ f a = Ok b.
Proof.
  induction l as [|x l IH]; intros r i a H Hi.
  - destruct i; discriminate.
  - cbn [mapM] in H. destruct (f x) as [b|] eqn:Ef; simpl in H; [|discriminate].
    destruct (mapM f l) as [bs|] eqn:Em; simpl in H; [|discriminate].
    inversion H; subst r. destruct i as [|i]; simpl in Hi |- *.
    + inversion Hi; subst. eauto.
    + eapply IH; eauto.
Qed.

Lemma increasing_tail (a : Q) (l : list Q) : increasing (a :: l) -> increasing l.
Proof. destruct l; simpl; tauto. Qed.

Lemma increasing_head (l : list Q) :
  forall a b k, increasing (a :: l) -> nth_error l k = Some b -> a < b.
Proof.
  induction l as [|c l IH]; intros a b k H Hk.
  - destruct k; discriminate.
  - destruct H as [H1 H2]. destruct k as [|k]; simpl in Hk.
    + injection Hk as <-. exact H1.
    + pose proof (IH c b k H2 Hk). lra.
Qed.

Lemma increasing_nth (l : list Q) :
  increasing l ->
  forall i j a b, (i < j)%nat ->
    nth_error l i = Some a -> nth_error l j = Some b -> a < b.
Proof.
  induction l as [|c l IH]; intros H i j a b Hij Hi Hj.
  - destruct i; discriminate.
  - destruct j as [|j]; [lia|]. destruct i as [|i]; simpl in Hi, Hj.
    + injection Hi as <-. eapply increasing_head; eauto.
    + apply (IH (@increasing_tail c l H) i j); auto. lia.
Qed.

Lemma binarySearchLoop_nan (arr : list Q) :
  forall fuel right, (right <= fuel)%nat ->
    binarySearchLoop fuel arr None 0 right = Ok 0%nat.
Proof.
  induction fuel as [|fuel IH]; intros right H; cbn [binarySearchLoop].
  - assert (right = 0%nat) by lia. subst. reflexivity.
  - destruct (0 <? right)%nat eqn:E; [|reflexivity].
    apply Nat.ltb_lt in E.
    replace (nlt (nth_error arr ((0 + right) / 2)) None) with false
      by (destruct (nth_error arr ((0 + right) / 2)); reflexivity).
    apply IH.
    pose proof (Nat.div_mod_eq (0 + right) 2) as Hd.
    pose proof (Nat.mod_upper_bound (0 + right) 2) as Hm. lia.
Qed.

Lemma nth_error_hd (l : list Q) (d : Q) :
  l <> [] -> nth_error l 0 = Some (hd d l).
Proof. destruct l; [congruence | reflexivity]. Qed.

Lemma nth_error_last (l : list Q) (d : Q) :
  l <> [] -> nth_error l (length l - 1) = Some (last l d).
Proof.
  destruct l as [|a l]; [congruence|]. intros _.
  replace (length (a :: l) - 1)%nat with (length l) by (simpl; lia).
  apply nth_last_cons.
Qed.

Lemma nth_error_last_default {A : Type} (l : list A) :
  forall a, nth_error (a :: l) (length l) = Some (last l a).
Proof.
  induction l as [|b r IH]; intros a; [reflexivity|].
  change (nth_error (a :: b :: r) (length (b :: r)))
    with (nth_error (b :: r) (length r)).
  rewrite IH. destruct r as [|c r]; [reflexivity|].
  f_equal. apply (last_cons_default r c b a).
Qed.

Lemma calculateCumulativeDistance_map (l : list Sample) :
  calculateCumulativeDistance l = map distance l.
Proof. destruct l; reflexivity. Qed.

Lemma uniform_target (gridSize i : nat) :
  (2 <= gridSize)%nat ->
  ndiv (Some (ofNat i)) (Some (ofNat gridSize - 1))
  = Some (ofNat i / (ofNat gridSize - 1))
  /\ 0 < ofNat gridSize - 1.
Proof.
  intros H.
  assert (Hp : 0 < ofNat gridSize - 1).
  { unfold ofNat. 
    assert (1 < inject_Z (Z.of_nat gridSize)).
    { change 1 with (inject_Z 1). rewrite <- Zlt_Qlt. lia. }
    lra. }
  split; [|exact Hp]. unfold ndiv.
  destruct (Qeq_bool (ofNat gridSize - 1) 0) eqn:E; [|reflexivity].
  apply Qeq_bool_iff in E. lra.
Qed.

Lemma valid_coordinates (l : list Sample) (s : Sample) :
  In s (filter validSample l) ->
  exists vx vy, sample_x s = Some vx /\ getPlanarY s = Some vy.
Proof.
  intros H. apply filter_In in H. destruct H as [_ H].
  unfold validSample in H.
  destruct (sample_x s); [|discriminate].
  destruct (getPlanarY s); [|discriminate]. eauto.
Qed.

End EndpointFacts.

(** X3. When the samples that carry coordinates have strictly increasing
    distances, the grid [resampleOnGrid] returns for a grid size of at
    least 2 starts at the first of them and ends at the last: point 0 has
    the coordinates of the first valid sample and point [gridSize - 1]
    those of the last one. *)
Theorem resampleOnGrid_endpoints (l : list Resampler.Sample) (gridSize : nat)
  (first final : Resampler.Sample) (rest : list Resampler.Sample) :
  filter Resampler.validSample l = first :: rest ->
  last rest first = final ->
  rest <> [] ->
  increasing (map Resampler.distance (first :: rest)) ->
  (2 <= gridSize)%nat ->
  exists grid p0 pN qx qy fx fy,
    Resampler.resampleOnGrid l gridSize = Ok grid
    /\ nth_error grid 0 = Some p0
    /\ Resampler.gx p0 = Resampler.sample_x first
    /\ Resampler.gy p0 = Resampler.getPlanarY first
    /\ nth_error grid (gridSize - 1) = Some pN
    /\ Resampler.gx pN = Some qx /\ Resampler.gy pN = Some qy
    /\ Resampler.sample_x final = Some fx
    /\ Resampler.getPlanarY final = Some fy
    /\ qx == fx /\ qy == fy.
Proof.
  intros Hvalid Hfinal Hrest Hinc Hg.
  set (valid := first :: rest) in *.
  assert (Hlen : (2 <= length valid)%nat)
    by (destruct rest; [congruence | simpl; lia]).
  set (cd := map Resampler.distance valid) in *.
  set (prog := Resampler.normalizeToProgress cd).
  assert (Hplen : length prog = length valid).
  { unfold prog, cd. rewrite normalizeToProgress_length. apply length_map. }
  (* the run returns *)
  assert (Hrun : Resampler.resampleOnGrid l gridSize
                 = mapM (Resampler.resamplePoint valid prog gridSize)
                        (seq 0 gridSize)).
  { unfold Resampler.resampleOnGrid. rewrite Hvalid. fold valid.
    destruct (length valid <? 2)%nat eqn:E; [apply Nat.ltb_lt in E; lia|].
    rewrite calculateCumulativeDistance_map. reflexivity. }
  destruct (@mapM_total _ _ (Resampler.resamplePoint valid prog gridSize)
              (seq 0 gridSize)) as [grid Hgrid].
  { intros a _. apply resamplePoint_total; assumption. }
  (* the progress array *)
  assert (Hspan : hd 0 cd < last cd 0).
  { unfold cd, valid. simpl map. simpl hd.
    destruct rest as [|s2 rest']; [congruence|].
    apply (@increasing_nth _ Hinc 0%nat (length (map Resampler.distance (s2 :: rest')))).
    - simpl. lia.
    - reflexivity.
    - apply nth_last_cons. }
  destruct (@normalizeToProgress_facts cd
              (increasing_nondecreasing _ Hinc) Hspan)
    as [Hhd [Hlast [Hnd [_ Hin]]]].
  specialize (Hin Hinc).
  fold prog in Hhd, Hlast, Hnd, Hin.
  assert (Hne : prog <> []) by (intros E; rewrite E in Hplen; simpl in Hplen; lia).
  pose proof (nth_error_hd 0 Hne) as Hfirst.
  pose proof (nth_error_last 0 Hne) as Hfinal'.
  rewrite Hplen in Hfinal'.
  destruct (nth_error prog (length valid - 2)) as [pm|] eqn:Epm;
    [|apply nth_error_None in Epm; lia].
  assert (Hpm : pm < last prog 0).
  { apply (@increasing_nth prog Hin (length valid - 2) (length valid - 1));
      auto. lia. }
  destruct (@uniform_target gridSize 0 Hg) as [Ht0 Hden].
  destruct (@uniform_target gridSize (gridSize - 1) Hg) as [HtN _].
  destruct (@mapM_nth _ _ _ (seq 0 gridSize) grid 0%nat 0%nat Hgrid)
    as [q0 [Hq0 Hf0]].
  { destruct gridSize; [lia|reflexivity]. }
  destruct (@mapM_nth _ _ _ (seq 0 gridSize) grid (gridSize - 1)%nat
              (gridSize - 1)%nat Hgrid) as [qN [HqN HfN]].
  { rewrite nth_error_seq. destruct (gridSize - 1 <? gridSize)%nat eqn:E;
      [reflexivity | apply Nat.ltb_ge in E; lia]. }
  assert (Hs0 : nth_error valid 0 = Some first) by reflexivity.
  assert (HsN : nth_error valid (length valid - 1) = Some final).
  { unfold valid. replace (length (first :: rest) - 1)%nat with (length rest)
      by (simpl; lia).
    subst final. apply nth_error_last_default. }
  destruct (nth_error valid (length valid - 2)) as [sm|] eqn:Esm;
    [|apply nth_error_None in Esm; lia].
  destruct (@valid_coordinates l sm) as [mx [my [Hmx Hmy]]].
  { rewrite Hvalid. fold valid. eapply nth_error_In; eauto. }
  destruct (@valid_coordinates l final) as [fx [fy [Hfx Hfy]]].
  { rewrite Hvalid. fold valid. eapply nth_error_In; eauto. }
  (* the first point *)
  unfold Resampler.resamplePoint in Hf0. rewrite Ht0 in Hf0.
  destruct (@binarySearchGE_partition prog (ofNat 0 / (ofNat gridSize - 1)) Hnd)
    as [r0 [Hr0 [_ [Hlt0 _]]]].
  rewrite Hr0 in Hf0. cbn [bind] in Hf0.
  assert (r0 = 0%nat).
  { destruct r0 as [|r0]; [reflexivity|]. exfalso.
    pose proof (Hlt0 0%nat _ (Nat.lt_0_succ r0) Hfirst) as Hc.
    unfold ofNat in Hc. simpl Z.of_nat in Hc. unfold Qdiv in Hc.
    rewrite Qmult_0_l in Hc. lra. }
  subst r0. cbn [Nat.eqb] in Hf0. unfold elemAt in Hf0. rewrite Hs0 in Hf0.
  cbn [bind] in Hf0. injection Hf0 as Hf0.
  (* the last point *)
  unfold Resampler.resamplePoint in HfN. rewrite HtN in HfN.
  set (tN := ofNat (gridSize - 1) / (ofNat gridSize - 1)) in *.
  assert (HtN1 : tN == 1).
  { unfold tN.
    assert (E : ofNat (gridSize - 1) == ofNat gridSize - 1).
    { unfold ofNat. replace (Z.of_nat (gridSize - 1)) with (Z.of_nat gridSize - 1)%Z by lia.
      unfold Zminus. rewrite inject_Z_plus, inject_Z_opp. reflexivity. }
    rewrite E. apply Qmult_inv_r. lra. }
  destruct (@binarySearchGE_partition prog tN Hnd)
    as [rN [HrN [_ [HltN HgeN]]]].
  rewrite HrN in HfN. cbn [bind] in HfN.
  assert (rN = (length valid - 1)%nat).
  { destruct (lt_eq_lt_dec rN (length valid - 1)) as [[Hc|Hc]|Hc];
      [exfalso | exact Hc | exfalso].
    - assert (Hle : (rN <= length valid - 2)%nat) by lia.
      pose proof (HgeN _ _ Hle Epm). lra.
    - pose proof (HltN _ _ Hc Hfinal'). lra. }
  subst rN.
  destruct (length valid - 1 =? 0)%nat eqn:E0;
    [apply Nat.eqb_eq in E0; lia|].
  destruct (length prog <=? length valid - 1)%nat eqn:E1;
    [apply Nat.leb_le in E1; lia|].
  replace (length valid - 1 - 1)%nat with (length valid - 2)%nat in HfN by lia.
  rewrite Epm, Hfinal' in HfN. unfold elemAt in HfN.
  rewrite Esm, HsN in HfN. cbn [bind nsub lift2 nlt] in HfN.
  destruct (Qlt_bool 0 (last prog 0 - pm)) eqn:Ec;
    [|apply Qlt_bool_false in Ec; lra].
  unfold ndiv in HfN.
  destruct (Qeq_bool (last prog 0 - pm) 0) eqn:Ez;
    [apply Qeq_bool_iff in Ez; lra|].
  rewrite Hmx, Hmy, Hfx, Hfy in HfN.
  cbn [Resampler.lerp nadd nmul nsub lift2] in HfN. injection HfN as HfN.
  assert (Hone : (tN - pm) / (last prog 0 - pm) == 1).
  { assert (E : tN - pm == last prog 0 - pm) by lra.
    rewrite E. apply Qmult_inv_r. lra. }
  exists grid, q0, qN.
  eexists _, _, fx, fy.
  rewrite Hrun. subst q0 qN. cbn [Resampler.gx Resampler.gy].
  repeat (split; [first [reflexivity | assumption]|]).
  split; rewrite Hone; ring.
Qed.

(** X3 on the three samples of lap A and a grid of 3 points. *)
Lemma resampleOnGrid_endpoints_witness :
  exists grid p0 pN qx qy fx fy,
    Resampler.resampleOnGrid
      (Resampler.samples (Resampler.lap Examples.lapA)) 3 = Ok grid
    /\ nth_error grid 0 = Some p0
    /\ Resampler.gx p0 = Some 0
    /\ Resampler.gy p0 = Some 0
    /\ nth_error grid 2 = Some pN
    /\ Resampler.gx pN = Some qx /\ Resampler.gy pN = Some qy
    /\ Some 10 = Some fx
    /\ Some 10 = Some fy
    /\ qx == fx /\ qy == fy.
Proof.
  apply (@resampleOnGrid_endpoints
           (Resampler.samples (Resampler.lap Examples.lapA)) 3
           (Examples.sampleAt 0 0 0) (Examples.sampleAt 20 10 10)
           [Examples.sampleAt 10 10 0; Examples.sampleAt 20 10 10]).
  - reflexivity.
  - reflexivity.
  - discriminate.
  - simpl. repeat split; lra.
  - lia.
Defined.

(** ** Heading angles *)

(** X4. On every angle between [-2 * Math.PI] and [2 * Math.PI], as every
    difference of two headings is, each loop body of [wrapAngle] runs at
    most once and the result lies in (-PI, PI]: it is the angle itself
    when that lies there, the angle plus [2 * Math.PI] when the angle is
    at most [-PI], and the angle minus [2 * Math.PI] when it is above
    [PI]. *)
Theorem wrapAngle_on_heading_differences (a : Q) :
  - (PI * 2) <= a -> a <= PI * 2 ->
  exists r,
    Resampler.wrapAngle (Some a) = Some r
    /\ - PI < r /\ r <= PI
    /\ ((- PI < a /\ a <= PI /\ r = a)
        \/ (a <= - PI /\ r = a + PI * 2)
        \/ (PI < a /\ r = a - PI * 2)).
Proof.
  intros Hlo Hhi. pose proof PI_positive as Hpi.
  unfold Resampler.wrapAngle, Resampler.wrapFuel.
  cbn [Resampler.wrapUp].
  destruct (Qle_bool a (- PI)) eqn:Eup.
  - apply Qle_bool_iff in Eup.
    rewrite wrapUp_inside by lra. rewrite wrapDown_inside by lra.
    eexists. split; [reflexivity|]. split; [lra|]. split; [lra|].
    right. left. split; [exact Eup | reflexivity].
  - assert (Ha : - PI < a).
    { apply Qnot_le_lt. intros H. apply Qle_bool_iff in H. congruence. }
    cbn [Resampler.wrapDown]. case_lt PI a.
    + rewrite wrapDown_inside by lra.
      eexists. split; [reflexivity|]. split; [lra|]. split; [lra|].
      right. right. split; [exact E | reflexivity].
    + eexists. split; [reflexivity|]. split; [exact Ha|]. split; [exact E|].
      left. auto.
Qed.

(** X4 on the angle 4, which is above [PI]. *)
Lemma wrapAngle_on_heading_differences_witness :
  exists r,
    Resampler.wrapAngle (Some 4) = Some r
    /\ - PI < r /\ r <= PI
    /\ ((- PI < 4 /\ 4 <= PI /\ r = 4)
        \/ (4 <= - PI /\ r = 4 + PI * 2)
        \/ (PI < 4 /\ r = 4 - PI * 2)).
Proof.
  apply (@wrapAngle_on_heading_differences 4); unfold PI; lra.
Defined.

(** ** A run of the resampler *)

Section RunFacts.
Import Resampler.
Variable atan2 : Q -> Q -> Q.
Variable cos : Q -> Q.
Variable sin : Q -> Q.
Variable opts : Options.
Variable gridSize : nat.

Lemma resampleOnGrid_cases (l : list Sample) :
  ((length (filter validSample l) < 2)%nat ->
   resampleOnGrid l gridSize
   = Throw (InsufficientSpatialData (length (filter validSample l))))
  /\ ((2 <= length (filter validSample l))%nat ->
      exists grid, resampleOnGrid l gridSize = Ok grid).
Proof.
  unfold resampleOnGrid. split; intros H.
  - destruct (_ <? 2)%nat eqn:E; [reflexivity|]. apply Nat.ltb_ge in E. lia.
  - destruct (_ <? 2)%nat eqn:E; [apply Nat.ltb_lt in E; lia|].
    apply mapM_total. intros a _. apply resamplePoint_total; [exact H|].
    rewrite normalizeToProgress_length.
    apply calculateCumulativeDistance_length.
Qed.

Lemma lapStep_short (st : LoopState) (c : ClassifiedLap) :
  ~ usable c ->
  lapStep atan2 cos sin opts gridSize st c
  = Throw (InsufficientSpatialData
             (length (filter validSample (samples (lap c))))).
Proof.
  intros H. unfold lapStep.
  destruct (resampleOnGrid_cases (samples (lap c))) as [Hs _].
  rewrite Hs; [reflexivity|]. unfold usable in H. lia.
Qed.

Lemma lapStep_usable (st : LoopState) (c : ClassifiedLap) :
  usable c ->
  exists st' grid,
    lapStep atan2 cos sin opts gridSize st c = Ok st'
    /\ grouped st' = pushGrid (grouped st) (lapType c) grid.
Proof.
  intros H. unfold lapStep.
  destruct (resampleOnGrid_cases (samples (lap c))) as [_ Hs].
  destruct (Hs H) as [grid Hg]. rewrite Hg. cbn [bind].
  destruct (alignHeading opts);
    [|do 2 eexists; split; reflexivity].
  destruct (referenceHeading st);
    [|do 2 eexists; split; reflexivity].
  destruct (Qlt_bool _ _); do 2 eexists; split; reflexivity.
Qed.

Lemma lapLoop_short (laps : list ClassifiedLap) :
  forall st,
    (exists c, In c laps /\ ~ usable c) ->
    exists valid, lapLoop atan2 cos sin opts gridSize st laps
                  = Throw (InsufficientSpatialData valid)
                  /\ (valid < 2)%nat.
Proof.
  induction laps as [|c rest IH]; intros st [c0 [Hin Hc0]]; [destruct Hin|].
  cbn [lapLoop].
  destruct (le_lt_dec 2 (length (filter validSample (samples (lap c)))))
    as [Hu|Hu].
  - destruct (@lapStep_usable st c Hu) as [st' [g [Hs _]]]. rewrite Hs.
    cbn [bind]. apply IH. destruct Hin as [->|Hin]; [contradiction|eauto].
  - rewrite lapStep_short; [cbn [bind]; eauto|]. unfold usable. lia.
Qed.

Lemma groupOf_pushGrid_length (g0 : list (string * list Grid)) (k role : string)
  (grid : Grid) :
  length (groupOf (pushGrid g0 k grid) role)
  = (length (groupOf g0 role) + if String.eqb k role then 1 else 0)%nat.
Proof.
  destruct (String.eqb k role) eqn:E.
  - apply String.eqb_eq in E. subst role. rewrite groupOf_pushGrid_same.
    rewrite length_app. reflexivity.
  - apply String.eqb_neq in E. rewrite groupOf_pushGrid_other; [lia|].
    congruence.
Qed.

Lemma lapLoop_counts (laps : list ClassifiedLap) :
  forall st st',
    lapLoop atan2 cos sin opts gridSize st laps = Ok st' ->
    forall role,
      length (groupOf (grouped st') role)
      = (length (groupOf (grouped st) role) + length (ofType role laps))%nat.
Proof.
  induction laps as [|c rest IH]; intros st st' H role.
  - inversion H. simpl. lia.
  - cbn [lapLoop] in H.
    destruct (le_lt_dec 2 (length (filter validSample (samples (lap c)))))
      as [Hu|Hu].
    + destruct (@lapStep_usable st c Hu) as [st1 [g [Hs Hg]]].
      rewrite Hs in H. cbn [bind] in H.
      rewrite (IH _ _ H role), Hg, groupOf_pushGrid_length.
      unfold ofType. cbn [filter].
      destruct (String.eqb (lapType c) role); simpl; lia.
    + rewrite lapStep_short in H; [discriminate|]. unfold usable. lia.
Qed.

Lemma lapLoop_usable (laps : list ClassifiedLap) :
  forall st,
    Forall usable laps ->
    exists st', lapLoop atan2 cos sin opts gridSize st laps = Ok st'.
Proof.
  induction laps as [|c rest IH]; intros st H; [simpl; eauto|].
  inversion H as [|? ? Hc Hrest]; subst. cbn [lapLoop].
  destruct (@lapStep_usable st c Hc) as [st1 [g [Hs _]]]. rewrite Hs.
  cbn [bind]. apply IH. exact Hrest.
Qed.

End RunFacts.

(** X5. A lap with fewer than two samples that carry coordinates makes the
    whole run throw the resampling error, although the loop that measures
    the lap lengths skips such a lap. *)
Theorem resampleCalibrationLaps_rejects_short_lap (atan2 : Q -> Q -> Q)
  (cos sin : Q -> Q) (laps : list Resampler.ClassifiedLap)
  (opts : Resampler.Options) (c : Resampler.ClassifiedLap) :
  In c laps -> ~ usable c ->
  exists valid,
    Resampler.resampleCalibrationLaps atan2 cos sin laps opts
    = Throw (InsufficientSpatialData valid) /\ (valid < 2)%nat.
Proof.
  intros Hin Hc. unfold Resampler.resampleCalibrationLaps.
  destruct (@lapLoop_short atan2 cos sin opts
              (Resampler.resolveSampleCount opts (Resampler.averageLength laps))
              laps Resampler.initialState) as [valid [Hv Hlt]]; [eauto|].
  exists valid. rewrite Hv. split; [reflexivity | exact Hlt].
Qed.

(** X5 on lap A followed by a lap with a single sample. *)
Lemma resampleCalibrationLaps_rejects_short_lap_witness :
  exists valid,
    Resampler.resampleCalibrationLaps Examples.atan2Q Examples.cosQ
      Examples.sinQ
      [Examples.lapA;
       {| Resampler.lapType := "right";
          Resampler.lap := {| Resampler.samples := [Examples.sampleAt 0 0 0] |};
          Resampler.filename := None |}]
      Examples.threePoints
    = Throw (InsufficientSpatialData valid) /\ (valid < 2)%nat.
Proof.
  apply (@resampleCalibrationLaps_rejects_short_lap Examples.atan2Q
           Examples.cosQ Examples.sinQ _ Examples.threePoints
           {| Resampler.lapType := "right";
              Resampler.lap :=
                {| Resampler.samples := [Examples.sampleAt 0 0 0] |};
              Resampler.filename := None |}).
  - simpl. auto.
  - unfold usable. simpl. lia.
Defined.

(** X6. Whenever [resampleCalibrationLaps] returns, every lap had at least
    two valid samples, at least one lap was a left or a right one, and
    [rawSamples] holds under every type as many grids as there are laps
    of that type. *)
Theorem rawSamples_hold_every_lap (atan2 : Q -> Q -> Q) (cos sin : Q -> Q)
  (laps : list Resampler.ClassifiedLap) (opts : Resampler.Options)
  (r : Resampler.Resampled) :
  Resampler.resampleCalibrationLaps atan2 cos sin laps opts = Ok r ->
  Forall usable laps
  /\ (ofType "left" laps <> [] \/ ofType "right" laps <> [])
  /\ forall role,
       length (Resampler.groupOf (Resampler.rawSamples r) role)
       = length (ofType role laps).
Proof.
  unfold Resampler.resampleCalibrationLaps. intros H.
  set (gridSize := Resampler.resolveSampleCount opts
                     (Resampler.averageLength laps)) in *.
  destruct (Resampler.lapLoop atan2 cos sin opts gridSize
              Resampler.initialState laps) as [st|e] eqn:Eloop;
    [|discriminate].
  cbn [bind] in H.
  assert (Hcount : forall role,
            length (Resampler.groupOf (Resampler.grouped st) role)
            = length (ofType role laps)).
  { intros role. rewrite (@lapLoop_counts atan2 cos sin opts gridSize laps _ _ Eloop role).
    unfold Resampler.groupOf, Resampler.initialState.
    cbn [Resampler.grouped Resampler.lookupKey].
    destruct (String.eqb role "left"); [reflexivity|].
    destruct (String.eqb role "center"); [reflexivity|].
    destruct (String.eqb role "right"); reflexivity. }
  split; [|split].
  - apply Forall_forall. intros c Hin.
    destruct (le_lt_dec 2 (length (filter Resampler.validSample
                (Resampler.samples (Resampler.lap c))))) as [Hu|Hu];
      [exact Hu|].
    destruct (@lapLoop_short atan2 cos sin opts gridSize laps
                Resampler.initialState) as [valid [Hv _]].
    + exists c. split; [exact Hin|]. unfold usable. lia.
    + congruence.
  - pose proof (Hcount "left"%string) as Hl.
    pose proof (Hcount "right"%string) as Hr.
    destruct (ofType "left" laps) eqn:El; [|left; discriminate].
    destruct (ofType "right" laps) eqn:Er; [|right; discriminate].
    exfalso. simpl in Hl, Hr. apply length_zero_iff_nil in Hl, Hr.
    rewrite Hl, Hr in H. simpl in H. discriminate.
  - intros role.
    destruct (Resampler.averageGrid _ "left") as [lg|]; [|discriminate].
    destruct (Resampler.averageGrid _ "right") as [rg|];
      [|destruct lg; discriminate].
    assert (E : Resampler.rawSamples r = Resampler.grouped st).
    { cbn [bind] in H.
      destruct lg, rg; try discriminate;
        destruct (Resampler.averageGrid _ "center"); cbn [bind] in H;
        try discriminate; injection H as <-; reflexivity. }
    rewrite E. apply Hcount.
Qed.

(** X6 on the laps A, B (left) and C (right). *)
Lemma rawSamples_hold_every_lap_witness :
  exists r,
    Resampler.resampleCalibrationLaps Examples.atan2Q Examples.cosQ
      Examples.sinQ [Examples.lapA; Examples.lapB; Examples.lapC]
      Examples.threePoints = Ok r
    /\ length (Resampler.groupOf (Resampler.rawSamples r) "left") = 2%nat
    /\ length (Resampler.groupOf (Resampler.rawSamples r) "right") = 1%nat
    /\ length (Resampler.groupOf (Resampler.rawSamples r) "center") = 0%nat.
Proof.
  eexists. split; [vm_compute; reflexivity|].
  destruct (@rawSamples_hold_every_lap Examples.atan2Q Examples.cosQ
              Examples.sinQ [Examples.lapA; Examples.lapB; Examples.lapC]
              Examples.threePoints _ ltac:(vm_compute; reflexivity))
    as [_ [_ H]].
  split; [apply (H "left"%string)|].
  split; [apply (H "right"%string) | apply (H "center"%string)].
Defined.

(** ** The guardrail: statistics and a second run *)

Section StatsFacts.
Import Constraints.

Lemma clampSide_cases (laps : list (list LapPoint)) (negate : bool)
  (safeScale : Q) (center : Q * Q) (normal : option (Q * Q)) (i : nat)
  (target : Addr) (st st' : Store) (count count' : nat)
  (indices indices' : list nat) :
  (target < length st)%nat ->
  clampSide laps negate safeScale center normal i target (st, count, indices)
  = Ok (st', count', indices') ->
  length st' = length st
  /\ (forall a, a <> target -> arrayAt st' a = arrayAt st a)
  /\ ((arrayAt st' target = arrayAt st target
       /\ count' = count /\ indices' = indices)
      \/ (exists limit cur,
            nth_error (arrayAt st target) i = Some cur
            /\ limit < cur
            /\ arrayAt st' target = setAt (arrayAt st target) i limit
            /\ count' = S count /\ indices' = indices ++ [i])).
Proof.
  intros Ht. unfold clampSide.
  destruct laps as [|lp laps'] eqn:El.
  - intros H. inversion H. subst.
    split; [reflexivity|]. split; [reflexivity|]. left. auto.
  - rewrite <- El. clear El.
    destruct (lapLimit laps negate center normal i 0) as [limit0|] eqn:E;
      cbn [bind]; [|discriminate].
    destruct (Qlt_bool 0 (limit0 * safeScale)
              && nlt (Some (limit0 * safeScale))
                     (nth_error (arrayAt st target) i)) eqn:Ec.
    + intros H. inversion H; subst. clear H.
      apply andb_true_iff in Ec. destruct Ec as [_ Ec].
      destruct (nth_error (arrayAt st target) i) as [cur|] eqn:Ecur;
        [|discriminate].
      cbn [nlt] in Ec. apply Qlt_bool_iff in Ec.
      split; [apply writeAt_length|].
      split; [intros a Ha; apply writeAt_other; congruence|].
      right. exists (limit0 * safeScale), cur.
      rewrite writeAt_same by assumption. auto.
    + intros H. inversion H; subst.
      split; [reflexivity|]. split; [reflexivity|]. left. auto.
Qed.

Lemma nlt_irrefl (a : num) : nlt a a = false.
Proof.
  destruct a as [q|]; [|reflexivity]. cbn [nlt].
  apply Qlt_bool_false. apply Qle_refl.
Qed.

Lemma sideDone_step (original current current' : list Q) (count count' : nat)
  (indices indices' : list nat) (k : nat) :
  sideDone original current count indices k ->
  (current' = current /\ count' = count /\ indices' = indices)
  \/ (exists limit cur,
        nth_error current k = Some cur /\ limit < cur
        /\ current' = setAt current k limit
        /\ count' = S count /\ indices' = indices ++ [k]) ->
  sideDone original current' count' indices' (S k).
Proof.
  intros [Hi [Hc Hrest]] Hcase. unfold sideDone, loweredIndices in *.
  rewrite seq_S, filter_app. cbn [filter Nat.add].
  destruct Hcase as [[-> [-> ->]]|[limit [cur [Hcur [Hlt [-> [-> ->]]]]]]].
  - rewrite (Hrest k (Nat.le_refl k)), nlt_irrefl, app_nil_r.
    split; [exact Hi|]. split; [exact Hc|]. intros j Hj. apply Hrest. lia.
  - rewrite nth_error_setAt_same
      by (apply nth_error_Some; congruence).
    rewrite <- (Hrest k (Nat.le_refl k)), Hcur. cbn [nlt].
    replace (Qlt_bool limit cur) with true
      by (symmetry; apply Qlt_bool_iff; exact Hlt).
    split; [|split].
    + f_equal. rewrite Hi. apply filter_ext_in. intros a Ha.
      apply in_seq in Ha.
      rewrite nth_error_setAt_other by lia. reflexivity.
    + rewrite length_app. simpl. lia.
    + intros j Hj. rewrite nth_error_setAt_other by lia. apply Hrest. lia.
Qed.

Section Loop.
Variable p : Params.
Variables leftLaps rightLaps : list (list LapPoint).
Variable safeScale : Q.
Variables leftResult rightResult : Addr.
Hypothesis distinct : leftResult <> rightResult.
Variables originalLeft originalRight : list Q.

Local Abbreviation bothDone :=
  (Notions.bothDone leftResult rightResult originalLeft originalRight).

Lemma sampleStep_done (s s' : LoopState) (k : nat) :
  bothDone s k ->
  sampleStep p leftLaps rightLaps safeScale leftResult rightResult s k = Ok s' ->
  bothDone s' (S k).
Proof.
  intros [Hl [Hr [Dl Dr]]]. unfold sampleStep, elemAt.
  destruct (nth_error (centerline p) k) as [center|] eqn:Hc; cbn [bind];
    [|discriminate].
  destruct (clampSide leftLaps false _ _ _ _ _ _) as [[[st1 cl] il]|] eqn:E1;
    cbn [bind]; [|discriminate].
  destruct (clampSide rightLaps true _ _ _ _ _ _) as [[[st2 cr] ir]|] eqn:E2;
    cbn [bind]; [|discriminate].
  intros H. inversion H. subst s'. clear H.
  destruct (@clampSide_cases _ _ _ _ _ _ _ _ _ _ _ _ _ Hl E1)
    as [L1 [F1 C1]].
  assert (Hr1 : (rightResult < length st1)%nat) by (rewrite L1; exact Hr).
  destruct (@clampSide_cases _ _ _ _ _ _ _ _ _ _ _ _ _ Hr1 E2)
    as [L2 [F2 C2]].
  unfold Notions.bothDone. cbn [store countLeft countRight indicesLeft indicesRight].
  split; [lia|]. split; [lia|]. split.
  - rewrite (F2 leftResult) by exact distinct.
    eapply sideDone_step; [exact Dl|].
    destruct C1 as [[-> [-> ->]]|[limit [cur [? [? [-> [-> ->]]]]]]];
      [left; auto | right; eauto 10].
  - rewrite (F1 rightResult) in C2 by congruence.
    eapply sideDone_step; [exact Dr|].
    destruct C2 as [[-> [-> ->]]|[limit [cur [? [? [-> [-> ->]]]]]]];
      [left; auto | right; eauto 10].
Qed.

Lemma sampleLoop_done (m : nat) :
  forall k s s',
    bothDone s k ->
    sampleLoop p leftLaps rightLaps safeScale leftResult rightResult s
               (seq k m) = Ok s' ->
    bothDone s' (k + m).
Proof.
  induction m as [|m IH]; intros k s s' Hs H.
  - inversion H. subst. rewrite Nat.add_0_r. exact Hs.
  - cbn [seq sampleLoop] in H.
    destruct (sampleStep _ _ _ _ _ _ s k) as [s1|] eqn:E; cbn [bind] in H;
      [|discriminate].
    replace (k + S m)%nat with (S k + m)%nat by lia.
    eapply IH; [|exact H]. eapply sampleStep_done; eauto.
Qed.

End Loop.

Lemma sideDone_start (original : list Q) :
  sideDone original original 0 [] 0.
Proof. repeat split. Qed.

End StatsFacts.

(** X7. The statistics of the guardrail are exact: [leftIndices] and
    [rightIndices] list, in increasing order, exactly the samples whose
    half-width the guardrail lowered, and [leftClamped] and [rightClamped]
    are their numbers. *)
Theorem guardrail_stats_list_lowered (st st' : Constraints.Store)
  (p : Constraints.Params) (out : Constraints.Output) :
  (Constraints.halfWidthLeft p < length st)%nat ->
  (Constraints.halfWidthRight p < length st)%nat ->
  Constraints.enforceWidthConstraints st p = Ok (st', out) ->
  let n := length (Constraints.centerline p) in
  let stats := Constraints.stats out in
  Constraints.leftIndices stats
  = loweredIndices (Constraints.arrayAt st (Constraints.halfWidthLeft p))
      (Constraints.arrayAt st' (Constraints.outLeft out)) n
  /\ Constraints.rightIndices stats
     = loweredIndices (Constraints.arrayAt st (Constraints.halfWidthRight p))
         (Constraints.arrayAt st' (Constraints.outRight out)) n
  /\ Constraints.leftClamped stats = length (Constraints.leftIndices stats)
  /\ Constraints.rightClamped stats = length (Constraints.rightIndices stats).
Proof.
  intros Hl Hr. cbv zeta.
  unfold Constraints.enforceWidthConstraints, Constraints.allocCopy.
  set (L0 := Constraints.arrayAt st (Constraints.halfWidthLeft p)).
  set (R0 := Constraints.arrayAt st (Constraints.halfWidthRight p)).
  set (st1 := st ++ [L0]).
  assert (E1 : Constraints.arrayAt st1 (Constraints.halfWidthRight p) = R0)
    by (unfold st1; apply arrayAt_app_old; exact Hr).
  rewrite E1.
  set (st2 := st1 ++ [R0]).
  assert (L1 : length st1 = S (length st))
    by (unfold st1; rewrite length_app; simpl; lia).
  assert (L2 : length st2 = S (S (length st)))
    by (unfold st2; rewrite length_app; simpl; lia).
  match goal with
  | |- context [Constraints.sampleLoop _ _ _ _ _ _ ?s _] => set (s0 := s)
  end.
  destruct (Constraints.sampleLoop _ _ _ _ _ _ s0 _) as [s'|] eqn:E;
    cbn [bind]; [|discriminate].
  intros H. inversion H. subst st' out. clear H.
  cbn [Constraints.stats Constraints.leftIndices Constraints.rightIndices
       Constraints.leftClamped Constraints.rightClamped
       Constraints.outLeft Constraints.outRight].
  assert (Hd : length st <> length st1) by lia.
  pose proof (fun H0 => @sampleLoop_done p _ _ _ _ _ Hd L0 R0 _
                          0%nat s0 s' H0 E) as Hdone.
  destruct Hdone as [_ [_ [[A1 [A2 _]] [B1 [B2 _]]]]].
  - unfold Notions.bothDone, s0. cbn [Constraints.store Constraints.countLeft
      Constraints.countRight Constraints.indicesLeft Constraints.indicesRight].
    split; [lia|]. split; [lia|].
    replace (Constraints.arrayAt st2 (length st)) with L0.
    + replace (Constraints.arrayAt st2 (length st1)) with R0.
      * split; apply sideDone_start.
      * unfold st2. symmetry. apply arrayAt_app_new.
    + unfold st2. rewrite arrayAt_app_old by lia.
      unfold st1. symmetry. apply arrayAt_app_new.
  - cbn [Nat.add] in *. auto.
Qed.

(** X7 on the one-sample run: the left half-width 5 is lowered to 4, the
    right half-width 7 to 6. *)
Lemma guardrail_stats_list_lowered_witness :
  let p := Examples.guardrailParams (Constraints.mkLapPoint 0 4)
             (Constraints.mkLapPoint 0 (-6)) in
  exists st' out,
    Constraints.enforceWidthConstraints Examples.smoothedWidths p
    = Ok (st', out)
    /\ Constraints.leftIndices (Constraints.stats out)
       = loweredIndices [5] (Constraints.arrayAt st' (Constraints.outLeft out)) 1
    /\ Constraints.rightIndices (Constraints.stats out)
       = loweredIndices [7] (Constraints.arrayAt st' (Constraints.outRight out)) 1
    /\ Constraints.leftClamped (Constraints.stats out)
       = length (Constraints.leftIndices (Constraints.stats out))
    /\ Constraints.rightClamped (Constraints.stats out)
       = length (Constraints.rightIndices (Constraints.stats out)).
Proof.
  cbv zeta. do 2 eexists. split; [vm_compute; reflexivity|].
  apply (@guardrail_stats_list_lowered Examples.smoothedWidths _
           (Examples.guardrailParams (Constraints.mkLapPoint 0 4)
              (Constraints.mkLapPoint 0 (-6))) _
           ltac:(simpl; lia) ltac:(simpl; lia)).
  vm_compute. reflexivity.
Defined.

Section SecondRun.
Import Constraints.

(** Whether a side throws at a sample does not depend on the store. *)
Lemma clampSide_settled (laps : list (list LapPoint)) (negate : bool)
  (safeScale : Q) (center : Q * Q) (normal : option (Q * Q)) (i : nat)
  (target target' : Addr) (acc acc0 : Store * nat * list nat)
  (st : Store) (count : nat) (indices : list nat) :
  clampSide laps negate safeScale center normal i target' acc0 = Ok acc ->
  (forall limit v,
      laps <> [] ->
      lapLimit laps negate center normal i 0 = Ok limit ->
      0 < limit * safeScale ->
      nth_error (arrayAt st target) i = Some v ->
      v <= limit * safeScale) ->
  clampSide laps negate safeScale center normal i target (st, count, indices)
  = Ok (st, count, indices).
Proof.
  destruct acc0 as [[st0 c0] i0]. unfold clampSide.
  destruct laps as [|lp laps'] eqn:El; [reflexivity|].
  rewrite <- El.
  destruct (lapLimit laps negate center normal i 0) as [limit0|] eqn:E;
    cbn [bind]; [|discriminate].
  intros _ Hb.
  destruct (Qlt_bool 0 (limit0 * safeScale)) eqn:E0; [|reflexivity].
  apply Qlt_bool_iff in E0. cbn [andb].
  destruct (nth_error (arrayAt st target) i) as [v|] eqn:Ev; [|reflexivity].
  cbn [nlt].
  replace (Qlt_bool (limit0 * safeScale) v) with false; [reflexivity|].
  symmetry. apply Qlt_bool_false.
  apply (Hb limit0 v); auto. rewrite El. discriminate.
Qed.

Section Loop.
Variables p p' : Params.
Hypothesis same_centerline : centerline p' = centerline p.
Hypothesis same_normals : normals p' = normals p.
Variables leftLaps rightLaps : list (list LapPoint).
Variable safeScale : Q.
Variables leftResult rightResult leftResult' rightResult' : Addr.

Lemma sampleStep_settled (s0 s1 s : LoopState) (i : nat) :
  sampleStep p leftLaps rightLaps safeScale leftResult rightResult s0 i
  = Ok s1 ->
  bounded p safeScale leftLaps false leftResult' (store s) i ->
  bounded p safeScale rightLaps true rightResult' (store s) i ->
  sampleStep p' leftLaps rightLaps safeScale leftResult' rightResult' s i
  = Ok s.
Proof.
  unfold sampleStep, elemAt. rewrite same_centerline, same_normals.
  destruct (nth_error (centerline p) i) as [center|] eqn:Hc; cbn [bind];
    [|discriminate].
  destruct (clampSide leftLaps false _ _ _ _ _ _) as [[[st1 cl] il]|] eqn:E1;
    cbn [bind]; [|discriminate].
  destruct (clampSide rightLaps true _ _ _ _ _ _) as [[[st2 cr] ir]|] eqn:E2;
    cbn [bind]; [|discriminate].
  intros _ Bl Br.
  rewrite (@clampSide_settled _ _ _ _ _ _ leftResult' _ _ _ (store s)
             (countLeft s) (indicesLeft s) E1) by (intros; eapply Bl; eauto).
  cbn [bind].
  rewrite (@clampSide_settled _ _ _ _ _ _ rightResult' _ _ _ (store s)
             (countRight s) (indicesRight s) E2) by (intros; eapply Br; eauto).
  cbn [bind]. destruct s; reflexivity.
Qed.

Lemma sampleLoop_settled (indices : list nat) :
  forall s0 s1 s,
    sampleLoop p leftLaps rightLaps safeScale leftResult rightResult s0 indices
    = Ok s1 ->
    (forall i, In i indices ->
       bounded p safeScale leftLaps false leftResult' (store s) i
       /\ bounded p safeScale rightLaps true rightResult' (store s) i) ->
    sampleLoop p' leftLaps rightLaps safeScale leftResult' rightResult' s
               indices = Ok s.
Proof.
  induction indices as [|i rest IH]; intros s0 s1 s H Hb; [reflexivity|].
  cbn [sampleLoop] in *.
  destruct (sampleStep p _ _ _ _ _ s0 i) as [s0'|] eqn:E; cbn [bind] in H;
    [|discriminate].
  destruct (Hb i (or_introl eq_refl)) as [Bl Br].
  rewrite (sampleStep_settled _ _ E Bl Br). cbn [bind].
  eapply IH; [exact H|]. intros j Hj. apply Hb. right. exact Hj.
Qed.

End Loop.

Lemma bounded_same_array (p : Params) (safeScale : Q)
  (laps : list (list LapPoint)) (negate : bool) (a b : Addr)
  (st st2 : Store) (i : nat) :
  arrayAt st2 b = arrayAt st a ->
  bounded p safeScale laps negate a st i ->
  bounded p safeScale laps negate b st2 i.
Proof.
  intros E H center limit v Hc Hne Hl Hp Hv. rewrite E in Hv. eauto.
Qed.

End SecondRun.

(** X8. The guardrail is idempotent: a second run over the output of a
    first one, with the same centerline, normals and raw laps, returns,
    clamps nothing and yields the same half-widths. *)
Theorem guardrail_idempotent (st st' : Constraints.Store)
  (p : Constraints.Params) (out : Constraints.Output) :
  Constraints.enforceWidthConstraints st p = Ok (st', out) ->
  exists st'' out',
    Constraints.enforceWidthConstraints st' (again p out) = Ok (st'', out')
    /\ Constraints.arrayAt st'' (Constraints.outLeft out')
       = Constraints.arrayAt st' (Constraints.outLeft out)
    /\ Constraints.arrayAt st'' (Constraints.outRight out')
       = Constraints.arrayAt st' (Constraints.outRight out)
    /\ Constraints.leftClamped (Constraints.stats out') = 0%nat
    /\ Constraints.rightClamped (Constraints.stats out') = 0%nat
    /\ Constraints.leftIndices (Constraints.stats out') = []
    /\ Constraints.rightIndices (Constraints.stats out') = [].
Proof.
  intros H.
  destruct (enforceWidthConstraints_ok _ _ H)
    as [Ol [Or [Len [_ [_ [_ Hb]]]]]].
  revert H.
  unfold Constraints.enforceWidthConstraints at 1, Constraints.allocCopy.
  match goal with
  | |- context [Constraints.sampleLoop _ _ _ _ _ _ ?s _] => set (s0 := s)
  end.
  destruct (Constraints.sampleLoop _ _ _ _ _ _ s0 _) as [s1|] eqn:E;
    cbn [bind]; [|discriminate].
  intros H. unfold Constraints.enforceWidthConstraints, Constraints.allocCopy.
  cbn [again Constraints.centerline Constraints.normals Constraints.rawSamples
       Constraints.halfWidthLeft Constraints.halfWidthRight
       Constraints.clampScale].
  set (A := Constraints.arrayAt st' (Constraints.outLeft out)).
  set (st1 := st' ++ [A]).
  assert (E1 : Constraints.arrayAt st1 (Constraints.outRight out)
               = Constraints.arrayAt st' (Constraints.outRight out))
    by (unfold st1; apply arrayAt_app_old; lia).
  rewrite E1.
  set (B := Constraints.arrayAt st' (Constraints.outRight out)).
  set (st2 := st1 ++ [B]).
  match goal with
  | |- context [Constraints.sampleLoop _ _ _ _ _ _ ?s _] => set (t0 := s)
  end.
  assert (EA : Constraints.arrayAt st2 (length st') = A).
  { unfold st2. rewrite arrayAt_app_old
      by (unfold st1; rewrite length_app; simpl; lia).
    unfold st1. apply arrayAt_app_new. }
  assert (EB : Constraints.arrayAt st2 (length st1) = B)
    by (unfold st2; apply arrayAt_app_new).
  rewrite (@sampleLoop_settled p (again p out) eq_refl eq_refl _ _ _ _ _
             (length st') (length st1) _ s0 s1 t0 E).
  - cbn [bind]. do 2 eexists. split; [reflexivity|].
    cbn [Constraints.stats Constraints.outLeft Constraints.outRight
         Constraints.leftClamped Constraints.rightClamped
         Constraints.leftIndices Constraints.rightIndices
         Constraints.store Constraints.countLeft Constraints.countRight
         Constraints.indicesLeft Constraints.indicesRight t0].
    repeat split; assumption.
  - intros i Hi. apply in_seq in Hi.
    destruct (Hb i ltac:(lia)) as [Bl Br]. cbn [Constraints.store t0].
    split.
    + eapply bounded_same_array; [|exact Bl]. exact EA.
    + eapply bounded_same_array; [|exact Br]. exact EB.
Qed.

(** X8 on the one-sample run. *)
Lemma guardrail_idempotent_witness :
  let p := Examples.guardrailParams (Constraints.mkLapPoint 0 4)
             (Constraints.mkLapPoint 0 (-6)) in
  exists st' out st'' out',
    Constraints.enforceWidthConstraints Examples.smoothedWidths p
    = Ok (st', out)
    /\ Constraints.enforceWidthConstraints st' (again p out) = Ok (st'', out')
    /\ Constraints.arrayAt st'' (Constraints.outLeft out') = [4]
    /\ Constraints.arrayAt st'' (Constraints.outRight out') = [6]
    /\ Constraints.leftClamped (Constraints.stats out') = 0%nat
    /\ Constraints.rightClamped (Constraints.stats out') = 0%nat.
Proof.
  cbv zeta.
  destruct (Constraints.enforceWidthConstraints Examples.smoothedWidths
              (Examples.guardrailParams (Constraints.mkLapPoint 0 4)
                 (Constraints.mkLapPoint 0 (-6)))) as [[st' out]|] eqn:E;
    [|vm_compute in E; discriminate].
  destruct (guardrail_idempotent _ _ E)
    as [st'' [out' [E2 [Hl [Hr [Cl [Cr _]]]]]]].
  exists st', out, st'', out'.
  split; [reflexivity|]. split; [exact E2|].
  vm_compute in E. injection E as <- <-.
  split; [exact Hl|]. split; [exact Hr|]. split; [exact Cl | exact Cr].
Defined.

(** ** The slope clamp: fixed points, flags and sectors *)

Section ClampFlags.
Import Width.
Variable L : Q.

Lemma clampStep_within (n : nat) (st : ClampState) (i : nat) :
  Qabs (nth i (result st) 0 - nth ((i + n - 1) mod n) (result st) 0) <= L ->
  clampStep L n st i = st.
Proof.
  intros H. apply Qabs_Qle_condition in H. unfold clampStep.
  cbn [azero aadd asub aopp altb ArithQ].
  case_lt L (nth i (result st) 0 - nth ((i + n - 1) mod n) (result st) 0);
    [lra|].
  case_lt (nth i (result st) 0 - nth ((i + n - 1) mod n) (result st) 0) (- L);
    [lra | reflexivity].
Qed.

Lemma fold_within (st : ClampState) (l : list nat) :
  circularDeltasWithin L (result st) ->
  (forall i, In i l -> (i < length (result st))%nat) ->
  fold_left (clampStep L (length (result st))) l st = st.
Proof.
  intros Hc. induction l as [|i l IH]; intros Hl; [reflexivity|].
  cbn [fold_left]. rewrite clampStep_within.
  - apply IH. intros j Hj. apply Hl. right. exact Hj.
  - apply Hc. apply Hl. left. reflexivity.
Qed.

Lemma applySlopeClamp_within (vals : list Q) :
  circularDeltasWithin L vals ->
  applySlopeClamp vals L
  = {| values := vals; clampFlags := repeat false (length vals);
       clampedCount := 0 |}.
Proof.
  intros Hc. unfold applySlopeClamp.
  set (n := length vals).
  assert (Hcount : length (filter (fun b : bool => b) (repeat false n)) = 0%nat).
  { clear. induction n; simpl; auto. }
  destruct n as [|k] eqn:En.
  - reflexivity.
  - cbn [Nat.mul Nat.add clampLoop changed].
    assert (Hp : clampPass L (S k)
                   {| result := vals; flags := repeat false (S k);
                      changed := true |}
                 = {| result := vals; flags := repeat false (S k);
                      changed := false |}).
    { unfold clampPass. cbn [result flags].
      pose proof (@fold_within
                    {| result := vals; flags := repeat false (S k);
                       changed := false |} (seq 0 (S k))) as Hf.
      cbn [result] in Hf. fold n in Hf. rewrite En in Hf. apply Hf.
      - exact Hc.
      - intros i Hi. apply in_seq in Hi. lia. }
    rewrite Hp.
    replace (k + S (k + 0))%nat with (S (k + k))%nat by lia.
    cbn [clampLoop changed result flags]. rewrite Hcount. reflexivity.
Qed.

Lemma clampStep_account (vals : list Q) (n i : nat) (st : ClampState) :
  flagsAccount vals st -> flagsAccount vals (clampStep L n st i).
Proof.
  intros [H1 [H2 H3]]. unfold clampStep.
  cbn [azero aadd asub aopp altb ArithQ].
  assert (Hset : forall v,
            flagsAccount vals
              {| result := setAt (result st) i v;
                 flags := setAt (flags st) i true; changed := true |}).
  { intros v. unfold flagsAccount. cbn [result flags].
    rewrite !setAt_length. split; [exact H1|]. split; [exact H2|].
    intros j Hj. destruct (Nat.eq_dec i j) as [->|Hne].
    - destruct (lt_dec j (length (flags st))) as [Hlt|Hge].
      + rewrite nth_error_setAt_same in Hj by exact Hlt. discriminate.
      + rewrite setAt_out_of_range in Hj by lia.
        rewrite setAt_out_of_range by lia. auto.
    - rewrite nth_error_setAt_other in Hj by exact Hne.
      rewrite nth_error_setAt_other by exact Hne. auto. }
  destruct (Qlt_bool _ _); [apply Hset|].
  destruct (Qlt_bool _ _); [apply Hset|].
  repeat split; auto.
Qed.

Lemma clampPass_account (vals : list Q) (n : nat) (st : ClampState) :
  flagsAccount vals st -> flagsAccount vals (clampPass L n st).
Proof.
  intros H. unfold clampPass. apply fold_left_invariant.
  - intros acc b _. apply clampStep_account.
  - exact H.
Qed.

Lemma clampLoop_account (vals : list Q) (n remaining : nat) :
  forall st, flagsAccount vals st ->
             flagsAccount vals (clampLoop remaining L n st).
Proof.
  induction remaining as [|k IH]; intros st H; [exact H|].
  cbn [clampLoop]. destruct (changed st); [|exact H].
  apply IH. apply clampPass_account. exact H.
Qed.

Lemma applySlopeClamp_account (vals : list Q) :
  let r := applySlopeClamp vals L in
  length (values r) = length vals
  /\ length (clampFlags r) = length vals
  /\ (clampedCount r = 0%nat -> values r = vals).
Proof.
  cbv zeta. unfold applySlopeClamp. cbn [values clampFlags clampedCount].
  match goal with
  | |- context [clampLoop ?k L ?n ?s] =>
      destruct (@clampLoop_account vals n k s) as [H1 [H2 H3]]
  end.
  { unfold flagsAccount. cbn [result flags]. rewrite repeat_length. auto. }
  split; [exact H1|]. split; [exact H2|].
  intros Hz. apply nth_ext with (d := 0) (d' := 0); [exact H1|].
  intros i Hi.
  match goal with
  | |- nth i (result ?s) 0 = _ => set (st := s) in *
  end.
  assert (Hf : nth_error (flags st) i = Some false).
  { destruct (nth_error (flags st) i) as [b|] eqn:E;
      [|apply nth_error_None in E; lia].
    destruct b; [|reflexivity]. exfalso.
    apply nth_error_In in E.
    assert (Hin : In true (filter (fun b : bool => b) (flags st)))
      by (apply filter_In; auto).
    destruct (filter (fun b : bool => b) (flags st));
      [destruct Hin | discriminate]. }
  specialize (H3 i Hf).
  rewrite (nth_error_nth' (result st) 0) in H3 by lia.
  rewrite (nth_error_nth' vals 0) in H3 by lia. congruence.
Qed.

End ClampFlags.

(** X9. Arrays whose circular per-sample deltas are already within the
    per-sample limit pass through [clampWidthDeltas] unchanged, and the
    diagnostics report no clamped sample. *)
Theorem clampWidthDeltas_keeps_conforming (left right : list Q)
  (options : Width.DeltaOptions) :
  let out := Width.clampWidthDeltas left right options in
  let limit := Width.perSampleLimit (Width.diagnostics out) in
  circularDeltasWithin limit left ->
  circularDeltasWithin limit right ->
  Width.halfWidthLeft out = left
  /\ Width.halfWidthRight out = right
  /\ Width.leftClamped (Width.diagnostics out) = 0%nat
  /\ Width.rightClamped (Width.diagnostics out) = 0%nat.
Proof.
  cbv zeta. unfold Width.clampWidthDeltas.
  cbn [Width.diagnostics Width.perSampleLimit Width.halfWidthLeft
       Width.halfWidthRight Width.leftClamped Width.rightClamped].
  intros Hl Hr.
  rewrite (applySlopeClamp_within Hl), (applySlopeClamp_within Hr).
  cbn [Width.values Width.clampedCount]. auto.
Qed.

(** X9 on two constant arrays. *)
Lemma clampWidthDeltas_keeps_conforming_witness :
  let out := Width.clampWidthDeltas [1; 1; 1] [2; 2]
               Width.defaultDeltaOptions in
  Width.halfWidthLeft out = [1; 1; 1]
  /\ Width.halfWidthRight out = [2; 2]
  /\ Width.leftClamped (Width.diagnostics out) = 0%nat
  /\ Width.rightClamped (Width.diagnostics out) = 0%nat.
Proof.
  apply (@clampWidthDeltas_keeps_conforming [1; 1; 1] [2; 2]
           Width.defaultDeltaOptions);
    intros i Hi;
    repeat (destruct i as [|i]; [vm_compute; discriminate|]);
    simpl in Hi; lia.
Defined.

(** X10. With a positive per-sample limit [clampWidthDeltas] is idempotent
    in exact arithmetic: applied to its own output it returns the same
    arrays and reports no clamped sample. *)
Theorem clampWidthDeltas_idempotent (left right : list Q)
  (options : Width.DeltaOptions) :
  let out := Width.clampWidthDeltas left right options in
  0 < Width.perSampleLimit (Width.diagnostics out) ->
  let out' := Width.clampWidthDeltas (Width.halfWidthLeft out)
                (Width.halfWidthRight out) options in
  Width.halfWidthLeft out' = Width.halfWidthLeft out
  /\ Width.halfWidthRight out' = Width.halfWidthRight out
  /\ Width.leftClamped (Width.diagnostics out') = 0%nat
  /\ Width.rightClamped (Width.diagnostics out') = 0%nat.
Proof.
  cbv zeta. unfold Width.clampWidthDeltas.
  cbn [Width.diagnostics Width.perSampleLimit Width.halfWidthLeft
       Width.halfWidthRight Width.leftClamped Width.rightClamped].
  intros Hpos.
  assert (Hnn : 0 <= Width.maxDeltaPer10m options / 10
                     * jsMax (Width.spacingMeters options) (1 # 1000)) by lra.
  rewrite (applySlopeClamp_within (@applySlopeClamp_circular _ Hnn left)).
  rewrite (applySlopeClamp_within (@applySlopeClamp_circular _ Hnn right)).
  cbn [Width.values Width.clampedCount]. auto.
Qed.

(** X10 on the alternating profile. *)
Lemma clampWidthDeltas_idempotent_witness :
  let out := Width.clampWidthDeltas [0; 100; 0; 100; 0] [3; 3; 9; 3]
               Width.defaultDeltaOptions in
  let out' := Width.clampWidthDeltas (Width.halfWidthLeft out)
                (Width.halfWidthRight out) Width.defaultDeltaOptions in
  Width.halfWidthLeft out' = Width.halfWidthLeft out
  /\ Width.halfWidthRight out' = Width.halfWidthRight out
  /\ Width.leftClamped (Width.diagnostics out') = 0%nat
  /\ Width.rightClamped (Width.diagnostics out') = 0%nat.
Proof.
  apply (@clampWidthDeltas_idempotent [0; 100; 0; 100; 0] [3; 3; 9; 3]
           Width.defaultDeltaOptions).
  vm_compute. reflexivity.
Defined.

(** X11. [clampWidthDeltas] keeps the lengths of its inputs, and a side
    whose clamped count is 0 is returned unchanged: every sample the
    slope clamp moves is counted. *)
Theorem clampWidthDeltas_reports_changes (left right : list Q)
  (options : Width.DeltaOptions) :
  let out := Width.clampWidthDeltas left right options in
  length (Width.halfWidthLeft out) = length left
  /\ length (Width.halfWidthRight out) = length right
  /\ (Width.leftClamped (Width.diagnostics out) = 0%nat ->
      Width.halfWidthLeft out = left)
  /\ (Width.rightClamped (Width.diagnostics out) = 0%nat ->
      Width.halfWidthRight out = right).
Proof.
  cbv zeta. unfold Width.clampWidthDeltas.
  cbn [Width.diagnostics Width.perSampleLimit Width.halfWidthLeft
       Width.halfWidthRight Width.leftClamped Width.rightClamped].
  match goal with
  | |- context [Width.applySlopeClamp left ?l] =>
      destruct (@applySlopeClamp_account l left) as [A1 [_ A3]];
      destruct (@applySlopeClamp_account l right) as [B1 [_ B3]]
  end.
  auto.
Qed.

Section SectorFacts.
Import Width.

Lemma firstn_split {A : Type} (a b : nat) (l : list A) :
  firstn (a + b) l = firstn a l ++ firstn b (skipn a l).
Proof.
  revert l. induction a as [|a IH]; intros l; [reflexivity|].
  destruct l as [|x l]; [simpl; now rewrite firstn_nil|].
  simpl. f_equal. apply IH.
Qed.

Variable fl : list bool.
Variable sps : nat.
Hypothesis sps_positive : (1 <= sps)%nat.

Let n := length fl.
Let sectorCount := ((n + sps - 1) / sps)%nat.

Lemma sectorCount_covers :
  (n <= sectorCount * sps)%nat
  /\ forall k, (k < sectorCount)%nat -> (k * sps < n)%nat.
Proof.
  unfold sectorCount.
  pose proof (Nat.div_mod_eq (n + sps - 1) sps) as Hd.
  pose proof (Nat.mod_upper_bound (n + sps - 1) sps ltac:(lia)) as Hm.
  set (q := ((n + sps - 1) / sps)%nat) in *.
  set (r := ((n + sps - 1) mod sps)%nat) in *.
  split; [nia|]. intros k Hk. nia.
Qed.

Lemma samples_sum (k : nat) :
  (k <= sectorCount)%nat ->
  list_sum (map (fun s => Nat.min n (s * sps + sps) - s * sps) (seq 0 k))%nat
  = Nat.min n (k * sps).
Proof.
  destruct sectorCount_covers as [_ Hlt].
  induction k as [|k IH]; intros Hk; [simpl; lia|].
  rewrite seq_S, map_app, list_sum_app, IH by lia.
  cbn [map list_sum Nat.add]. specialize (Hlt k ltac:(lia)).
  replace (S k * sps)%nat with (k * sps + sps)%nat by lia.
  unfold list_sum, fold_right. lia.
Qed.

Lemma clamped_sum (k : nat) :
  (k <= sectorCount)%nat ->
  list_sum (map (fun s => countFlags fl (s * sps)
                            (Nat.min n (s * sps + sps))) (seq 0 k))%nat
  = length (filter (fun b : bool => b) (firstn (Nat.min n (k * sps)) fl)).
Proof.
  destruct sectorCount_covers as [_ Hlt].
  induction k as [|k IH]; intros Hk;
    [simpl; rewrite Nat.min_0_r; reflexivity|].
  rewrite seq_S, map_app, list_sum_app, IH by lia.
  cbn [map Nat.add]. unfold list_sum, fold_right.
  specialize (Hlt k ltac:(lia)).
  unfold countFlags.
  replace (Nat.min n (S k * sps))
    with (Nat.min n (k * sps) + (Nat.min n (k * sps + sps) - k * sps))%nat
    by nia.
  rewrite firstn_split, filter_app, length_app.
  replace (Nat.min n (k * sps)) with (k * sps)%nat by lia. lia.
Qed.

End SectorFacts.

Section SummaryFacts.
Import Width.

Lemma summarise_partition (fl : list bool) (spacingMeters sectorLength : Q) :
  let summary := summariseClampBySector fl spacingMeters sectorLength in
  list_sum (map sectorSamples summary) = length fl
  /\ list_sum (map sectorClamped summary)
     = length (filter (fun b : bool => b) fl)
  /\ Forall (fun s => (1 <= sectorSamples s)%nat
                      /\ (sectorClamped s <= sectorSamples s)%nat
                      /\ 0 <= ratio s /\ ratio s <= 1) summary.
Proof.
  cbv zeta. unfold summariseClampBySector.
  destruct fl as [|b0 fl0] eqn:Efl; [simpl; auto|].
  rewrite <- Efl.
  set (sps := Z.to_nat (Z.max 1 (jsRound (sectorLength
                                          / jsMax spacingMeters (1 # 1000))))).
  assert (Hs : (1 <= sps)%nat) by (unfold sps; lia).
  destruct (@sectorCount_covers fl sps Hs) as [Hcov Hlt].
  rewrite !map_map. cbn [sectorSamples sectorClamped].
  split; [|split].
  - rewrite (@samples_sum fl sps Hs _ (Nat.le_refl _)). lia.
  - rewrite (@clamped_sum fl sps Hs _ (Nat.le_refl _)).
    rewrite Nat.min_l by exact Hcov. rewrite firstn_all. reflexivity.
  - apply Forall_forall. intros s Hin. apply in_map_iff in Hin.
    destruct Hin as [k [<- Hk]]. apply in_seq in Hk.
    cbn [sectorSamples sectorClamped ratio].
    specialize (Hlt k ltac:(lia)).
    set (start := (k * sps)%nat) in *.
    set (stop := Nat.min (length fl) (start + sps)).
    assert (Hlen : (1 <= stop - start)%nat) by (unfold stop; lia).
    assert (Hc : (countFlags fl start stop <= stop - start)%nat).
    { unfold countFlags.
      eapply Nat.le_trans; [apply filter_length_le|].
      rewrite length_firstn. lia. }
    split; [exact Hlen|]. split; [exact Hc|].
    destruct (0 <? stop - start)%nat eqn:E;
      [|apply Nat.ltb_ge in E; lia].
    assert (Hd : 0 < ofNat (stop - start)).
    { unfold ofNat. change 0 with (inject_Z 0). rewrite <- Zlt_Qlt. lia. }
    assert (Hn : 0 <= ofNat (countFlags fl start stop)).
    { unfold ofNat. change 0 with (inject_Z 0). rewrite <- Zle_Qle. lia. }
    assert (Hle : ofNat (countFlags fl start stop) <= ofNat (stop - start)).
    { unfold ofNat. rewrite <- Zle_Qle. lia. }
    pose proof (Qinv_lt_0_compat _ Hd) as Hi.
    assert (He : ofNat (stop - start) * / ofNat (stop - start) == 1)
      by (apply Qmult_inv_r; lra).
    unfold Qdiv. split; nra.
Qed.

End SummaryFacts.

(** X12. The sector summaries of the slope clamp partition the samples:
    on each side the sector sample counts add up to the array length and
    the sector clamp counts to the clamped count; every sector is
    non-empty and its ratio lies in [0, 1]. *)
Theorem clamp_sectors_partition (left right : list Q)
  (options : Width.DeltaOptions) :
  let d := Width.diagnostics (Width.clampWidthDeltas left right options) in
  list_sum (map Width.sectorSamples (Width.leftSectors d)) = length left
  /\ list_sum (map Width.sectorClamped (Width.leftSectors d))
     = Width.leftClamped d
  /\ list_sum (map Width.sectorSamples (Width.rightSectors d)) = length right
  /\ list_sum (map Width.sectorClamped (Width.rightSectors d))
     = Width.rightClamped d
  /\ Forall (fun s => (1 <= Width.sectorSamples s)%nat
                      /\ (Width.sectorClamped s <= Width.sectorSamples s)%nat
                      /\ 0 <= Width.ratio s /\ Width.ratio s <= 1)
       (Width.leftSectors d ++ Width.rightSectors d).
Proof.
  cbv zeta. unfold Width.clampWidthDeltas.
  cbn [Width.diagnostics Width.leftSectors Width.rightSectors
       Width.leftClamped Width.rightClamped].
  match goal with
  | |- context [Width.applySlopeClamp left ?l] =>
      destruct (@applySlopeClamp_account l left) as [_ [A2 _]];
      destruct (@applySlopeClamp_account l right) as [_ [B2 _]];
      set (lc := Width.applySlopeClamp left l) in *;
      set (rc := Width.applySlopeClamp right l) in *
  end.
  destruct (summarise_partition (Width.clampFlags lc)
              (Width.spacingMeters options) (Width.sectorLength options))
    as [L1 [L2 L3]].
  destruct (summarise_partition (Width.clampFlags rc)
              (Width.spacingMeters options) (Width.sectorLength options))
    as [R1 [R2 R3]].
  rewrite L1, L2, R1, R2, A2, B2.
  repeat split; try reflexivity.
  apply Forall_app. split; assumption.
Qed.

(** ** The constant-width envelope: floors and counts *)

Section FloorFacts.
Import Width.

Lemma envelopePair_floor (raw targetWidth : Q) :
  exists vi vo,
    envelopePair (Some raw) targetWidth (specMinWidth targetWidth)
    = (Some vi, Some vo)
    /\ 0 <= vi /\ 3 # 4 <= vo
    /\ vi * (2 # 5) <= vo
    /\ specMinWidth targetWidth - vi <= vo
    /\ 0 < specMinWidth targetWidth.
Proof.
  unfold envelopePair, specMinWidth, jsMax. cbn [nmax lift2].
  unfold jsMax.
  destruct (Qeq_bool (targetWidth * (19 # 20)) 0) eqn:E0;
    [apply Qeq_bool_iff in E0 | apply Qeq_bool_neq in E0];
    split_comparisons;
    do 2 eexists; (split; [reflexivity|]); repeat split; lra.
Qed.

Lemma envelope_counts (hwl hwr : list Q) (angles : option (list Q))
  (targetWidth minWidth : Q) (k : nat) :
  let st := envelopeAfter hwl hwr angles targetWidth minWidth k in
  (leftCount st + rightCount st = k)%nat.
Proof.
  cbv zeta. induction k as [|k IH]; [reflexivity|].
  rewrite after_S. unfold envelopeStep.
  destruct (envelopeWidths _ _ _ _ _ _) as [a b].
  destruct (classify _ _ _); cbn [leftCount rightCount]; lia.
Qed.

End FloorFacts.

(** X13. At every sample where both raw half-widths exist, the envelope
    of [buildConstantWidthEnvelope] has a finite inside half-width that
    is not negative and a finite outside half-width that is at least
    0.75, at least 0.4 times the inside half-width and at least
    [stats.targetWidth] minus the inside half-width; [stats.targetWidth]
    is positive. *)
Theorem envelope_outside_floors (hwl hwr : list Q) (angles : option (list Q))
  (targetWidth : Q) (i : nat) (l r : Q) :
  nth_error hwl i = Some l ->
  nth_error hwr i = Some r ->
  let env := Width.buildConstantWidthEnvelope hwl hwr angles targetWidth in
  let insideLeft := insideLeftAt angles i in
  exists vi vo,
    nth_error (if insideLeft then Width.envLeft env else Width.envRight env) i
    = Some (Some vi)
    /\ nth_error (if insideLeft then Width.envRight env else Width.envLeft env) i
       = Some (Some vo)
    /\ 0 <= vi
    /\ 3 # 4 <= vo
    /\ vi * (2 # 5) <= vo
    /\ Width.envTargetWidth env - vi <= vo
    /\ 0 < Width.envTargetWidth env.
Proof.
  intros Hl Hr. cbv zeta.
  assert (Hi : (i < length hwl)%nat) by (apply nth_error_Some; congruence).
  unfold Width.buildConstantWidthEnvelope.
  cbn [Width.envLeft Width.envRight Width.envTargetWidth].
  change (if Qlt_bool 0 targetWidth then targetWidth else 6)
    with (specMinWidth targetWidth).
  set (mw := specMinWidth targetWidth).
  change (fold_left (Width.envelopeStep hwl hwr angles targetWidth mw)
            (seq 0 (length hwl)) _)
    with (envelopeAfter hwl hwr angles targetWidth mw (length hwl)).
  destruct (@after_stable hwl hwr angles targetWidth mw i (length hwl) Hi)
    as [Sl Sr].
  pose proof (@after_written hwl hwr angles targetWidth mw i Hi) as Hw.
  cbv zeta in Hw. unfold Width.envelopeWidths in Hw.
  destruct (insideLeftAt angles i); rewrite Sl, Sr.
  - rewrite Hl in Hw.
    destruct (envelopePair_floor l targetWidth)
      as [vi [vo [E [H1 [H2 [H3 [H4 H5]]]]]]].
    fold mw in E, H4, H5. rewrite E in Hw. destruct Hw as [W1 W2].
    exists vi, vo. cbn [fst snd] in *. auto 10.
  - rewrite Hr in Hw.
    destruct (envelopePair_floor r targetWidth)
      as [vi [vo [E [H1 [H2 [H3 [H4 H5]]]]]]].
    fold mw in E, H4, H5. rewrite E in Hw. destruct Hw as [W1 W2].
    exists vi, vo. cbn [fst snd] in *. auto 10.
Qed.

(** X13 on two samples, the second with the right edge inside. *)
Lemma envelope_outside_floors_witness :
  let env := Width.buildConstantWidthEnvelope [4; 5] [3; 6] (Some [1; -1]) 8 in
  exists vi vo,
    nth_error (Width.envRight env) 1 = Some (Some vi)
    /\ nth_error (Width.envLeft env) 1 = Some (Some vo)
    /\ 0 <= vi
    /\ 3 # 4 <= vo
    /\ vi * (2 # 5) <= vo
    /\ Width.envTargetWidth env - vi <= vo
    /\ 0 < Width.envTargetWidth env.
Proof.
  apply (@envelope_outside_floors [4; 5] [3; 6] (Some [1; -1]) 8 1%nat 5 6);
    reflexivity.
Defined.

(** X14. [buildConstantWidthEnvelope] classifies every sample once: the
    inside-left and inside-right counts add up to the number of samples,
    and both result arrays have that length. *)
Theorem envelope_counts_every_sample (hwl hwr : list Q)
  (angles : option (list Q)) (targetWidth : Q) :
  let env := Width.buildConstantWidthEnvelope hwl hwr angles targetWidth in
  (Width.insideLeftCount env + Width.insideRightCount env = length hwl)%nat
  /\ length (Width.envLeft env) = length hwl
  /\ length (Width.envRight env) = length hwl.
Proof.
  cbv zeta. unfold Width.buildConstantWidthEnvelope.
  cbn [Width.envLeft Width.envRight Width.insideLeftCount
       Width.insideRightCount].
  set (mw := if Qlt_bool 0 targetWidth then targetWidth else 6).
  change (fold_left (Width.envelopeStep hwl hwr angles targetWidth mw)
            (seq 0 (length hwl)) _)
    with (envelopeAfter hwl hwr angles targetWidth mw (length hwl)).
  split; [apply envelope_counts|].
  apply after_lengths.
Qed.

(** ** The anchor budget: order and bias indices *)

Section OrderFacts.
Import Spline.

Lemma ascending_cons (a : nat) (l : list nat) :
  (forall z, In z l -> (a < z)%nat) -> ascending l -> ascending (a :: l).
Proof.
  destruct l as [|b l]; [simpl; auto|].
  intros H Hl. split; [apply H; left; reflexivity | exact Hl].
Qed.

Lemma ascending_inv (a : nat) (l : list nat) :
  ascending (a :: l) -> (forall z, In z l -> (a < z)%nat) /\ ascending l.
Proof.
  revert a. induction l as [|b l IH]; intros a H; [simpl; tauto|].
  destruct H as [Hab Hl]. split; [|exact Hl].
  intros z [<-|Hz]; [exact Hab|].
  destruct (IH b Hl) as [Hb _]. specialize (Hb z Hz). lia.
Qed.

Lemma insertSorted_ascending (x : nat) (l : list nat) :
  ascending l -> ~ In x l -> ascending (insertSorted Nat.ltb x l).
Proof.
  induction l as [|y r IH]; intros Hl Hx; [exact I|].
  cbn [insertSorted]. destruct (@ascending_inv y r Hl) as [Hy Hr].
  destruct (y <? x)%nat eqn:E.
  - apply Nat.ltb_lt in E. apply ascending_cons.
    + intros z Hz.
      apply (Permutation_in z (insertSorted_perm Nat.ltb x r)) in Hz.
      destruct Hz as [<-|Hz]; [exact E | apply Hy; exact Hz].
    + apply IH; [exact Hr|]. intros H. apply Hx. right. exact H.
  - apply Nat.ltb_ge in E.
    apply ascending_cons; [|exact Hl].
    assert (x <> y) by (intros ->; apply Hx; left; reflexivity).
    intros z [<-|Hz]; [lia|]. specialize (Hy z Hz). lia.
Qed.

Lemma sortBy_ascending (l : list nat) :
  NoDup l -> ascending (sortBy Nat.ltb l).
Proof.
  induction l as [|x l IH]; intros H; [exact I|].
  inversion H as [|? ? Hx Hl]; subst. cbn [sortBy].
  apply insertSorted_ascending; [apply IH; exact Hl|].
  intros Hin. apply Hx.
  apply (Permutation_in x (sortBy_perm Nat.ltb l)). exact Hin.
Qed.

Lemma seq_ascending (n : nat) : forall s, ascending (seq s n).
Proof.
  induction n as [|n IH]; intros s; [exact I|].
  cbn [seq]. apply ascending_cons; [|apply IH].
  intros z Hz. apply in_seq in Hz. lia.
Qed.

Lemma map_nth_seq {A : Type} (l : list A) (d : A) :
  map (fun i => nth i l d) (seq 0 (length l)) = l.
Proof.
  induction l as [|a l IH]; [reflexivity|].
  cbn [length seq map nth]. f_equal.
  rewrite <- seq_shift, map_map. exact IH.
Qed.

Lemma wrapIndex_below (n : nat) (z : Z) : (0 < n)%nat -> (wrapIndex n z < n)%nat.
Proof.
  intros Hn. unfold wrapIndex.
  pose proof (Z.rem_bound_abs z (Z.of_nat n) ltac:(lia)) as Hb.
  assert (Hpos : (0 <= Z.rem z (Z.of_nat n) + Z.of_nat n)%Z) by lia.
  rewrite Z.rem_mod_nonneg by lia.
  pose proof (Z.mod_pos_bound (Z.rem z (Z.of_nat n) + Z.of_nat n)
                (Z.of_nat n) ltac:(lia)). lia.
Qed.

Lemma setAdd_Forall (P : nat -> Prop) (idx : nat) (s : IndexSet) :
  P idx -> Forall P s -> Forall P (setAdd idx s).
Proof.
  intros Hi Hs. unfold setAdd. destruct (setHas idx s); [exact Hs|].
  apply Forall_app. auto.
Qed.

Lemma setAdd_bound (idx : nat) (s : IndexSet) :
  (length (setAdd idx s) <= S (length s))%nat.
Proof.
  unfold setAdd. destruct (setHas idx s); [lia|].
  rewrite length_app. simpl. lia.
Qed.

Lemma adds_Forall (P : nat -> Prop) (l : list nat) :
  forall s, Forall P l -> Forall P s ->
            Forall P (fold_left (fun s idx => setAdd idx s) l s).
Proof.
  induction l as [|a l IH]; intros s Hl Hs; [exact Hs|].
  inversion Hl; subst. cbn [fold_left]. apply IH; auto using setAdd_Forall.
Qed.

Lemma adds_length (l : list nat) :
  forall s, (length (fold_left (fun s idx => setAdd idx s) l s)
             <= length s + length l)%nat.
Proof.
  induction l as [|a l IH]; intros s; cbn [fold_left length]; [lia|].
  specialize (IH (setAdd a s)). pose proof (setAdd_bound a s). lia.
Qed.

Lemma adds_incl (l : list nat) :
  forall s, incl s (fold_left (fun s idx => setAdd idx s) l s)
            /\ incl l (fold_left (fun s idx => setAdd idx s) l s).
Proof.
  induction l as [|a l IH]; intros s; cbn [fold_left].
  - split; [apply incl_refl | intros x []].
  - destruct (IH (setAdd a s)) as [H1 H2]. split.
    + intros x Hx. apply H1. apply setAdd_incl. exact Hx.
    + intros x [<-|Hx]; [apply H1, setAdd_In | apply H2; exact Hx].
Qed.

Lemma straightLoop_facts (n targetCount step : nat) (fuel : nat) :
  forall idx s,
    let s' := straightLoop fuel n targetCount step idx s in
    incl s s'
    /\ (Forall (fun i => (i < n)%nat) s -> Forall (fun i => (i < n)%nat) s')
    /\ ((length s <= targetCount)%nat -> (length s' <= targetCount)%nat).
Proof.
  induction fuel as [|fuel IH]; intros idx s; cbv zeta; cbn [straightLoop].
  - split; [apply incl_refl | auto].
  - destruct ((idx <? n) && (length s <? targetCount))%nat eqn:E;
      [|split; [apply incl_refl | auto]].
    apply andb_true_iff in E. destruct E as [E1 E2].
    apply Nat.ltb_lt in E1, E2.
    destruct (IH (idx + step)%nat (setAdd idx s)) as [H1 [H2 H3]].
    split; [|split].
    + intros x Hx. apply H1, setAdd_incl, Hx.
    + intros Hs. apply H2. apply setAdd_Forall; assumption.
    + intros _. apply H3. pose proof (setAdd_bound idx s). lia.
Qed.

Lemma fill_facts (P : nat -> Prop) (targetCount : nat) (l : list (nat * Q)) :
  forall s,
    let s' := fold_left (fillWith targetCount) l s in
    (Forall P (map fst l) -> Forall P s -> Forall P s')
    /\ ((length s <= targetCount)%nat -> (length s' <= targetCount)%nat).
Proof.
  induction l as [|[idx sc] l IH]; intros s; cbv zeta; cbn [fold_left];
    [auto|].
  destruct (IH (fillWith targetCount s (idx, sc))) as [H1 H2].
  unfold fillWith in *.
  destruct (length s <? targetCount)%nat eqn:E.
  - apply Nat.ltb_lt in E. split.
    + intros Hl Hs. inversion Hl; subst.
      apply H1; [assumption | apply setAdd_Forall; assumption].
    + intros _. apply H2. pose proof (setAdd_bound idx s). lia.
  - split; [|exact H2]. intros Hl Hs. inversion Hl; subst. auto.
Qed.

Lemma deletes_facts (d : list (nat * Q)) :
  forall s,
    let s' := fold_left (fun acc '(idx, _) => setDelete idx acc) d s in
    incl s' s /\ (NoDup s -> NoDup s').
Proof.
  induction d as [|[idx sc] d IH]; intros s; cbv zeta; cbn [fold_left].
  - split; [apply incl_refl | auto].
  - destruct (IH (setDelete idx s)) as [H1 H2]. split.
    + intros x Hx. apply H1 in Hx. apply setDelete_In in Hx. tauto.
    + intros Hs. apply H2. apply setDelete_NoDup. exact Hs.
Qed.

Lemma trimToTarget_facts (atan2 : Q -> Q -> Q) (points : list Point)
  (targetCount : nat) (s : IndexSet) :
  let s' := trimToTarget atan2 points targetCount s in
  incl s' s /\ (NoDup s -> NoDup s')
  /\ ((length s <= targetCount)%nat -> s' = s).
Proof.
  cbv zeta. unfold trimToTarget.
  destruct (targetCount <? length s)%nat eqn:E.
  - apply Nat.ltb_lt in E.
    match goal with
    | |- context [fold_left _ ?d s] => destruct (deletes_facts d s) as [H1 H2]
    end.
    split; [exact H1|]. split; [exact H2 | lia].
  - split; [apply incl_refl | auto].
Qed.

End OrderFacts.

Section SelectionFacts.
Import Spline.
Variable atan2 : Q -> Q -> Q.
Variable points : list Point.
Variable targetCount : nat.
Variable options : AnchorOptions.

Local Abbreviation selectedIndices :=
  (Notions.selectedIndices atan2 points targetCount options).

Lemma buildAnchorBudget_selected :
  buildAnchorBudget atan2 points targetCount options
  = if ((length points <=? targetCount) || (targetCount <? 4))%nat
    then points
    else
      let selected := map (fun idx => nth idx points (mkPoint 0 0))
                          (sortBy Nat.ltb selectedIndices) in
      if (length selected <? 4)%nat then points else selected.
Proof. reflexivity. Qed.

Lemma selectedIndices_facts :
  (0 < length points)%nat ->
  NoDup selectedIndices
  /\ Forall (fun i => (i < length points)%nat) selectedIndices
  /\ ((length (biasIndices options) <= targetCount)%nat ->
      forall z, In z (biasIndices options) ->
                In (wrapIndex (length points) z) selectedIndices).
Proof.
  intros Hn. unfold Notions.selectedIndices. cbv zeta.
  set (n := length points) in *.
  set (s0 := setFromList (map (wrapIndex n) (biasIndices options))).
  set (step := Z.to_nat _).
  set (s1 := straightLoop n n targetCount step 0 s0).
  set (sorted := byScoreDescending (scored atan2 points (seq 0 n))).
  set (s2 := fillByCurvature targetCount sorted s1).
  assert (N0 : NoDup s0) by apply setFromList_NoDup.
  assert (F0 : Forall (fun i => (i < n)%nat) s0).
  { unfold s0, setFromList. apply adds_Forall; [|constructor].
    apply Forall_forall. intros x Hx. apply in_map_iff in Hx.
    destruct Hx as [z [<- _]]. apply wrapIndex_below. exact Hn. }
  destruct (straightLoop_facts n targetCount step n 0 s0) as [I1 [F1 B1]].
  fold s1 in I1, F1, B1.
  assert (N1 : NoDup s1) by (apply straightLoop_NoDup; exact N0).
  assert (E2 : s2 = fold_left (fillWith targetCount) sorted s1) by reflexivity.
  assert (N2 : NoDup s2) by (rewrite E2; apply fill_NoDup; exact N1).
  destruct (fill_facts (fun i => (i < n)%nat) targetCount sorted s1)
    as [F2 B2].
  rewrite <- E2 in F2, B2.
  assert (I2 : incl s1 s2)
    by (rewrite E2; apply (proj1 (fill_grows targetCount sorted s1))).
  destruct (trimToTarget_facts atan2 points targetCount s2) as [I3 [N3 K3]].
  split; [apply N3; exact N2|]. split.
  - assert (Hs2 : Forall (fun i => (i < n)%nat) s2).
    { apply F2; [|apply F1; exact F0].
      apply Forall_forall. intros x Hx.
      apply (Permutation_in x (Permutation_map fst
               (sortBy_perm _ (scored atan2 points (seq 0 n))))) in Hx.
      rewrite scored_fst in Hx. apply in_seq in Hx. lia. }
    apply Forall_forall. intros x Hx. apply I3 in Hx.
    revert x Hx. apply Forall_forall. exact Hs2.
  - intros Hb z Hz.
    assert (L0 : (length s0 <= targetCount)%nat).
    { unfold s0, setFromList.
      pose proof (adds_length (map (wrapIndex n) (biasIndices options)) [])
        as Hl.
      rewrite length_map in Hl. simpl in Hl. lia. }
    rewrite K3 by (apply B2, B1, L0).
    apply I2, I1. unfold s0, setFromList.
    apply (proj2 (adds_incl (map (wrapIndex n) (biasIndices options)) [])).
    apply in_map. exact Hz.
Qed.

End SelectionFacts.

(** X15. The anchors [buildAnchorBudget] returns are input points in
    their input order: the result is the input read at a strictly
    increasing list of indices. *)
Theorem anchors_in_input_order (atan2 : Q -> Q -> Q)
  (points : list Spline.Point) (targetCount : nat)
  (options : Spline.AnchorOptions) :
  exists indices,
    ascending indices
    /\ Forall (fun i => (i < length points)%nat) indices
    /\ Spline.buildAnchorBudget atan2 points targetCount options
       = map (fun i => nth i points (Spline.mkPoint 0 0)) indices.
Proof.
  assert (Hall : exists indices,
             ascending indices
             /\ Forall (fun i => (i < length points)%nat) indices
             /\ points = map (fun i => nth i points (Spline.mkPoint 0 0))
                             indices).
  { exists (seq 0 (length points)). split; [apply seq_ascending|].
    split; [|symmetry; apply map_nth_seq].
    apply Forall_forall. intros x Hx. apply in_seq in Hx. lia. }
  rewrite buildAnchorBudget_selected.
  destruct ((length points <=? targetCount) || (targetCount <? 4))%nat eqn:E;
    [exact Hall|].
  cbv zeta. destruct (length (map _ _) <? 4)%nat; [exact Hall|].
  apply orb_false_iff in E. destruct E as [E _]. apply Nat.leb_gt in E.
  destruct (@selectedIndices_facts atan2 points targetCount options
              ltac:(lia)) as [Hn [Hf _]].
  exists (sortBy Nat.ltb (selectedIndices atan2 points targetCount options)).
  split; [apply sortBy_ascending; exact Hn|].
  split; [apply sortBy_Forall; exact Hf | reflexivity].
Qed.

(** X16. With at most [targetCount] bias indices, the point at every bias
    index (wrapped into the array) is among the returned anchors. *)
Theorem anchors_keep_bias_indices (atan2 : Q -> Q -> Q)
  (points : list Spline.Point) (targetCount : nat)
  (options : Spline.AnchorOptions) (z : Z) :
  points <> [] ->
  (length (Spline.biasIndices options) <= targetCount)%nat ->
  In z (Spline.biasIndices options) ->
  In (Spline.wrap points z)
     (Spline.buildAnchorBudget atan2 points targetCount options).
Proof.
  intros Hne Hb Hz.
  assert (Hn : (0 < length points)%nat)
    by (destruct points; [congruence | simpl; lia]).
  assert (Hall : In (Spline.wrap points z) points).
  { unfold Spline.wrap. apply nth_In. apply wrapIndex_below. exact Hn. }
  rewrite buildAnchorBudget_selected.
  destruct ((length points <=? targetCount) || (targetCount <? 4))%nat;
    [exact Hall|].
  cbv zeta. destruct (length (map _ _) <? 4)%nat; [exact Hall|].
  destruct (@selectedIndices_facts atan2 points targetCount options Hn)
    as [_ [_ Hk]].
  unfold Spline.wrap.
  apply (in_map (fun idx => nth idx points (Spline.mkPoint 0 0))).
  apply (Permutation_in _ (Permutation_sym (sortBy_perm Nat.ltb _))).
  apply Hk; assumption.
Qed.

(** X16 on the hexagon with the bias indices 2 and -1 and a budget of 5. *)
Lemma anchors_keep_bias_indices_witness :
  In (Spline.wrap Examples.hexagon (-1))
     (Spline.buildAnchorBudget Examples.atan2Q Examples.hexagon 5
        {| Spline.biasIndices := [2%Z; (-1)%Z];
           Spline.anchorSpacingMeters := 10;
           Spline.straightSpacing := 80 |}).
Proof.
  apply (@anchors_keep_bias_indices Examples.atan2Q Examples.hexagon 5
           {| Spline.biasIndices := [2%Z; (-1)%Z];
              Spline.anchorSpacingMeters := 10;
              Spline.straightSpacing := 80 |} (-1)%Z).
  - discriminate.
  - simpl. lia.
  - simpl. auto.
Defined.

